(** * MP-QMCMC for Bayesian linear regression: the adaptive importance sampler

    A shallow embedding of [BayesianLinearRegression/BayesianLinReg.py]
    (class [BayesianLinReg]) over exact real arithmetic.

    - numpy arrays are lists: a one-dimensional array is a [list R], a
      two-dimensional array is the list of its rows;
    - Python exceptions are the [Raise] outcomes of a small error monad;
    - [numpy.linalg.inv], [numpy.linalg.cholesky] and [scipy.stats.norm.ppf]
      are library code: the engine is parametrised by them (Section
      variables); the design matrix, the observations and the point stream
      come from the modules [Data] and [Seed] and are inputs;
    - floating-point numbers are real numbers and [int(a/b)] on integers is
      the exact truncated quotient; the arguments are taken to have the
      shapes the docstring gives them ([x0] and [InitMean] of length [d],
      [InitCov] of shape [d x d], [d >= 1]), and [WeightIn] to be a
      non-negative count.

    The definitions come first (arrays, the constructor, the query methods,
    a concrete run in dimension one), then the lemmas, then the theorems on
    the specification's claims. *)

From Stdlib Require Import Reals Lra Lia List Arith ZArith Permutation Sorted.
From Stdlib Require Import QArith Qround.
Import ListNotations.

Local Open Scope R_scope.

(** ** Outcomes of fallible code *)

Inductive exn : Set :=
| IndexError          (* indexing past the end of an array *)
| ValueError          (* reshape / concatenate on arrays of the wrong shape *)
| LinAlgError         (* numpy.linalg on a singular or non-PD matrix *)
| ZeroDivisionError   (* integer division by zero *)
| NanResult.          (* numpy.mean of an empty slice: NaN, no real value *)

Inductive result (A : Type) : Type :=
| Ok (a : A)
| Raise (e : exn).

Arguments Ok {A} a.
Arguments Raise {A} e.

Definition bind {A B : Type} (c : result A) (k : A -> result B) : result B :=
  match c with
  | Ok a => k a
  | Raise e => Raise e
  end.

Notation "x <- c ;; k" := (bind c (fun x => k))
  (at level 61, c at next level, right associativity).

Definition of_option {A : Type} (e : exn) (o : option A) : result A :=
  match o with
  | Some a => Ok a
  | None => Raise e
  end.

(** ** Arrays *)

Abbreviation vec := (list R).
Abbreviation matrix := (list (list R)).

Fixpoint map2 {A B C : Type} (f : A -> B -> C) (u : list A) (v : list B)
  : list C :=
  match u, v with
  | a :: u', b :: v' => f a b :: map2 f u' v'
  | _, _ => []
  end.

(** [np.sum] of a one-dimensional array. *)
Definition rsum (v : vec) : R := fold_right Rplus 0 v.

Definition vadd (u v : vec) : vec := map2 Rplus u v.
Definition vsub (u v : vec) : vec := map2 Rminus u v.
Definition vscal (c : R) (v : vec) : vec := map (Rmult c) v.
Definition dot (u v : vec) : R := rsum (map2 Rmult u v).

Definition ncols (m : matrix) : nat :=
  match m with
  | [] => 0
  | r :: _ => length r
  end.

Definition col (j : nat) (m : matrix) : vec := map (fun r => nth j r 0) m.

(** [m.T] *)
Definition transpose (m : matrix) : matrix :=
  map (fun j => col j m) (seq 0 (ncols m)).

(** [np.dot] of two two-dimensional arrays. *)
Definition matmul (a b : matrix) : matrix :=
  map (fun r => map (fun c => dot r c) (transpose b)) a.

Definition mscal (c : R) (m : matrix) : matrix := map (vscal c) m.
Definition madd (a b : matrix) : matrix := map2 vadd a b.

(** [m.diagonal(0)] *)
Definition diagonal (m : matrix) : vec :=
  map (fun i => nth i (nth i m []) 0) (seq 0 (Nat.min (length m) (ncols m))).

Definition zeros (d : nat) : vec := repeat 0 d.
Definition zeros2 (r c : nat) : matrix := repeat (zeros c) r.

Definition identity (d : nat) : matrix :=
  map (fun i => map (fun j => if Nat.eq_dec i j then 1 else 0) (seq 0 d))
      (seq 0 d).

(** ** Sorting

    [np.sort] returns the ascending rearrangement of its argument.  Over a
    total order that array is unique, so insertion sort stands for it. *)

Fixpoint insert_sorted (x : R) (l : vec) : vec :=
  match l with
  | [] => [x]
  | y :: l' => if Rle_dec x y then x :: l else y :: insert_sorted x l'
  end.

Fixpoint np_sort (l : vec) : vec :=
  match l with
  | [] => []
  | x :: l' => insert_sorted x (np_sort l')
  end.

(** ** Weight normalisation (lines 164-167)

    [Sorted_LogPstates = np.sort(LogPstates)]
    [LogPstates = LogPstates - (Sorted_LogPstates[0] +
        np.log(1 + np.sum(np.exp(Sorted_LogPstates[1:] - Sorted_LogPstates[0]))))]
    [Pstates = np.exp(LogPstates)] *)

Definition log_normaliser (s0 : R) (rest : vec) : R :=
  s0 + ln (1 + rsum (map (fun x => exp (x - s0)) rest)).

Definition normalise (LogPstates : vec) : result vec :=
  let Sorted_LogPstates := np_sort LogPstates in
  match Sorted_LogPstates with
  | [] => Raise IndexError
  | s0 :: rest =>
      let LogPstates' := map (fun l => l - log_normaliser s0 rest) LogPstates in
      Ok (map exp LogPstates')
  end.

(** The reference scheme the stable one is compared with: exponentiate every
    log-weight and divide by the sum of all the exponentials. *)
Definition naive_normalise (LogPstates : vec) : vec :=
  map (fun l => exp l / rsum (map exp LogPstates)) LogPstates.


(** ** Indexing and slicing *)

(** [a[i] = v]; out of range raises [IndexError]. *)
Fixpoint set_row {A : Type} (i : nat) (v : A) (a : list A) : option (list A) :=
  match a, i with
  | [], _ => None
  | _ :: a', O => Some (v :: a')
  | x :: a', S i' => option_map (cons x) (set_row i' v a')
  end.

(** [a[Is]] for an integer index array [Is] (all indices non-negative). *)
Fixpoint take_idx {A : Type} (a : list A) (Is : list nat) : result (list A) :=
  match Is with
  | [] => Ok []
  | i :: Is' =>
      x <- of_option IndexError (nth_error a i) ;;
      r <- take_idx a Is' ;;
      Ok (x :: r)
  end.

(** [a[-1]] *)
Definition last_idx (Is : list nat) : result nat :=
  match Is with
  | [] => Raise IndexError
  | i :: Is' => Ok (last Is' i)
  end.

(** [a[k:]] with Python's treatment of negative and oversized [k]. *)
Definition slice_from {A : Type} (k : Z) (a : list A) : list A :=
  let len := Z.of_nat (length a) in
  let start := if (k <? 0)%Z then Z.max (len + k) 0 else Z.min k len in
  skipn (Z.to_nat start) a.

(** [np.cumsum] *)
Fixpoint cumsum_from (acc : R) (l : vec) : vec :=
  match l with
  | [] => []
  | x :: l' => (acc + x) :: cumsum_from (acc + x) l'
  end.

Definition cumsum (l : vec) : vec := cumsum_from 0 l.

(** [np.searchsorted(a, v)] (side 'left') on an ascending array: the
    leftmost insertion point, i.e. the first index whose entry is at least
    [v], or [len(a)] when there is none. *)
Fixpoint searchsorted (a : vec) (v : R) : nat :=
  match a with
  | [] => O
  | x :: a' => if Rle_dec v x then O else S (searchsorted a' v)
  end.

(** [np.mean(a, axis=0)] of a two-dimensional array: the mean of every
    column; NaN on an array without rows. *)
Definition mean_axis0 (rows : matrix) : result vec :=
  match rows with
  | [] => Raise NanResult
  | _ => Ok (map (fun c => rsum c / INR (length rows)) (transpose rows))
  end.

(** Entry [(i, j)] of a two-dimensional array. *)
Definition mget (m : matrix) (i j : nat) : R := nth j (nth i m []) 0.

(** [np.mean(a, axis=0)] of a three-dimensional array: the entrywise mean
    of its matrices. *)
Definition mean_axis0_mat (ms : list matrix) : result matrix :=
  match ms with
  | [] => Raise NanResult
  | m0 :: _ =>
      Ok (map (fun i =>
                 map (fun j => rsum (map (fun m => mget m i j) ms)
                               / INR (length ms))
                     (seq 0 (ncols m0)))
              (seq 0 (length m0)))
  end.

(** [np.mean] of a one-dimensional array. *)
Definition mean1 (v : vec) : result R :=
  match v with
  | [] => Raise NanResult
  | _ => Ok (rsum v / INR (length v))
  end.

(** ** The engine's state *)

(** [self.xVals] holds the start value (one-dimensional) followed by the
    per-iteration batches (two-dimensional). *)
Inductive ndarray : Type :=
| Arr1 (v : vec)
| Arr2 (m : matrix).

Record engine : Type := mkEngine {
  xVals : list ndarray;
  AcceptVals : list vec;
  WeightedSum : matrix;
  WeightedCov : list matrix;
  WeightedFunSum : matrix;
  ApprPostMean : vec;
  ApprPostCov : matrix
}.

(** The object together with the constructor's loop-carried locals. *)
Record loop_state : Type := mkLoop {
  self : engine;
  loop_xI : vec;   (* xI *)
  loop_I : nat;    (* I *)
  CholApprPostCov : matrix;
  InvApprPostCov : matrix
}.

(** The sum of [f 0], ..., [f (n-1)]. *)
Fixpoint sumn (f : nat -> R) (n : nat) : R :=
  match n with
  | O => 0
  | S n' => sumn f n' + f n'
  end.

(** ** Shapes and inverses *)

(** An [r x c] array. *)
Definition shape (r c : nat) (m : matrix) : Prop :=
  length m = r /\ Forall (fun row => length row = c) m.

(** [b] is the two-sided inverse of the [d x d] matrix [a]. *)
Definition is_inverse (d : nat) (a b : matrix) : Prop :=
  shape d d a /\ shape d d b /\
  matmul a b = identity d /\ matmul b a = identity d.

(** What [numpy.linalg.inv] promises: when it returns, what it returns is
    the inverse of its (square) argument. *)
Definition inv_sound (inv : matrix -> result matrix) : Prop :=
  forall a b, inv a = Ok b -> is_inverse (length a) a b.

(** ** The constructor [BayesianLinReg.__init__] *)

Section Engine.

(** Library code the constructor calls. *)
Variable np_linalg_inv : matrix -> result matrix.
Variable np_linalg_cholesky : matrix -> result matrix.
(** [norm.ppf(q, loc, scale)] *)
Variable norm_ppf : R -> R -> R -> R.

(** The constructor's arguments. *)
Variables (d : nat) (alpha : R) (x0 : vec) (N : nat) (StepSize : R)
          (PowerOfTwo : nat) (InitMean : vec) (InitCov : matrix)
          (WeightIn : nat).

(** What [DataGen(alpha, d)] and [SeedGen(d+1, PowerOfTwo, Stream)]
    return: design matrix, observations, their number, and the point
    stream of [2**PowerOfTwo - 1] rows and [d+1] columns. *)
Variables (X : matrix) (Obs : vec) (NumOfSamples : nat) (xs : matrix).

(** *** Prior quantities (lines 77-80) *)

Definition g : result R :=
  if Nat.eq_dec NumOfSamples 0 then Raise ZeroDivisionError
  else Ok (1 / INR NumOfSamples).

Definition sigmaSq : result R :=
  if Req_EM_T alpha 0 then Raise ZeroDivisionError else Ok (1 / alpha).

Definition G_prior : result matrix :=
  g_ <- g ;;
  sigmaSq_ <- sigmaSq ;;
  XtX_inv <- np_linalg_inv (matmul (transpose X) X) ;;
  Ok (mscal (sigmaSq_ / g_) XtX_inv).

Definition InvG_prior : result matrix :=
  G <- G_prior ;;
  np_linalg_inv G.

(** *** Iteration count and burn-in block (lines 92, 104) *)

Definition NumOfIter : result nat :=
  if Nat.eq_dec N 0 then Raise ZeroDivisionError
  else Ok (((2 ^ PowerOfTwo - 1) / (d + 1)) * (d + 1) / N)%nat.

Definition M : nat := (WeightIn / N + 1)%nat.

(** *** Initial state (lines 88-122) *)

Definition init_engine (NumOfIter_ : nat) : engine :=
  {| xVals := [Arr1 x0];
     AcceptVals := [];
     WeightedSum := repeat InitMean M ++ repeat (zeros d) NumOfIter_;
     WeightedCov := repeat InitCov M ++ repeat (zeros2 d d) NumOfIter_;
     WeightedFunSum := repeat (zeros d) (NumOfIter_ + M);
     ApprPostMean := InitMean;
     ApprPostCov := InitCov |}.

Definition init (NumOfIter_ : nat) : result loop_state :=
  let s := init_engine NumOfIter_ in
  Chol <- np_linalg_cholesky (ApprPostCov s) ;;
  Inv <- np_linalg_inv (ApprPostCov s) ;;
  Ok {| self := s; loop_xI := x0; loop_I := O;
        CholApprPostCov := Chol; InvApprPostCov := Inv |}.

(** *** One iteration of the loop (lines 129-210) *)

(** [U = xs[n*N:(n+1)*N, :]] *)
Definition block (n : nat) : matrix := firstn N (skipn (n * N) xs).

(** [y] and [Proposals] (lines 139-143) *)
Definition propose (mean : vec) (Chol : matrix) (xI_ : vec) (U : matrix)
  : matrix :=
  let Z := map (fun r => map (fun u => norm_ppf u 0 StepSize) (firstn d r)) U in
  let y := map (vadd mean) (matmul Z Chol) in
  xI_ :: y.

(** [LogPosteriors] (lines 151-154) *)
Definition LogPriors (InvG : matrix) (Proposals : matrix) : vec :=
  vscal (- (1 / 2))
        (diagonal (matmul (matmul Proposals InvG) (transpose Proposals))).

Definition LogLikelihoods (Proposals : matrix) : vec :=
  let fs := matmul X (transpose Proposals) in
  let res := map (vsub Obs) (transpose fs) in
  vscal (- (1 / 2) * alpha) (diagonal (matmul res (transpose res))).

Definition LogPosteriors (InvG : matrix) (Proposals : matrix) : vec :=
  vadd (LogPriors InvG Proposals) (LogLikelihoods Proposals).

(** [LogK_ni] and [LogKs] (lines 157-159) *)
Definition LogK_ni (mean : vec) (Inv : matrix) (Proposals : matrix) : vec :=
  let D := map (fun p => vsub p mean) Proposals in
  let K := map (map (fun a => a / StepSize ^ 2)) Inv in
  vscal (- (1 / 2)) (diagonal (matmul (matmul D K) (transpose D))).

Definition LogKs (LogK : vec) : vec := map (fun k => rsum LogK - k) LogK.

(** [LogPstates] before normalisation (line 163) *)
Definition LogPstates (InvG : matrix) (mean : vec) (Inv : matrix)
           (Proposals : matrix) : vec :=
  vadd (LogPosteriors InvG Proposals) (LogKs (LogK_ni mean Inv Proposals)).

(** [np.sum(np.tile(Pstates, (d,1)) * Proposals.T, axis=1)] (lines 175-176) *)
Definition weighted_sum (Pstates : vec) (Proposals : matrix) : vec :=
  let WeightedStates :=
    map2 (map2 Rmult) (repeat Pstates d) (transpose Proposals) in
  map rsum WeightedStates.

(** [B1], [B2], [A] and the weighted sum of outer products
    (lines 182-185); [reshape(N+1,d,1)] raises on any other size. *)
Definition outer (b : vec) : matrix := map (fun x => map (Rmult x) b) b.

Definition weighted_cov (Pstates : vec) (mean : vec) (Proposals : matrix)
  : result matrix :=
  let B := map (fun p => vsub p mean) Proposals in
  if Nat.eq_dec (length Proposals * d) ((N + 1) * d) then
    let A := map outer B in
    Ok (fold_right madd (zeros2 d d) (map2 mscal Pstates A))
  else Raise ValueError.

(** [n > 2*d/N] (line 189): the quotient is a true division. *)
Definition cov_guard (n : nat) : bool :=
  negb (Qle_bool (inject_Z (Z.of_nat n))
                 (inject_Z (Z.of_nat (2 * d)) / inject_Z (Z.of_nat N))).

(** [Is = np.searchsorted(np.cumsum(Pstates), U[:,d:].flatten())]
    (lines 199-200) *)
Definition resample (Pstates : vec) (U : matrix) : list nat :=
  let PstatesSum := cumsum Pstates in
  map (searchsorted PstatesSum) (concat (map (skipn d) U)).

Definition step (InvG : matrix) (n : nat) (st : loop_state)
  : result loop_state :=
  let s := self st in
  let U := block n in
  let Proposals := propose (ApprPostMean s) (CholApprPostCov st) (loop_xI st) U in
  Pstates <- normalise (LogPstates InvG (ApprPostMean s) (InvApprPostCov st)
                                   Proposals) ;;
  WeightedSum' <- of_option IndexError
      (set_row (n + M) (weighted_sum Pstates Proposals) (WeightedSum s)) ;;
  ApprPostMean' <- mean_axis0 (firstn (n + M + 1) WeightedSum') ;;
  wcov <- weighted_cov Pstates ApprPostMean' Proposals ;;
  WeightedCov' <- of_option IndexError
      (set_row (n + M) wcov (WeightedCov s)) ;;
  Inv0 <- np_linalg_inv (ApprPostCov s) ;;
  refreshed <-
      (if cov_guard n then
         C <- mean_axis0_mat (firstn (n + M + 1) WeightedCov') ;;
         Chol <- np_linalg_cholesky C ;;
         Inv <- np_linalg_inv C ;;
         Ok (C, Chol, Inv)
       else Ok (ApprPostCov s, CholApprPostCov st, Inv0)) ;;
  let '(ApprPostCov', Chol', Inv') := refreshed in
  let Is := resample Pstates U in
  xvals_new <- take_idx Proposals Is ;;
  AcceptValsNew <- take_idx Pstates Is ;;
  I' <- last_idx Is ;;
  xI' <- of_option IndexError (nth_error Proposals I') ;;
  Ok {| self :=
          {| xVals := xVals s ++ [Arr2 xvals_new];
             AcceptVals := AcceptVals s ++ [map (fun p => 1 - p) AcceptValsNew];
             WeightedSum := WeightedSum';
             WeightedCov := WeightedCov';
             WeightedFunSum := WeightedFunSum s;
             ApprPostMean := ApprPostMean';
             ApprPostCov := ApprPostCov' |};
        loop_xI := xI';
        loop_I := I';
        CholApprPostCov := Chol';
        InvApprPostCov := Inv' |}.

(** [for n in range(k)] started at iteration [n0]. *)
Fixpoint iterate (InvG : matrix) (n0 k : nat) (st : loop_state)
  : result loop_state :=
  match k with
  | O => Ok st
  | S k' => st' <- step InvG n0 st ;; iterate InvG (S n0) k' st'
  end.

(** The state after the first [k] iterations of a run; an iteration past
    [NumOfIter], which the constructor never starts, finds no accumulator
    slot to write and raises. *)
Definition run_upto (k : nat) : result loop_state :=
  InvG <- InvG_prior ;;
  NumOfIter_ <- NumOfIter ;;
  st <- init NumOfIter_ ;;
  iterate InvG 0 k st.

(** The whole constructor: the object it leaves behind. *)
Definition BayesianLinReg : result engine :=
  InvG <- InvG_prior ;;
  NumOfIter_ <- NumOfIter ;;
  st <- init NumOfIter_ ;;
  st' <- iterate InvG 0 NumOfIter_ st ;;
  Ok (self st').

(** *** What every state of the loop satisfies

    The loop-carried inverse and Cholesky factor belong to the current
    covariance, the burn-in block keeps the initial mean, and
    [WeightedFunSum] is never written. *)
Record loop_inv (K : nat) (st : loop_state) : Prop := {
  inv_Inv : np_linalg_inv (ApprPostCov (self st)) = Ok (InvApprPostCov st);
  inv_Chol :
    np_linalg_cholesky (ApprPostCov (self st)) = Ok (CholApprPostCov st);
  inv_seed : firstn M (WeightedSum (self st)) = repeat InitMean M;
  inv_len : length (WeightedSum (self st)) = (K + M)%nat;
  inv_fun : WeightedFunSum (self st) = repeat (zeros d) (K + M)
}.

End Engine.

(** ** Query methods (lines 213-321)

    A method takes the object and returns its outcome together with the
    object it leaves behind. *)

Definition method (A : Type) : Type := engine -> result A * engine.

Definition mlift {A : Type} (r : result A) : method A := fun s => (r, s).

(** Reading an attribute [self.f]. *)
Definition mread {A : Type} (f : engine -> A) : method A :=
  fun s => (Ok (f s), s).

Definition mbind {A B : Type} (m : method A) (k : A -> method B) : method B :=
  fun s =>
    match m s with
    | (Ok a, s') => k a s'
    | (Raise e, s') => (Raise e, s')
    end.

Notation "x <~ c ;; k" := (mbind c (fun x => k))
  (at level 61, c at next level, right associativity).

(** [np.concatenate(l, axis=0)] of two-dimensional arrays. *)
Fixpoint concat_rows (l : list ndarray) : result matrix :=
  match l with
  | [] => Ok []
  | Arr2 m :: l' => r <- concat_rows l' ;; Ok (m ++ r)
  | Arr1 _ :: _ => Raise ValueError
  end.

Definition np_concatenate2 (l : list ndarray) : result matrix :=
  match l with
  | [] => Raise ValueError
  | _ => concat_rows l
  end.

(** [np.concatenate(l)] of one-dimensional arrays. *)
Definition np_concatenate1 (l : list vec) : result vec :=
  match l with
  | [] => Raise ValueError
  | _ => Ok (concat l)
  end.

(** [int(BurnIn/N)]: true division, then truncation towards zero. *)
Definition int_div (BurnIn N : Z) : result Z :=
  if Z.eq_dec N 0 then Raise ZeroDivisionError else Ok (Z.quot BurnIn N).

Definition getSamples (BurnIn : Z) : method matrix :=
  xv <~ mread xVals ;;
  all <~ mlift (np_concatenate2 (tl xv)) ;;
  mlift (Ok (slice_from BurnIn all)).

Definition getAcceptRate (BurnIn : Z) : method R :=
  av <~ mread AcceptVals ;;
  all <~ mlift (np_concatenate1 av) ;;
  mlift (mean1 (slice_from BurnIn all)).

Definition getIS_MeanEstimate (N BurnIn : Z) : method vec :=
  ws <~ mread WeightedSum ;;
  k <~ mlift (int_div BurnIn N) ;;
  mlift (mean_axis0 (slice_from k ws)).

Definition getIS_FunMeanEstimate (N BurnIn : Z) : method vec :=
  ws <~ mread WeightedFunSum ;;
  k <~ mlift (int_div BurnIn N) ;;
  mlift (mean_axis0 (slice_from k ws)).

Definition getIS_CovEstimate (N BurnIn : Z) : method matrix :=
  wc <~ mread WeightedCov ;;
  k <~ mlift (int_div BurnIn N) ;;
  mlift (mean_axis0_mat (slice_from k wc)).

(** ** Reference instances of the library functions in dimension one

    On a [1 x 1] matrix the inverse is the reciprocal of its entry and the
    Cholesky factor is its square root; the normal quantile function takes
    the value [loc] at probability [1/2].  The examples below run the
    constructor with [d = 1] on stream points whose coordinates are [1/2]. *)

Definition inv_1x1 (m : matrix) : result matrix :=
  match m with
  | [[a]] => if Req_EM_T a 0 then Raise LinAlgError else Ok [[/ a]]
  | _ => Raise LinAlgError
  end.

Definition cholesky_1x1 (m : matrix) : result matrix :=
  match m with
  | [[a]] => if Rlt_dec 0 a then Ok [[sqrt a]] else Raise LinAlgError
  | _ => Raise LinAlgError
  end.

Definition ppf_median (q loc scale : R) : R := loc.

(** A method that leaves the object as it found it. *)
Definition pure_read {A : Type} (m : method A) : Prop :=
  forall s : engine, snd (m s) = s.

(** ** A run in dimension one

    [d = 1], [alpha = 1], [x0 = [1]], [N = 1], [StepSize = 1],
    [PowerOfTwo = 2], [InitMean = [0]], [InitCov = [[1]]], [WeightIn = 0];
    two observations [0] at design points [1]; a stream of three points
    [(1/2, 1/2)]. *)

Definition ex_X : matrix := [[1]; [1]].
Definition ex_Obs : vec := [0; 0].
Definition ex_xs : matrix := [[1 / 2; 1 / 2]; [1 / 2; 1 / 2]; [1 / 2; 1 / 2]].

Definition ex_InvG_prior : result matrix := InvG_prior inv_1x1 1 ex_X 2.

Definition ex_init : result loop_state :=
  init inv_1x1 cholesky_1x1 1 [1] 1 [0] [[1]] 0 2.

Definition ex_step (InvG : matrix) (n : nat) (st : loop_state)
  : result loop_state :=
  step inv_1x1 cholesky_1x1 ppf_median 1 1 1 1 0 ex_X ex_Obs ex_xs InvG n st.

Definition ex_run (k : nat) : result loop_state :=
  run_upto inv_1x1 cholesky_1x1 ppf_median 1 1 [1] 1 1 2 [0] [[1]] 0
           ex_X ex_Obs 2 ex_xs k.

(** The state the constructor enters the loop with. *)
Definition ex_st0 : loop_state :=
  {| self := {| xVals := [Arr1 [1]];
                AcceptVals := [];
                WeightedSum := [[0]; [0]; [0]];
                WeightedCov := [[[1]]; [[0]]; [[0]]];
                WeightedFunSum := [[0]; [0]; [0]];
                ApprPostMean := [0];
                ApprPostCov := [[1]] |};
     loop_xI := [1];
     loop_I := O;
     CholApprPostCov := [[1]];
     InvApprPostCov := [[1]] |}.

(** What iteration 0 of that run computes. *)
Definition ex_Proposals : matrix := [[1]; [0]].
Definition ex_LogPstates : vec := [- (3 / 2); - (1 / 2)].
Definition ex_Pstates : vec := naive_normalise ex_LogPstates.
Definition ex_WeightedSum1 : vec := weighted_sum 1 ex_Pstates ex_Proposals.
Definition ex_ApprPostMean1 : vec := [(0 + (nth 0 ex_WeightedSum1 0 + 0)) / 2].

Definition ex_WeightedCov1 : matrix :=
  fold_right madd (zeros2 1 1)
    (map2 mscal ex_Pstates
          (map outer (map (fun p => vsub p ex_ApprPostMean1) ex_Proposals))).

(** The state after iteration 0. *)
Definition ex_st1 : loop_state :=
  {| self := {| xVals := [Arr1 [1]; Arr2 [[0]]];
                AcceptVals := [[1 - nth 1 ex_Pstates 0]];
                WeightedSum := [[0]; ex_WeightedSum1; [0]];
                WeightedCov := [[[1]]; ex_WeightedCov1; [[0]]];
                WeightedFunSum := [[0]; [0]; [0]];
                ApprPostMean := ex_ApprPostMean1;
                ApprPostCov := [[1]] |};
     loop_xI := [0];
     loop_I := 1%nat;
     CholApprPostCov := [[1]];
     InvApprPostCov := [[1]] |}.

Definition ex_BayesianLinReg : result engine :=
  BayesianLinReg inv_1x1 cholesky_1x1 ppf_median 1 1 [1] 1 1 2 [0] [[1]] 0
                 ex_X ex_Obs 2 ex_xs.

(** ** Well-shaped data

    The shapes numpy would insist on: what the constructor is given, and
    what an iteration finds and leaves. *)

(** A library function on square matrices that returns, when it returns, a
    matrix of the shape of its argument. *)
Definition keeps_shape (f : matrix -> result matrix) : Prop :=
  forall d a b, shape d d a -> f a = Ok b -> shape d d b.

(** The state of the loop for dimension [d] and accumulators of [L] slots. *)
Record well_shaped (d L : nat) (st : loop_state) : Prop := {
  ws_mean : length (ApprPostMean (self st)) = d;
  ws_cov : shape d d (ApprPostCov (self st));
  ws_chol : shape d d (CholApprPostCov st);
  ws_inv : shape d d (InvApprPostCov st);
  ws_xI : length (loop_xI st) = d;
  ws_sum : shape L d (WeightedSum (self st));
  ws_covs_len : length (WeightedCov (self st)) = L;
  ws_covs : Forall (shape d d) (WeightedCov (self st))
}.

(** The stream block of an iteration: [N] rows of [d+1] numbers in the unit
    interval. *)
Definition unit_block (d N : nat) (U : matrix) : Prop :=
  shape N (d + 1) U /\ Forall (fun r => Forall (fun u => 0 <= u <= 1) r) U.

(** A library function whose only exception is [LinAlgError]. *)
Definition raises_LinAlgError_only (f : matrix -> result matrix) : Prop :=
  forall a e, f a = Raise e -> e = LinAlgError.

(** ** Positive definite covariances

    The quadratic form [v^T W v] of a [d x d] matrix, and the matrices on
    which a Cholesky factorisation exists. *)

Definition quad_form (d : nat) (W : matrix) (v : vec) : R :=
  sumn (fun a => sumn (fun b => nth a v 0 * mget W a b * nth b v 0) d) d.

Definition symmetric_matrix (d : nat) (W : matrix) : Prop :=
  shape d d W /\
  forall a b, (a < d)%nat -> (b < d)%nat -> mget W a b = mget W b a.

Definition pos_semidef (d : nat) (W : matrix) : Prop :=
  symmetric_matrix d W /\ forall v, 0 <= quad_form d W v.

Definition pos_def (d : nat) (W : matrix) : Prop :=
  pos_semidef d W /\
  forall v, (exists a, (a < d)%nat /\ nth a v 0 <> 0) -> 0 < quad_form d W v.

(** A library function that returns on every symmetric positive definite
    matrix, as the inverse and the Cholesky factorisation do. *)
Definition succeeds_on_pos_def (d : nat) (f : matrix -> result matrix)
  : Prop :=
  forall C, pos_def d C -> exists B, f C = Ok B.

(** What the covariance accumulator of the loop satisfies. *)
Record cov_inv (d : nat) (InitCov : matrix) (st : loop_state) : Prop := {
  ci_cov : pos_def d (ApprPostCov (self st));
  ci_slots : Forall (pos_semidef d) (WeightedCov (self st));
  ci_seed : nth_error (WeightedCov (self st)) 0 = Some InitCov
}.

(** A second stream for dimension one: seven points whose coordinates are
    [1/2], read in blocks of three. *)
Definition ex_xs7 : matrix := repeat [1 / 2; 1 / 2] 7.

(** * The convergence study ([Gauss/Convergence.py], lines 145-163, 198, 239)

    The study collects, for every entry [p] of [N_Array] and every
    simulation [j], the [d]-dimensional estimate returned by the sampler in
    [EstimArray[p, j, :]], once for the [cud] stream ([QMC_]) and once for
    the [iid] stream ([PSR_]), and summarises each array by its empirical
    variance, squared bias and mean squared error.  A three-dimensional
    array is a list (axis 0) of matrices (axes 1 and 2).  [a - PostMean]
    subtracts [PostMean] from every row of [a]; the statements below are
    about arrays of the shapes the script creates (lines 59, 76-77), on
    which numpy's broadcasting does exactly that. *)

Fixpoint mapM {A B : Type} (f : A -> result B) (l : list A)
  : result (list B) :=
  match l with
  | [] => Ok []
  | x :: l' => y <- f x ;; r <- mapM f l' ;; Ok (y :: r)
  end.

(** [np.var(a, axis=0)] of a two-dimensional array: the mean, along axis 0,
    of the squared deviations from the mean along axis 0. *)
Definition var_axis0 (rows : matrix) : result vec :=
  arrmean <- mean_axis0 rows ;;
  mean_axis0 (map (fun row => map (fun x => x ^ 2) (vsub row arrmean)) rows).

(** [np.mean(a, axis=1)] and [np.var(a, axis=1)] of a three-dimensional
    array, [np.sum(a, axis=1)] of a two-dimensional one. *)
Definition np_mean_axis1 (a : list matrix) : result matrix :=
  mapM mean_axis0 a.

Definition np_var_axis1 (a : list matrix) : result matrix :=
  mapM var_axis0 a.

Definition np_sum_axis1 (a : matrix) : vec := map rsum a.

(** [EstimAverageVarTrace] (lines 145-150) *)
Definition EstimAverageVarTrace (EstimArray : list matrix) : result vec :=
  EstimAverageVar <- np_var_axis1 EstimArray ;;
  Ok (np_sum_axis1 EstimAverageVar).

(** [QMC_EstimAverageSquareBiasTrace] (lines 158, 162): the mean of the
    deviations from [PostMean], squared. *)
Definition QMC_EstimAverageSquareBiasTrace (QMC_EstimArray : list matrix)
           (PostMean : vec) : result vec :=
  m <- np_mean_axis1
         (map (map (fun row => vsub row PostMean)) QMC_EstimArray) ;;
  Ok (np_sum_axis1 (map (map (fun x => x ^ 2)) m)).

(** [PSR_EstimAverageSquareBiasTrace] (lines 159, 163): the deviation of
    the mean from [PostMean], squared. *)
Definition PSR_EstimAverageSquareBiasTrace (PSR_EstimArray : list matrix)
           (PostMean : vec) : result vec :=
  m <- np_mean_axis1 PSR_EstimArray ;;
  Ok (np_sum_axis1
        (map (fun row => map (fun x => x ^ 2) (vsub row PostMean)) m)).

(** [QMC_MSE_Trace] and [PSR_MSE_Trace] (lines 198, 239) *)
Definition QMC_MSE_Trace (QMC_EstimArray : list matrix) (PostMean : vec)
  : result vec :=
  v <- EstimAverageVarTrace QMC_EstimArray ;;
  b <- QMC_EstimAverageSquareBiasTrace QMC_EstimArray PostMean ;;
  Ok (vadd v b).

Definition PSR_MSE_Trace (PSR_EstimArray : list matrix) (PostMean : vec)
  : result vec :=
  v <- EstimAverageVarTrace PSR_EstimArray ;;
  b <- PSR_EstimAverageSquareBiasTrace PSR_EstimArray PostMean ;;
  Ok (vadd v b).

(** ** The run in dimension one, started far from the mean

    The data, the stream and the initial estimates of the run above, with
    the start value [x0 = [40]]. *)

(** The state the constructor enters the loop with. *)
Definition ex40_st0 : loop_state :=
  {| self := {| xVals := [Arr1 [40]];
                AcceptVals := [];
                WeightedSum := [[0]; [0]; [0]];
                WeightedCov := [[[1]]; [[0]]; [[0]]];
                WeightedFunSum := [[0]; [0]; [0]];
                ApprPostMean := [0];
                ApprPostCov := [[1]] |};
     loop_xI := [40];
     loop_I := O;
     CholApprPostCov := [[1]];
     InvApprPostCov := [[1]] |}.

(** In binary64 [np.exp(x)] is [inf] for every [x] from 710 on: the
    logarithm of the largest binary64 number is 709.78... *)
Definition binary64_exp_overflow : R := 710.

(** [np.exp(x)] is finite in binary64 for every [x] up to 709. *)
Definition binary64_exp_finite : R := 709.

(** ** The constructor's documented arguments

    What the docstring asks of the arguments and what [DataGen] and
    [SeedGen] return for them: a positive dimension and number of
    proposals, vectors and matrices of the stated sizes, at least one
    observation, a stream of [2^PowerOfTwo - 1] points.  The step size is
    positive (it is the scale of [norm.ppf] and the divisor of line 157) and
    the stream points lie strictly inside the unit cube, where [norm.ppf]
    is finite. *)
Record documented_arguments (d : nat) (alpha : R) (x0 : vec) (N : nat)
       (StepSize : R) (PowerOfTwo : nat) (InitMean : vec) (InitCov : matrix)
       (X : matrix) (Obs : vec) (NumOfSamples : nat) (xs : matrix)
  : Prop := {
  da_d : (1 <= d)%nat;
  da_N : (1 <= N)%nat;
  da_alpha : alpha <> 0;
  da_StepSize : 0 < StepSize;
  da_NumOfSamples : (1 <= NumOfSamples)%nat;
  da_X : shape NumOfSamples d X;
  da_Obs : length Obs = NumOfSamples;
  da_x0 : length x0 = d;
  da_InitMean : length InitMean = d;
  da_InitCov : shape d d InitCov;
  da_xs : shape (2 ^ PowerOfTwo - 1) (d + 1) xs;
  da_xs_open : Forall (fun r => Forall (fun u => 0 < u < 1) r) xs
}.
(** ** Facts about sums and sorting *)

Lemma rsum_perm (u v : vec) : Permutation u v -> rsum u = rsum v.
Proof.
  induction 1; simpl; lra.
Qed.

Lemma rsum_map_scal (A : Type) (f : A -> R) (c : R) (l : list A) :
  rsum (map (fun a => f a * c) l) = rsum (map f l) * c.
Proof.
  induction l as [|a l IH]; simpl.
  - lra.
  - rewrite IH. lra.
Qed.

Lemma rsum_exp_pos (l : vec) : 0 <= rsum (map exp l).
Proof.
  induction l as [|a l IH]; simpl.
  - lra.
  - pose proof (exp_pos a). lra.
Qed.

Lemma rsum_exp_pos_strict (l : vec) : l <> [] -> 0 < rsum (map exp l).
Proof.
  destruct l as [|a l]; [congruence|]. intros _. simpl.
  pose proof (exp_pos a). pose proof (rsum_exp_pos l). lra.
Qed.

Lemma insert_sorted_perm (x : R) (l : vec) :
  Permutation (x :: l) (insert_sorted x l).
Proof.
  induction l as [|y l IH]; simpl.
  - apply Permutation_refl.
  - destruct (Rle_dec x y).
    + apply Permutation_refl.
    + eapply Permutation_trans; [apply perm_swap|].
      now apply perm_skip.
Qed.

Lemma np_sort_perm (l : vec) : Permutation l (np_sort l).
Proof.
  induction l as [|x l IH]; simpl.
  - apply perm_nil.
  - eapply Permutation_trans; [|apply insert_sorted_perm].
    now apply perm_skip.
Qed.

(** [np_sort] does sort: its first element, the anchor of the
    normalisation, is a smallest element of the array. *)
Lemma insert_sorted_lower (x y : R) (l : vec) :
  y <= x -> Forall (fun z => y <= z) l ->
  Forall (fun z => y <= z) (insert_sorted x l).
Proof.
  intros Hx Hl. eapply Permutation_Forall; [apply insert_sorted_perm|].
  now constructor.
Qed.

Lemma insert_sorted_sorted (x : R) (l : vec) :
  StronglySorted Rle l -> StronglySorted Rle (insert_sorted x l).
Proof.
  induction 1 as [|y l Hs IH Hy]; simpl.
  - repeat constructor.
  - destruct (Rle_dec x y) as [Hle|Hnle].
    + constructor; [now constructor|]. constructor; [exact Hle|].
      apply Forall_impl with (2 := Hy). intros z Hz. lra.
    + constructor; [exact IH|]. apply insert_sorted_lower; [lra|exact Hy].
Qed.

Lemma np_sort_sorted (l : vec) : StronglySorted Rle (np_sort l).
Proof.
  induction l as [|x l IH]; simpl.
  - constructor.
  - now apply insert_sorted_sorted.
Qed.

Lemma np_sort_head_min (l : vec) (s0 : R) (rest : vec) :
  np_sort l = s0 :: rest -> Forall (fun z => s0 <= z) l.
Proof.
  intros E. pose proof (np_sort_sorted l) as Hs. rewrite E in Hs.
  apply StronglySorted_inv in Hs. destruct Hs as [_ Hrest].
  eapply Permutation_Forall; [apply Permutation_sym, np_sort_perm|].
  rewrite E. constructor; [lra|exact Hrest].
Qed.

Lemma np_sort_nil (l : vec) : np_sort l = [] -> l = [].
Proof.
  intros H. pose proof (np_sort_perm l) as P. rewrite H in P.
  now apply Permutation_sym, Permutation_nil in P.
Qed.

(** The anchored normaliser is the logarithm of the full sum of
    exponentials, whatever element of the array is taken as anchor. *)
Lemma exp_log_normaliser (s0 : R) (rest : vec) :
  exp (log_normaliser s0 rest) = rsum (map exp (s0 :: rest)).
Proof.
  unfold log_normaliser.
  assert (Hpos : 0 <= rsum (map (fun x => exp (x - s0)) rest)).
  { rewrite <- (map_map (fun x => x - s0) exp). apply rsum_exp_pos. }
  rewrite exp_plus, exp_ln by lra.
  rewrite Rmult_plus_distr_l, Rmult_1_r. simpl. f_equal.
  rewrite Rmult_comm, <- rsum_map_scal. f_equal.
  apply map_ext. intros x. rewrite <- exp_plus. f_equal. lra.
Qed.

Lemma normalise_entry (s0 : R) (rest : vec) (l : R) :
  exp (l - log_normaliser s0 rest) = exp l / rsum (map exp (s0 :: rest)).
Proof.
  unfold Rminus, Rdiv. rewrite exp_plus, exp_Ropp, exp_log_normaliser.
  reflexivity.
Qed.

Lemma normalise_eq_naive (L : vec) :
  L <> [] -> normalise L = Ok (naive_normalise L).
Proof.
  intros HL. unfold normalise, naive_normalise.
  destruct (np_sort L) as [|s0 rest] eqn:E.
  - apply np_sort_nil in E. contradiction.
  - f_equal. rewrite map_map. apply map_ext. intros l.
    rewrite normalise_entry. f_equal. rewrite <- E.
    apply rsum_perm, Permutation_map, Permutation_sym, np_sort_perm.
Qed.

Lemma naive_normalise_sum (L : vec) :
  L <> [] -> rsum (naive_normalise L) = 1.
Proof.
  intros HL. unfold naive_normalise.
  pose proof (rsum_exp_pos_strict L HL) as Hpos.
  set (S := rsum (map exp L)) in *.
  unfold Rdiv. rewrite (rsum_map_scal R exp (/ S) L).
  fold S. field. lra.
Qed.

Lemma naive_normalise_nonneg (L : vec) :
  Forall (fun p => 0 <= p) (naive_normalise L).
Proof.
  unfold naive_normalise. apply Forall_map, Forall_forall. intros l _.
  pose proof (rsum_exp_pos L) as H. pose proof (exp_pos l) as Hl.
  unfold Rdiv. destruct (Req_dec (rsum (map exp L)) 0) as [E|E].
  - rewrite E, Rinv_0. lra.
  - apply Rmult_le_pos; [lra|]. apply Rlt_le, Rinv_0_lt_compat. lra.
Qed.

(** ** The reverse-kernel correction *)

Lemma nth_map_in {A B : Type} (f : A -> B) (l : list A) (a : A) (b : B)
      (i : nat) :
  (i < length l)%nat -> nth i (map f l) b = f (nth i l a).
Proof.
  intros Hi. rewrite (nth_indep _ b (f a)) by now rewrite length_map.
  apply map_nth.
Qed.

Lemma rsum_without (l : vec) (i : nat) :
  (i < length l)%nat ->
  rsum (firstn i l ++ skipn (S i) l) = rsum l - nth i l 0.
Proof.
  revert i. induction l as [|a l IH]; intros i Hi; simpl in Hi.
  - lia.
  - destruct i as [|i]; simpl.
    + lra.
    + fold (rsum (firstn i l ++ skipn (S i) l)).
      rewrite IH by lia. unfold rsum. lra.
Qed.

Lemma LogKs_length (LogK : vec) : length (LogKs LogK) = length LogK.
Proof. unfold LogKs. apply length_map. Qed.

Lemma LogKs_nth (LogK : vec) (i : nat) :
  (i < length LogK)%nat ->
  nth i (LogKs LogK) 0 = rsum LogK - nth i LogK 0.
Proof.
  intros Hi. unfold LogKs.
  now rewrite (nth_map_in (fun k => rsum LogK - k) LogK 0 0 i Hi).
Qed.

(** ** Consumption of the point stream *)

Lemma NumOfIter_ok (d N p : nat) :
  (1 <= N)%nat ->
  NumOfIter d N p = Ok ((2 ^ p - 1) / (d + 1) * (d + 1) / N)%nat.
Proof.
  intros HN. unfold NumOfIter. destruct (Nat.eq_dec N 0); [lia|reflexivity].
Qed.

Lemma NumOfIter_N_pos (d N p K : nat) : NumOfIter d N p = Ok K -> (1 <= N)%nat.
Proof.
  unfold NumOfIter. destruct (Nat.eq_dec N 0); [discriminate|lia].
Qed.

Lemma NumOfIter_rows (d N p K : nat) :
  NumOfIter d N p = Ok K -> (K * N <= 2 ^ p - 1)%nat.
Proof.
  unfold NumOfIter. destruct (Nat.eq_dec N 0) as [|HN]; [discriminate|].
  intros [= <-].
  set (q := ((2 ^ p - 1) / (d + 1))%nat).
  assert (H1 : (q * (d + 1) <= 2 ^ p - 1)%nat).
  { unfold q. rewrite Nat.mul_comm. apply Nat.Div0.mul_div_le. }
  assert (H2 : (q * (d + 1) / N * N <= q * (d + 1))%nat).
  { rewrite Nat.mul_comm. apply Nat.Div0.mul_div_le. }
  lia.
Qed.

Lemma block_length (N : nat) (xs : matrix) (n : nat) :
  ((n + 1) * N <= length xs)%nat -> length (block N xs n) = N.
Proof.
  intros H. unfold block. rewrite length_firstn, length_skipn. lia.
Qed.

Lemma block_nth_error (N : nat) (xs : matrix) (n i : nat) :
  (i < N)%nat -> nth_error (block N xs n) i = nth_error xs (n * N + i).
Proof.
  intros Hi. unfold block. rewrite nth_error_firstn.
  destruct (Nat.ltb_spec i N); [|lia]. apply nth_error_skipn.
Qed.

Lemma firstn_plus {A : Type} (a b : nat) (l : list A) :
  firstn (a + b) l = firstn a l ++ firstn b (skipn a l).
Proof.
  revert l. induction a as [|a IH]; intros l; simpl.
  - reflexivity.
  - destruct l as [|x l]; simpl.
    + now rewrite firstn_nil.
    + now rewrite IH.
Qed.

Lemma blocks_concat (N : nat) (xs : matrix) (k : nat) :
  concat (map (block N xs) (seq 0 k)) = firstn (k * N) xs.
Proof.
  induction k as [|k IH].
  - reflexivity.
  - rewrite seq_S, map_app, concat_app, IH. simpl.
    rewrite app_nil_r. unfold block.
    replace (N + k * N)%nat with (k * N + N)%nat by lia.
    now rewrite firstn_plus.
Qed.

(** ** The covariance guard *)

Lemma cov_guard_iff (d N n : nat) :
  (1 <= N)%nat -> cov_guard d N n = true <-> (2 * d < n * N)%nat.
Proof.
  intros HN. unfold cov_guard.
  set (qn := inject_Z (Z.of_nat n)).
  set (qd := inject_Z (Z.of_nat (2 * d))).
  set (qN := inject_Z (Z.of_nat N)).
  assert (HNq : (0 < qN)%Q).
  { change (inject_Z 0 < qN)%Q. unfold qN. rewrite <- Zlt_Qlt. lia. }
  destruct (Nat.le_gt_cases (n * N) (2 * d)) as [Hle|Hgt].
  - assert (Hb : Qle_bool qn (qd / qN) = true).
    { apply Qle_bool_iff, Qle_shift_div_l; [exact HNq|].
      unfold qn, qd, qN. rewrite <- inject_Z_mult, <- Zle_Qle. lia. }
    rewrite Hb. simpl. split; [discriminate|lia].
  - assert (Hlt : (qd / qN < qn)%Q).
    { apply Qlt_shift_div_r; [exact HNq|].
      unfold qn, qd, qN. rewrite <- inject_Z_mult, <- Zlt_Qlt. lia. }
    assert (Hb : Qle_bool qn (qd / qN) = false).
    { destruct (Qle_bool qn (qd / qN)) eqn:E; [|reflexivity].
      apply Qle_bool_iff in E. exfalso. exact (Qlt_not_le _ _ Hlt E). }
    rewrite Hb. simpl. split; [lia|reflexivity].
Qed.

(** ** Normalised weights *)

Lemma normalise_ok_nonempty (L P : vec) : normalise L = Ok P -> L <> [].
Proof.
  intros H ->. discriminate H.
Qed.

Lemma normalise_facts (L P : vec) :
  normalise L = Ok P ->
  length P = length L /\ Forall (fun p => 0 <= p) P /\ rsum P = 1.
Proof.
  intros H. pose proof (normalise_ok_nonempty L P H) as HL.
  rewrite (normalise_eq_naive L HL) in H. injection H as <-.
  split; [|split].
  - unfold naive_normalise. apply length_map.
  - apply naive_normalise_nonneg.
  - now apply naive_normalise_sum.
Qed.

(** ** Cumulative sums and the leftmost insertion point *)

Lemma cumsum_from_length (acc : R) (l : vec) :
  length (cumsum_from acc l) = length l.
Proof.
  revert acc. induction l as [|x l IH]; intros acc; simpl; [|rewrite IH];
    reflexivity.
Qed.

Lemma cumsum_from_last (acc : R) (l : vec) (x : R) :
  l <> [] -> last (cumsum_from acc l) x = acc + rsum l.
Proof.
  revert acc. induction l as [|a l IH]; intros acc Hl; [congruence|].
  destruct l as [|b l].
  - simpl. lra.
  - change (last (cumsum_from (acc + a) (b :: l)) x = acc + rsum (a :: b :: l)).
    rewrite IH by discriminate. simpl. lra.
Qed.

(** With non-negative weights the cumulative sums ascend, which is what
    [np.searchsorted] expects of its first argument. *)
Lemma cumsum_from_ascending (acc : R) (l : vec) :
  Forall (fun p => 0 <= p) l ->
  forall i j, (i <= j < length l)%nat ->
  nth i (cumsum_from acc l) 0 <= nth j (cumsum_from acc l) 0.
Proof.
  intros Hl. revert acc. induction Hl as [|a l Ha Hl IH]; intros acc i j Hij;
    simpl in Hij.
  - lia.
  - destruct j as [|j].
    + assert (i = O) by lia. subst. simpl. lra.
    + destruct i as [|i]; simpl.
      * apply Rle_trans with (nth 0 (cumsum_from (acc + a) l) 0).
        -- destruct l as [|b l]; simpl in *; [lia|].
           apply Forall_inv in Hl. lra.
        -- apply IH. lia.
      * apply IH. lia.
Qed.

(** The model of [np.searchsorted] returns the first index whose entry is
    at least [v]: everything before it is strictly smaller. *)
Lemma searchsorted_spec (a : vec) (v : R) :
  (forall j, (j < searchsorted a v)%nat -> nth j a 0 < v) /\
  ((searchsorted a v < length a)%nat -> v <= nth (searchsorted a v) a 0) /\
  (searchsorted a v <= length a)%nat.
Proof.
  induction a as [|x a [IH1 [IH2 IH3]]]; simpl.
  - repeat split; intros; lia.
  - destruct (Rle_dec v x) as [Hle|Hnle].
    + repeat split; intros; try lia. exact Hle.
    + repeat split.
      * intros [|j] Hj; [lra|]. apply IH1. lia.
      * intros Hlt. apply IH2. lia.
      * lia.
Qed.

(** That property determines the index, so any search that meets numpy's
    contract [a[i-1] < v <= a[i]] returns what the model returns. *)
Lemma searchsorted_unique (a : vec) (v : R) (i : nat) :
  (i <= length a)%nat ->
  (forall j, (j < i)%nat -> nth j a 0 < v) ->
  ((i < length a)%nat -> v <= nth i a 0) ->
  i = searchsorted a v.
Proof.
  intros Hi Hbefore Hat.
  destruct (searchsorted_spec a v) as (Sbefore & Sat & Sle).
  destruct (Nat.lt_trichotomy i (searchsorted a v)) as [Hlt|[Heq|Hgt]].
  - specialize (Sbefore i Hlt). specialize (Hat ltac:(lia)). lra.
  - exact Heq.
  - specialize (Hbefore _ Hgt). specialize (Sat ltac:(lia)). lra.
Qed.

Lemma searchsorted_lt (a : vec) (v x : R) :
  a <> [] -> v <= last a x -> (searchsorted a v < length a)%nat.
Proof.
  induction a as [|y a IH]; intros Ha Hv; [congruence|]. simpl.
  destruct (Rle_dec v y) as [Hle|Hnle]; [lia|].
  destruct a as [|z a].
  - simpl in Hv. contradiction.
  - apply -> Nat.succ_lt_mono. apply IH; [discriminate|exact Hv].
Qed.

Lemma Forall_skipn {A : Type} (P : A -> Prop) (k : nat) (l : list A) :
  Forall P l -> Forall P (skipn k l).
Proof.
  intros H. rewrite <- (firstn_skipn k l) in H.
  now apply Forall_app in H.
Qed.

Lemma resample_in_range (d : nat) (L P : vec) (U : matrix) :
  normalise L = Ok P ->
  Forall (fun r => Forall (fun u => 0 <= u <= 1) r) U ->
  Forall (fun i => (i < length L)%nat) (resample d P U).
Proof.
  intros HP HU. destruct (normalise_facts L P HP) as [Hlen [Hpos Hsum]].
  pose proof (normalise_ok_nonempty L P HP) as HL.
  assert (HPne : P <> []).
  { intros ->. destruct L; [congruence|discriminate]. }
  unfold resample. apply Forall_map, Forall_concat, Forall_map.
  apply Forall_impl with (2 := HU). intros r Hr.
  apply Forall_impl with (2 := Forall_skipn _ d r Hr). intros u Hu1.
  rewrite <- Hlen, <- (cumsum_from_length 0 P). fold (cumsum P).
  apply searchsorted_lt with (x := 0).
  - unfold cumsum. destruct P; [congruence|discriminate].
  - unfold cumsum. rewrite cumsum_from_last by assumption. lra.
Qed.

(** ** What one iteration does to the state *)

Lemma bind_ok {A B : Type} (c : result A) (k : A -> result B) (b : B) :
  bind c k = Ok b -> exists a, c = Ok a /\ k a = Ok b.
Proof.
  destruct c as [a|e]; simpl; intros H; [eauto|discriminate].
Qed.

Lemma of_option_ok {A : Type} (e : exn) (o : option A) (a : A) :
  of_option e o = Ok a -> o = Some a.
Proof.
  destruct o; simpl; congruence.
Qed.

Ltac bind_inv_fresh H :=
  let x := fresh "x" in
  let E := fresh "E" in
  apply bind_ok in H; destruct H as [x [E H]].

Tactic Notation "bind_inv" hyp(H) := bind_inv_fresh H.

Tactic Notation "bind_inv" hyp(H) "as" ident(a) ident(E) :=
  apply bind_ok in H; destruct H as [a [E H]].

Section StepFacts.

Variable np_linalg_inv : matrix -> result matrix.
Variable np_linalg_cholesky : matrix -> result matrix.
Variable norm_ppf : R -> R -> R -> R.
Variables (d : nat) (alpha : R) (x0 : vec) (N : nat) (StepSize : R)
          (PowerOfTwo : nat) (InitMean : vec) (InitCov : matrix)
          (WeightIn : nat).
Variables (X : matrix) (Obs : vec) (NumOfSamples : nat) (xs : matrix).

Local Abbreviation step_ :=
  (step np_linalg_inv np_linalg_cholesky norm_ppf d alpha N StepSize
        WeightIn X Obs xs).
Local Abbreviation iterate_ :=
  (iterate np_linalg_inv np_linalg_cholesky norm_ppf d alpha N StepSize
           WeightIn X Obs xs).
Local Abbreviation M_ := (M N WeightIn).
Local Abbreviation init_ :=
  (init np_linalg_inv np_linalg_cholesky d x0 N InitMean InitCov WeightIn).
Local Abbreviation run_upto_ :=
  (run_upto np_linalg_inv np_linalg_cholesky norm_ppf d alpha x0 N StepSize
            PowerOfTwo InitMean InitCov WeightIn X Obs NumOfSamples xs).
Local Abbreviation loop_inv_ :=
  (loop_inv np_linalg_inv np_linalg_cholesky d N InitMean WeightIn).
Local Abbreviation Proposals_of st n :=
  (propose norm_ppf d StepSize (ApprPostMean (self st))
           (CholApprPostCov st) (loop_xI st) (block N xs n)).
Local Abbreviation LogPstates_of InvG st n :=
  (LogPstates alpha StepSize X Obs InvG (ApprPostMean (self st))
              (InvApprPostCov st) (Proposals_of st n)).

(** Everything an iteration that ran to its end has computed. *)
Lemma step_inv (InvG : matrix) (n : nat) (st st' : loop_state) :
  step_ InvG n st = Ok st' ->
  exists Pstates wcov Inv0 xvals_new AcceptValsNew,
    normalise (LogPstates_of InvG st n) = Ok Pstates /\
    set_row (n + M_) (weighted_sum d Pstates (Proposals_of st n))
            (WeightedSum (self st)) = Some (WeightedSum (self st')) /\
    mean_axis0 (firstn (n + M_ + 1) (WeightedSum (self st')))
      = Ok (ApprPostMean (self st')) /\
    weighted_cov d N Pstates (ApprPostMean (self st')) (Proposals_of st n)
      = Ok wcov /\
    set_row (n + M_) wcov (WeightedCov (self st))
      = Some (WeightedCov (self st')) /\
    np_linalg_inv (ApprPostCov (self st)) = Ok Inv0 /\
    (if cov_guard d N n then
       mean_axis0_mat (firstn (n + M_ + 1) (WeightedCov (self st')))
         = Ok (ApprPostCov (self st')) /\
       np_linalg_cholesky (ApprPostCov (self st'))
         = Ok (CholApprPostCov st') /\
       np_linalg_inv (ApprPostCov (self st')) = Ok (InvApprPostCov st')
     else
       ApprPostCov (self st') = ApprPostCov (self st) /\
       CholApprPostCov st' = CholApprPostCov st /\
       InvApprPostCov st' = Inv0) /\
    take_idx (Proposals_of st n) (resample d Pstates (block N xs n))
      = Ok xvals_new /\
    take_idx Pstates (resample d Pstates (block N xs n))
      = Ok AcceptValsNew /\
    last_idx (resample d Pstates (block N xs n)) = Ok (loop_I st') /\
    nth_error (Proposals_of st n) (loop_I st') = Some (loop_xI st') /\
    xVals (self st') = xVals (self st) ++ [Arr2 xvals_new] /\
    AcceptVals (self st')
      = AcceptVals (self st) ++ [map (fun p => 1 - p) AcceptValsNew] /\
    WeightedFunSum (self st') = WeightedFunSum (self st).
Proof.
  unfold step. intros H.
  bind_inv H. rename x into Pstates, E into EP.
  bind_inv H. rename x into WS', E into EWS. apply of_option_ok in EWS.
  bind_inv H. rename x into mean', E into Emean.
  bind_inv H. rename x into wcov, E into Ewcov.
  bind_inv H. rename x into WC', E into EWC. apply of_option_ok in EWC.
  bind_inv H. rename x into Inv0, E into EInv0.
  bind_inv H. rename x into refreshed, E into Eref.
  destruct refreshed as [[C Chol] Inv].
  bind_inv H. rename x into xvals_new, E into Exv.
  bind_inv H. rename x into AcceptValsNew, E into Eav.
  bind_inv H. rename x into I', E into EI.
  bind_inv H. rename x into xI', E into ExI. apply of_option_ok in ExI.
  injection H as <-. simpl.
  exists Pstates, wcov, Inv0, xvals_new, AcceptValsNew.
  repeat split; try assumption.
  destruct (cov_guard d N n).
  - bind_inv Eref. bind_inv Eref. bind_inv Eref.
    injection Eref as <- <- <-. auto.
  - injection Eref as <- <- <-. auto.
Qed.

(** *** Accumulator shapes *)

Lemma set_row_length {A : Type} (i : nat) (v : A) (a a' : list A) :
  set_row i v a = Some a' -> length a' = length a /\ (i < length a)%nat.
Proof.
  revert i a'. induction a as [|x a IH]; intros i a' H; simpl in H.
  - destruct i; discriminate.
  - destruct i as [|i].
    + injection H as <-. simpl. lia.
    + cbn [set_row] in H. destruct (set_row i v a) as [r|] eqn:E; simpl in H; [|discriminate].
      injection H as <-. destruct (IH _ _ E). simpl. lia.
Qed.

Lemma set_row_firstn {A : Type} (i k : nat) (v : A) (a a' : list A) :
  set_row i v a = Some a' -> (k <= i)%nat -> firstn k a' = firstn k a.
Proof.
  revert i k a'. induction a as [|x a IH]; intros i k a' H Hk; simpl in H.
  - destruct i; discriminate.
  - destruct i as [|i].
    + assert (k = O) by lia. now subst.
    + cbn [set_row] in H. destruct (set_row i v a) as [r|] eqn:E; simpl in H; [|discriminate].
      injection H as <-. destruct k as [|k]; [reflexivity|].
      simpl. f_equal. apply (IH _ _ _ E). lia.
Qed.

(** *** Invariants of the loop *)

Lemma init_inv (K : nat) (st : loop_state) :
  init_ K = Ok st -> loop_inv_ K st.
Proof.
  unfold init. intros H. bind_inv H. bind_inv H. injection H as <-.
  simpl in *. constructor; simpl; try assumption.
  - rewrite firstn_app, firstn_all2 by (rewrite repeat_length; lia).
    rewrite repeat_length, Nat.sub_diag. simpl. apply app_nil_r.
  - rewrite length_app, !repeat_length. lia.
  - reflexivity.
Qed.

Lemma step_preserves_inv (InvG : matrix) (K n : nat) (st st' : loop_state) :
  loop_inv_ K st -> step_ InvG n st = Ok st' -> loop_inv_ K st'.
Proof.
  intros [HI HC Hs Hl Hf] H.
  destruct (step_inv _ _ _ _ H)
    as (P & wcov & Inv0 & xv & av & HP & HWS & Hmean & Hwc & HWC & HInv0
        & Hg & _ & _ & _ & _ & _ & _ & HF).
  constructor.
  - destruct (cov_guard d N n).
    + apply Hg.
    + destruct Hg as (-> & _ & ->). exact HInv0.
  - destruct (cov_guard d N n).
    + apply Hg.
    + destruct Hg as (-> & -> & _). exact HC.
  - rewrite (set_row_firstn _ _ _ _ _ HWS) by lia. exact Hs.
  - destruct (set_row_length _ _ _ _ HWS) as [-> _]. exact Hl.
  - now rewrite HF.
Qed.

Lemma iterate_preserves_inv (InvG : matrix) (K n0 k : nat)
      (st st' : loop_state) :
  loop_inv_ K st -> iterate_ InvG n0 k st = Ok st' -> loop_inv_ K st'.
Proof.
  revert n0 st. induction k as [|k IH]; intros n0 st Hinv H; simpl in H.
  - now injection H as <-.
  - bind_inv H. apply (IH (S n0) x); [|exact H].
    eapply step_preserves_inv; eauto.
Qed.

(** Splitting a run at its last iteration. *)
Lemma iterate_snoc (InvG : matrix) (n0 k : nat) (st : loop_state) :
  iterate_ InvG n0 (S k) st =
  (st1 <- iterate_ InvG n0 k st ;; step_ InvG (n0 + k) st1).
Proof.
  revert n0 st. induction k as [|k IH]; intros n0 st.
  - simpl. rewrite Nat.add_0_r. destruct (step_ InvG n0 st); reflexivity.
  - change (iterate_ InvG n0 (S (S k)) st)
      with (st' <- step_ InvG n0 st ;; iterate_ InvG (S n0) (S k) st').
    change (iterate_ InvG n0 (S k) st)
      with (st' <- step_ InvG n0 st ;; iterate_ InvG (S n0) k st').
    destruct (step_ InvG n0 st) as [st1|e]; cbn [bind]; [|reflexivity].
    rewrite IH. now rewrite Nat.add_succ_comm.
Qed.

(** A run of [k+1] iterations is a run of [k] iterations followed by the
    iteration of index [k], and [k] is within [range(NumOfIter)]: past it
    the accumulators have no slot left and the write raises. *)
Lemma run_upto_S (k : nat) (st' : loop_state) :
  run_upto_ (S k) = Ok st' ->
  exists InvG K st,
    InvG_prior np_linalg_inv alpha X NumOfSamples = Ok InvG /\
    NumOfIter d N PowerOfTwo = Ok K /\
    run_upto_ k = Ok st /\ loop_inv_ K st /\ step_ InvG k st = Ok st' /\
    (k < K)%nat.
Proof.
  unfold run_upto. intros H.
  bind_inv H as InvG EG. bind_inv H as K EK. bind_inv H as st0 E0.
  rewrite iterate_snoc in H. bind_inv H as st Ek.
  exists InvG, K, st. cbn [bind] in H.
  assert (Hinv : loop_inv_ K st).
  { eapply iterate_preserves_inv; [|exact Ek]. now apply init_inv. }
  refine (conj EG (conj EK (conj _ (conj Hinv (conj H _))))).
  - rewrite EG, EK. cbn [bind]. rewrite E0. exact Ek.
  - destruct (step_inv _ _ _ _ H)
      as (P & wcov & Inv0 & xv & av & _ & HWS & _).
    destruct (set_row_length _ _ _ _ HWS) as [_ Hlt].
    rewrite (inv_len _ _ _ _ _ _ _ _ Hinv) in Hlt. lia.
Qed.

(** *** Progress: an iteration on well-shaped data raises nothing *)

Lemma take_idx_ok {A : Type} (a : list A) (Is : list nat) :
  Forall (fun i => (i < length a)%nat) Is -> exists r, take_idx a Is = Ok r.
Proof.
  induction 1 as [|i Is Hi _ [r IH]]; simpl.
  - eauto.
  - destruct (nth_error a i) as [x|] eqn:E.
    + simpl. rewrite IH. simpl. eauto.
    + apply nth_error_None in E. lia.
Qed.

Lemma set_row_ok {A : Type} (i : nat) (v : A) (a : list A) :
  (i < length a)%nat -> exists a', set_row i v a = Some a'.
Proof.
  revert i. induction a as [|x a IH]; intros i Hi; simpl in Hi; [lia|].
  destruct i as [|i]; cbn [set_row]; [eauto|].
  destruct (IH i ltac:(lia)) as [a' ->]. simpl. eauto.
Qed.

Lemma propose_length (mean : vec) (Chol : matrix) (xI_ : vec) (U : matrix) :
  length (propose norm_ppf d StepSize mean Chol xI_ U) = S (length U).
Proof.
  unfold propose, matmul. simpl. now rewrite !length_map.
Qed.

Lemma last_idx_In (Is : list nat) (i : nat) : last_idx Is = Ok i -> In i Is.
Proof.
  destruct Is as [|j Is]; simpl; [discriminate|]. intros [= <-].
  induction Is as [|k Is IH]; [now left|].
  destruct Is as [|k' Is]; [simpl; auto|].
  change (last (k :: k' :: Is) j) with (last (k' :: Is) j).
  destruct IH as [IH|IH]; [now left|right; now right].
Qed.

Lemma step_progress (InvG : matrix) (n : nat) (st : loop_state) :
  (1 <= N)%nat ->
  length (block N xs n) = N ->
  Forall (fun r => (d < length r)%nat) (block N xs n) ->
  Forall (fun r => Forall (fun u => 0 <= u <= 1) r) (block N xs n) ->
  length (LogPstates_of InvG st n) = (N + 1)%nat ->
  (n + M_ < length (WeightedSum (self st)))%nat ->
  (n + M_ < length (WeightedCov (self st)))%nat ->
  (exists Inv0, np_linalg_inv (ApprPostCov (self st)) = Ok Inv0) ->
  (cov_guard d N n = true ->
   forall C, exists Chol Inv,
     np_linalg_cholesky C = Ok Chol /\ np_linalg_inv C = Ok Inv) ->
  exists st', step_ InvG n st = Ok st'.
Proof.
  intros HN HU Hcols Hunit HL HWS HWC [Inv0 HInv0] Hg.
  unfold step.
  destruct (normalise (LogPstates_of InvG st n)) as [P|e] eqn:EP.
  2:{ rewrite normalise_eq_naive in EP; [discriminate|].
      intros E. rewrite E in HL. simpl in HL. lia. }
  cbn [bind].
  destruct (normalise_facts _ _ EP) as (HlenP & _ & _).
  destruct (set_row_ok (n + M_) (weighted_sum d P (Proposals_of st n))
                       _ HWS) as [WS' EWS].
  rewrite EWS. cbn [of_option bind].
  destruct (set_row_length _ _ _ _ EWS) as [HlenWS _].
  destruct (firstn (n + M_ + 1) WS') as [|row0 rows] eqn:Ef.
  { apply (f_equal (@length _)) in Ef. rewrite length_firstn in Ef.
    simpl in Ef. lia. }
  cbn [mean_axis0 bind]. unfold weighted_cov.
  rewrite propose_length, HU.
  destruct (Nat.eq_dec (S N * d) ((N + 1) * d)) as [_|Hne]; [|lia].
  cbn [bind].
  match goal with
  | |- context [set_row (n + M_) ?w (WeightedCov (self st))] =>
      destruct (set_row_ok (n + M_) w _ HWC) as [WC' EWC]
  end.
  rewrite EWC. cbn [of_option bind]. rewrite HInv0. cbn [bind].
  destruct (set_row_length _ _ _ _ EWC) as [HlenWC _].
  assert (Href : exists t,
    (if cov_guard d N n
     then C <- mean_axis0_mat (firstn (n + M_ + 1) WC');;
          Chol <- np_linalg_cholesky C;;
          Inv <- np_linalg_inv C;; Ok (C, Chol, Inv)
     else Ok (ApprPostCov (self st), CholApprPostCov st, Inv0)) = Ok t).
  { destruct (cov_guard d N n); [|eauto].
    destruct (firstn (n + M_ + 1) WC') as [|m0 ms] eqn:Efc.
    { apply (f_equal (@length _)) in Efc. rewrite length_firstn in Efc.
      simpl in Efc. lia. }
    cbn [mean_axis0_mat bind].
    match goal with
    | |- context [np_linalg_cholesky ?C] =>
        destruct (Hg eq_refl C) as (Chol & Inv & -> & HI)
    end.
    cbn [bind]. rewrite HI. cbn [bind]. eauto. }
  destruct Href as [[[C Chol] Inv] ->]. cbn [bind].
  pose proof (resample_in_range d _ P _ EP Hunit) as Hrange.
  rewrite HL in Hrange.
  destruct (take_idx_ok (Proposals_of st n) (resample d P (block N xs n)))
    as [xv ->].
  { apply Forall_impl with (2 := Hrange). intros i Hi.
    rewrite propose_length, HU. lia. }
  cbn [bind].
  destruct (take_idx_ok P (resample d P (block N xs n))) as [av ->].
  { apply Forall_impl with (2 := Hrange). intros i Hi. lia. }
  cbn [bind].
  destruct (last_idx (resample d P (block N xs n))) as [i|e] eqn:Ei.
  2:{ unfold resample, last_idx in Ei.
      destruct (block N xs n) as [|r U]; [simpl in HU; lia|].
      apply Forall_inv in Hcols. simpl in Ei.
      destruct (skipn d r) as [|u us] eqn:Es; [|discriminate].
      apply (f_equal (@length _)) in Es. rewrite length_skipn in Es.
      simpl in Es. lia. }
  cbn [bind].
  pose proof (proj1 (Forall_forall _ _) Hrange i (last_idx_In _ _ Ei)) as Hi.
  destruct (nth_error (Proposals_of st n) i) as [x|] eqn:Ex.
  - cbn [of_option bind]. eauto.
  - apply nth_error_None in Ex. rewrite propose_length, HU in Ex.
    cbv beta in Hi. lia.
Qed.

(** *** Shapes of the scores *)

Lemma map2_length {A B C : Type} (f : A -> B -> C) (u : list A) (v : list B) :
  length (map2 f u v) = Nat.min (length u) (length v).
Proof.
  revert v. induction u as [|a u IH]; intros [|b v]; simpl; auto.
Qed.

Lemma diagonal_length_le (m : matrix) : (length (diagonal m) <= length m)%nat.
Proof.
  unfold diagonal. rewrite length_map, length_seq. lia.
Qed.

Lemma LogPstates_length_le (InvG : matrix) (mean : vec) (Inv Proposals : matrix) :
  (length (LogPstates alpha StepSize X Obs InvG mean Inv Proposals)
   <= length Proposals)%nat.
Proof.
  unfold LogPstates, vadd. rewrite map2_length, LogKs_length.
  unfold LogK_ni, vscal. rewrite length_map.
  etransitivity; [apply Nat.le_min_r|].
  etransitivity; [apply diagonal_length_le|].
  unfold matmul. now rewrite !length_map.
Qed.

(** *** The covariance before the guard opens *)

Lemma run_upto_0 (st : loop_state) :
  run_upto_ 0 = Ok st ->
  exists K, NumOfIter d N PowerOfTwo = Ok K /\ init_ K = Ok st.
Proof.
  unfold run_upto. intros H.
  bind_inv H as InvG EG. bind_inv H as K EK. bind_inv H as st0 E0.
  injection H as <-. eauto.
Qed.

Lemma run_upto_cov_initial (k : nat) (st : loop_state) :
  run_upto_ k = Ok st ->
  (forall n, (n < k)%nat -> cov_guard d N n = false) ->
  ApprPostCov (self st) = InitCov /\
  np_linalg_cholesky InitCov = Ok (CholApprPostCov st) /\
  np_linalg_inv InitCov = Ok (InvApprPostCov st).
Proof.
  revert st. induction k as [|k IH]; intros st H Hg.
  - destruct (run_upto_0 st H) as (K & _ & H0). unfold init in H0.
    bind_inv H0 as Chol EC. bind_inv H0 as Inv EI. injection H0 as <-.
    simpl in *. auto.
  - destruct (run_upto_S k st H)
      as (InvG & K & st0 & _ & _ & Hk & _ & Hs & _).
    destruct (IH st0 Hk ltac:(intros; apply Hg; lia)) as (HC & HChol & HInv).
    destruct (step_inv _ _ _ _ Hs)
      as (P & wcov & Inv0 & xv & av & _ & _ & _ & _ & _ & HInv0 & Hgd & _).
    rewrite (Hg k ltac:(lia)) in Hgd. destruct Hgd as (-> & -> & ->).
    rewrite HC in HInv0. repeat split; congruence.
Qed.

(** *** Completed runs *)

Lemma BayesianLinReg_inv (e : engine) :
  BayesianLinReg np_linalg_inv np_linalg_cholesky norm_ppf d alpha x0 N
                 StepSize PowerOfTwo InitMean InitCov WeightIn X Obs
                 NumOfSamples xs = Ok e ->
  exists K st,
    NumOfIter d N PowerOfTwo = Ok K /\ run_upto_ K = Ok st /\
    e = self st /\ loop_inv_ K st.
Proof.
  unfold BayesianLinReg, run_upto. intros H.
  bind_inv H as InvG EG. bind_inv H as K EK. bind_inv H as st0 E0.
  bind_inv H as st E. injection H as <-.
  exists K, st. rewrite EG, EK. cbn [bind]. rewrite E0. cbn [bind].
  refine (conj eq_refl (conj E (conj eq_refl _))).
  apply (iterate_preserves_inv InvG K 0 K st0 st (init_inv K st0 E0) E).
Qed.

End StepFacts.

(** ** Matrix algebra on lists of rows *)

Lemma sumn_ext (f h : nat -> R) (n : nat) :
  (forall k, (k < n)%nat -> f k = h k) -> sumn f n = sumn h n.
Proof.
  induction n as [|n IH]; intros H; simpl.
  - reflexivity.
  - rewrite IH, H by (intros; auto with arith). reflexivity.
Qed.

Lemma sumn_shift (f : nat -> R) (n : nat) :
  sumn f (S n) = f O + sumn (fun k => f (S k)) n.
Proof.
  induction n as [|n IH].
  - simpl. lra.
  - change (sumn f (S (S n))) with (sumn f (S n) + f (S n)).
    rewrite IH. simpl. lra.
Qed.

Lemma sumn_plus (f h : nat -> R) (n : nat) :
  sumn (fun k => f k + h k) n = sumn f n + sumn h n.
Proof.
  induction n as [|n IH]; simpl; [|rewrite IH]; lra.
Qed.

Lemma sumn_scal_l (c : R) (f : nat -> R) (n : nat) :
  sumn (fun k => c * f k) n = c * sumn f n.
Proof.
  induction n as [|n IH]; simpl; [|rewrite IH]; lra.
Qed.

Lemma sumn_scal_r (c : R) (f : nat -> R) (n : nat) :
  sumn (fun k => f k * c) n = sumn f n * c.
Proof.
  induction n as [|n IH]; simpl; [|rewrite IH]; lra.
Qed.

Lemma sumn_zero (n : nat) : sumn (fun _ => 0) n = 0.
Proof.
  induction n as [|n IH]; simpl; [|rewrite IH]; lra.
Qed.

Lemma sumn_swap (f : nat -> nat -> R) (n m : nat) :
  sumn (fun l => sumn (fun k => f k l) n) m =
  sumn (fun k => sumn (fun l => f k l) m) n.
Proof.
  induction n as [|n IH]; simpl.
  - apply sumn_zero.
  - rewrite sumn_plus, IH. reflexivity.
Qed.

(** Summing against a Kronecker delta picks one term. *)
Lemma sumn_delta_r (f : nat -> R) (j n : nat) :
  (j < n)%nat ->
  sumn (fun k => f k * (if Nat.eq_dec k j then 1 else 0)) n = f j.
Proof.
  induction n as [|n IH]; intros Hj; [lia|]. simpl.
  destruct (Nat.eq_dec n j) as [->|Hne].
  - rewrite (sumn_ext _ (fun _ => 0)), sumn_zero; [lra|].
    intros k Hk. destruct (Nat.eq_dec k j); [lia|lra].
  - rewrite IH by lia. lra.
Qed.

Lemma sumn_delta_l (f : nat -> R) (i n : nat) :
  (i < n)%nat ->
  sumn (fun k => (if Nat.eq_dec i k then 1 else 0) * f k) n = f i.
Proof.
  intros Hi. rewrite <- (sumn_delta_r f i n Hi). apply sumn_ext.
  intros k _. destruct (Nat.eq_dec i k), (Nat.eq_dec k i); subst; try lia; lra.
Qed.

Lemma dot_sumn (u v : vec) :
  length u = length v ->
  dot u v = sumn (fun k => nth k u 0 * nth k v 0) (length u).
Proof.
  revert v. induction u as [|a u IH]; intros [|b v] H; simpl in H;
    try discriminate.
  - reflexivity.
  - change (length (a :: u)) with (S (length u)). rewrite sumn_shift.
    simpl. unfold dot in IH. unfold dot. simpl. rewrite IH by lia.
    reflexivity.
Qed.

Lemma shape_row (r c : nat) (m : matrix) (i : nat) :
  shape r c m -> (i < r)%nat -> length (nth i m []) = c.
Proof.
  intros [Hl Hr] Hi. rewrite Forall_forall in Hr. apply Hr, nth_In. lia.
Qed.

Lemma shape_ncols (r c : nat) (m : matrix) :
  shape r c m -> (1 <= r)%nat -> ncols m = c.
Proof.
  intros [Hl Hr] H. destruct m as [|row m]; simpl in *; [lia|].
  now apply Forall_inv in Hr.
Qed.

Lemma matrix_ext (r c : nat) (a b : matrix) :
  shape r c a -> shape r c b ->
  (forall i j, (i < r)%nat -> (j < c)%nat -> mget a i j = mget b i j) ->
  a = b.
Proof.
  intros Ha Hb H. apply (nth_ext a b [] []).
  - destruct Ha, Hb. congruence.
  - intros i Hi. destruct Ha as [Hla Hra]. rewrite Hla in Hi.
    apply (nth_ext _ _ 0 0).
    + rewrite (shape_row r c a i), (shape_row r c b i); auto. now split.
    + intros j Hj. rewrite (shape_row r c a i) in Hj; [|now split|assumption].
      now apply H.
Qed.

Lemma col_nth (j : nat) (m : matrix) (k : nat) :
  nth k (col j m) 0 = mget m k j.
Proof.
  unfold col, mget. destruct (Nat.lt_ge_cases k (length m)) as [Hk|Hk].
  - now rewrite (nth_map_in (fun r => nth j r 0) m [] 0 k Hk).
  - rewrite (nth_overflow (map _ m)) by (rewrite length_map; exact Hk).
    rewrite (nth_overflow m) by exact Hk. now destruct j.
Qed.

Lemma mget_matmul (r n c : nat) (a b : matrix) (i j : nat) :
  shape r n a -> shape n c b -> (1 <= n)%nat ->
  (i < r)%nat -> (j < c)%nat ->
  mget (matmul a b) i j = sumn (fun k => mget a i k * mget b k j) n.
Proof.
  intros Ha Hb Hn Hi Hj. unfold mget at 1. unfold matmul.
  assert (Hla : length a = r) by apply Ha.
  erewrite nth_map_in with (a := []) by lia.
  unfold transpose. rewrite map_map, (shape_ncols n c b Hb Hn).
  erewrite nth_map_in with (a := O) by (rewrite length_seq; lia).
  rewrite seq_nth by lia. simpl.
  rewrite dot_sumn.
  - rewrite (shape_row r n a i Ha Hi). apply sumn_ext. intros k _.
    now rewrite col_nth.
  - rewrite (shape_row r n a i Ha Hi). unfold col. rewrite length_map.
    symmetry. apply Hb.
Qed.

Lemma shape_matmul (r n c : nat) (a b : matrix) :
  shape r n a -> shape n c b -> (1 <= n)%nat -> shape r c (matmul a b).
Proof.
  intros Ha Hb Hn. split.
  - unfold matmul. rewrite length_map. apply Ha.
  - unfold matmul. apply Forall_map, Forall_forall. intros row _.
    unfold transpose.
    now rewrite !length_map, length_seq, (shape_ncols n c b Hb Hn).
Qed.

Lemma shape_identity (d : nat) : shape d d (identity d).
Proof.
  split.
  - unfold identity. now rewrite length_map, length_seq.
  - unfold identity. apply Forall_map, Forall_forall. intros i _.
    now rewrite length_map, length_seq.
Qed.

Lemma mget_identity (d i j : nat) :
  (i < d)%nat -> (j < d)%nat ->
  mget (identity d) i j = if Nat.eq_dec i j then 1 else 0.
Proof.
  intros Hi Hj. unfold mget, identity.
  erewrite nth_map_in with (a := O) by (rewrite length_seq; lia).
  rewrite seq_nth by lia. simpl.
  erewrite nth_map_in with (a := O) by (rewrite length_seq; lia).
  now rewrite seq_nth by lia.
Qed.

Lemma shape_mscal (r c : nat) (k : R) (m : matrix) :
  shape r c m -> shape r c (mscal k m).
Proof.
  intros [Hl Hr]. split.
  - unfold mscal. now rewrite length_map.
  - unfold mscal. apply Forall_map. apply Forall_impl with (2 := Hr).
    intros row Hrow. unfold vscal. now rewrite length_map.
Qed.

Lemma mget_mscal (k : R) (m : matrix) (i j : nat) :
  mget (mscal k m) i j = k * mget m i j.
Proof.
  unfold mget, mscal.
  change (@nil R) with (vscal k []) at 1.
  rewrite (map_nth (vscal k) m [] i). unfold vscal.
  replace 0 with (k * 0) at 1 by lra.
  now rewrite (map_nth (Rmult k) (nth i m []) 0 j).
Qed.

Section SquareMatrices.

Variable d : nat.
Hypothesis d_pos : (1 <= d)%nat.

Lemma matmul_assoc (a b c : matrix) :
  shape d d a -> shape d d b -> shape d d c ->
  matmul (matmul a b) c = matmul a (matmul b c).
Proof.
  intros Ha Hb Hc.
  pose proof (shape_matmul d d d a b Ha Hb d_pos) as Hab.
  pose proof (shape_matmul d d d b c Hb Hc d_pos) as Hbc.
  apply (matrix_ext d d);
    [apply (shape_matmul d d d); assumption
    |apply (shape_matmul d d d); assumption|].
  intros i j Hi Hj.
  rewrite (mget_matmul d d d (matmul a b) c i j Hab Hc d_pos Hi Hj).
  rewrite (mget_matmul d d d a (matmul b c) i j Ha Hbc d_pos Hi Hj).
  rewrite (sumn_ext _ (fun l => sumn (fun k => mget a i k * mget b k l
                                             * mget c l j) d)).
  - rewrite sumn_swap. apply sumn_ext. intros k Hk.
    rewrite (mget_matmul d d d b c k j Hb Hc d_pos Hk Hj).
    rewrite <- sumn_scal_l. apply sumn_ext. intros l _. lra.
  - intros l Hl.
    rewrite (mget_matmul d d d a b i l Ha Hb d_pos Hi Hl).
    now rewrite <- sumn_scal_r.
Qed.

Lemma matmul_identity_l (a : matrix) :
  shape d d a -> matmul (identity d) a = a.
Proof.
  intros Ha. pose proof (shape_identity d) as HI.
  apply (matrix_ext d d);
    [apply (shape_matmul d d d); assumption|assumption|].
  intros i j Hi Hj.
  rewrite (mget_matmul d d d _ a i j HI Ha d_pos Hi Hj).
  rewrite (sumn_ext _ (fun k => (if Nat.eq_dec i k then 1 else 0)
                                * mget a k j)).
  - now apply (sumn_delta_l (fun k => mget a k j)).
  - intros k Hk. now rewrite mget_identity.
Qed.

Lemma matmul_identity_r (a : matrix) :
  shape d d a -> matmul a (identity d) = a.
Proof.
  intros Ha. pose proof (shape_identity d) as HI.
  apply (matrix_ext d d);
    [apply (shape_matmul d d d); assumption|assumption|].
  intros i j Hi Hj.
  rewrite (mget_matmul d d d a _ i j Ha HI d_pos Hi Hj).
  rewrite (sumn_ext _ (fun k => mget a i k
                                * (if Nat.eq_dec k j then 1 else 0))).
  - now apply (sumn_delta_r (fun k => mget a i k)).
  - intros k Hk. now rewrite mget_identity.
Qed.

Lemma matmul_mscal (x y : R) (a b : matrix) :
  shape d d a -> shape d d b ->
  matmul (mscal x a) (mscal y b) = mscal (x * y) (matmul a b).
Proof.
  intros Ha Hb.
  apply (matrix_ext d d).
  - apply (shape_matmul d d d); try apply shape_mscal; assumption.
  - apply shape_mscal, (shape_matmul d d d); assumption.
  - intros i j Hi Hj.
    rewrite (mget_matmul d d d _ _ i j (shape_mscal d d x a Ha)
                         (shape_mscal d d y b Hb) d_pos Hi Hj).
    rewrite mget_mscal, (mget_matmul d d d a b i j Ha Hb d_pos Hi Hj).
    rewrite <- sumn_scal_l. apply sumn_ext. intros k _.
    rewrite !mget_mscal. lra.
Qed.

(** A left inverse and a right inverse of the same matrix coincide. *)
Lemma inverse_unique (a l r : matrix) :
  shape d d a -> shape d d l -> shape d d r ->
  matmul l a = identity d -> matmul a r = identity d -> l = r.
Proof.
  intros Ha Hl Hr HL HR.
  rewrite <- (matmul_identity_r l Hl), <- HR.
  rewrite <- (matmul_assoc l a r Hl Ha Hr), HL.
  now apply matmul_identity_l.
Qed.

End SquareMatrices.

Lemma mscal_1 (m : matrix) : mscal 1 m = m.
Proof.
  unfold mscal, vscal. rewrite <- (map_id m) at 2.
  apply map_ext. intros row. rewrite <- (map_id row) at 2.
  apply map_ext. intros x. lra.
Qed.

Lemma shape_0 (m : matrix) : shape 0 0 m -> m = [].
Proof.
  intros [H _]. now apply length_zero_iff_nil.
Qed.

(** The inverse of a scaled inverse: if [b] inverts [a] and [c] inverts
    [k * b], then [c = (1/k) * a]. *)
Lemma inverse_of_scaled_inverse (d : nat) (k : R) (a b c : matrix) :
  k <> 0 ->
  is_inverse d a b -> is_inverse d (mscal k b) c -> c = mscal (/ k) a.
Proof.
  intros Hk (Ha & Hb & Hab & Hba) (Hkb & Hc & Hkbc & Hckb).
  destruct d as [|d].
  - rewrite (shape_0 c Hc), (shape_0 a Ha). reflexivity.
  - symmetry.
    apply (inverse_unique (S d) ltac:(lia) (mscal k b)); try assumption.
    + now apply shape_mscal.
    + rewrite (matmul_mscal (S d) ltac:(lia) _ _ a b Ha Hb), Hab.
      replace (/ k * k) with 1 by (field; assumption).
      apply mscal_1.
Qed.

(** ** The prior precision *)

Lemma InvG_prior_inv (inv : matrix -> result matrix) (alpha : R) (X : matrix)
      (NumOfSamples : nat) (InvG : matrix) :
  InvG_prior inv alpha X NumOfSamples = Ok InvG ->
  alpha <> 0 /\ NumOfSamples <> O /\
  exists B, inv (matmul (transpose X) X) = Ok B /\
            inv (mscal (1 / alpha / (1 / INR NumOfSamples)) B) = Ok InvG.
Proof.
  unfold InvG_prior, G_prior, g, sigmaSq. intros H.
  destruct (Nat.eq_dec NumOfSamples 0) as [|Hn]; [discriminate|].
  destruct (Req_EM_T alpha 0) as [|Ha]; [discriminate|].
  cbn [bind] in H.
  destruct (inv (matmul (transpose X) X)) as [B|] eqn:EB; [|discriminate].
  cbn [bind] in H. eauto.
Qed.

Lemma InvG_prior_value (inv : matrix -> result matrix) (alpha : R)
      (X : matrix) (NumOfSamples : nat) (InvG : matrix) :
  inv_sound inv ->
  InvG_prior inv alpha X NumOfSamples = Ok InvG ->
  InvG = mscal (alpha / INR NumOfSamples) (matmul (transpose X) X).
Proof.
  intros Hinv H.
  destruct (InvG_prior_inv _ _ _ _ _ H) as (Ha & Hn & B & EB & EG).
  assert (HnR : INR NumOfSamples <> 0) by now apply not_0_INR.
  set (k := 1 / alpha / (1 / INR NumOfSamples)) in *.
  assert (Hk : k <> 0).
  { replace k with (INR NumOfSamples * / alpha)
      by (unfold k; field; split; assumption).
    apply Rmult_integral_contrapositive_currified;
      [assumption|now apply Rinv_neq_0_compat]. }
  pose proof (Hinv _ _ EB) as H1. pose proof (Hinv _ _ EG) as H2.
  assert (Hlen : length (mscal k B) = length (matmul (transpose X) X)).
  { unfold mscal. rewrite length_map. destruct H1 as (Hs1 & Hs2 & _).
    destruct Hs1, Hs2. congruence. }
  rewrite Hlen in H2.
  rewrite (inverse_of_scaled_inverse _ k _ B InvG Hk H1 H2).
  f_equal. unfold k. field. split; assumption.
Qed.

(** ** Query methods are reads *)

Lemma pure_mlift {A : Type} (r : result A) : pure_read (mlift r).
Proof. intros s. reflexivity. Qed.

Lemma pure_mread {A : Type} (f : engine -> A) : pure_read (mread f).
Proof. intros s. reflexivity. Qed.

Lemma pure_mbind {A B : Type} (m : method A) (k : A -> method B) :
  pure_read m -> (forall a, pure_read (k a)) -> pure_read (mbind m k).
Proof.
  intros Hm Hk s. unfold mbind. specialize (Hm s).
  destruct (m s) as [[a|e] s']; simpl in *; subst.
  - apply Hk.
  - reflexivity.
Qed.

Create HintDb pure_db.

#[local] Hint Resolve pure_mlift pure_mread pure_mbind : pure_db.

Lemma getSamples_pure (BurnIn : Z) : pure_read (getSamples BurnIn).
Proof. unfold getSamples. auto 10 with pure_db. Qed.

Lemma getAcceptRate_pure (BurnIn : Z) : pure_read (getAcceptRate BurnIn).
Proof. unfold getAcceptRate. auto 10 with pure_db. Qed.

Lemma getIS_MeanEstimate_pure (N BurnIn : Z) :
  pure_read (getIS_MeanEstimate N BurnIn).
Proof. unfold getIS_MeanEstimate. auto 10 with pure_db. Qed.

Lemma getIS_FunMeanEstimate_pure (N BurnIn : Z) :
  pure_read (getIS_FunMeanEstimate N BurnIn).
Proof. unfold getIS_FunMeanEstimate. auto 10 with pure_db. Qed.

Lemma getIS_CovEstimate_pure (N BurnIn : Z) :
  pure_read (getIS_CovEstimate N BurnIn).
Proof. unfold getIS_CovEstimate. auto 10 with pure_db. Qed.

Lemma pure_read_twice {A : Type} (m : method A) (s : engine) :
  pure_read m -> fst (m (snd (m s))) = fst (m s).
Proof.
  intros H. now rewrite H.
Qed.

(** ** Means *)

Lemma mean_axis0_ok (rows : matrix) :
  rows <> [] ->
  mean_axis0 rows
  = Ok (map (fun c => rsum c / INR (length rows)) (transpose rows)).
Proof.
  destruct rows; [congruence|reflexivity].
Qed.

(** ** Means of blocks of zeros *)

Lemma skipn_repeat {A : Type} (x : A) (k n : nat) :
  skipn k (repeat x n) = repeat x (n - k).
Proof.
  revert k. induction n as [|n IH]; intros [|k]; simpl; auto.
Qed.

Lemma slice_from_repeat {A : Type} (x : A) (k : Z) (n : nat) :
  (1 <= n)%nat -> (k < Z.of_nat n)%Z ->
  exists n', (1 <= n')%nat /\ slice_from k (repeat x n) = repeat x n'.
Proof.
  intros Hn Hk. unfold slice_from. rewrite repeat_length, skipn_repeat.
  eexists. split; [|reflexivity].
  cbv zeta. destruct (Z.ltb_spec k 0); lia.
Qed.

Lemma rsum_repeat_0 (n : nat) : rsum (repeat 0 n) = 0.
Proof.
  induction n as [|n IH]; [reflexivity|].
  change (0 + rsum (repeat 0 n) = 0). rewrite IH. lra.
Qed.

Lemma map_const_seq {A : Type} (x : A) (s n : nat) :
  map (fun _ => x) (seq s n) = repeat x n.
Proof.
  revert s. induction n as [|n IH]; intros s; simpl; [|rewrite IH];
    reflexivity.
Qed.

Lemma col_zeros (d j n : nat) : col j (repeat (zeros d) n) = repeat 0 n.
Proof.
  unfold col. induction n as [|n IH]; simpl; [reflexivity|].
  rewrite IH. f_equal. unfold zeros. clear. revert j.
  induction d as [|d IHd]; intros [|j]; simpl; auto.
Qed.

Lemma mean_axis0_zeros (d n : nat) :
  (1 <= n)%nat -> mean_axis0 (repeat (zeros d) n) = Ok (zeros d).
Proof.
  intros Hn. destruct n as [|n]; [lia|].
  unfold mean_axis0. cbn [repeat]. f_equal.
  change (zeros d :: repeat (zeros d) n) with (repeat (zeros d) (S n)).
  unfold transpose. cbn [ncols repeat].
  replace (length (zeros d)) with d by (unfold zeros; now rewrite repeat_length).
  rewrite map_map.
  transitivity (map (fun _ : nat => 0) (seq 0 d));
    [|unfold zeros; apply map_const_seq].
  apply map_ext. intros j.
  change (zeros d :: repeat (zeros d) n) with (repeat (zeros d) (S n)).
  rewrite col_zeros, rsum_repeat_0. unfold Rdiv. apply Rmult_0_l.
Qed.

(** ** The run in dimension one, evaluated *)

Lemma inv_1x1_ok (a : R) : a <> 0 -> inv_1x1 [[a]] = Ok [[/ a]].
Proof.
  intros Ha. unfold inv_1x1. destruct (Req_EM_T a 0); [contradiction|].
  reflexivity.
Qed.

Lemma cholesky_1x1_ok (a : R) : 0 < a -> cholesky_1x1 [[a]] = Ok [[sqrt a]].
Proof.
  intros Ha. unfold cholesky_1x1. destruct (Rlt_dec 0 a); [|contradiction].
  reflexivity.
Qed.

Lemma inv_1x1_sound : inv_sound inv_1x1.
Proof.
  intros a b H. unfold inv_1x1 in H.
  destruct a as [|[|x [|y r]] [|r' a]]; try discriminate.
  destruct (Req_EM_T x 0) as [|Hx]; [discriminate|]. injection H as <-.
  repeat split; try (repeat constructor).
  - cbn. repeat f_equal. field. exact Hx.
  - cbn. repeat f_equal. field. exact Hx.
Qed.

Lemma ex_InvG_prior_eq : ex_InvG_prior = Ok [[1]].
Proof.
  unfold ex_InvG_prior, InvG_prior, G_prior, g, sigmaSq.
  destruct (Nat.eq_dec 2 0) as [|_]; [discriminate|].
  destruct (Req_EM_T 1 0) as [|_]; [lra|].
  cbn -[INR inv_1x1]. rewrite inv_1x1_ok by lra. cbn -[INR inv_1x1].
  rewrite inv_1x1_ok.
  - repeat f_equal. rewrite (INR_IZR_INZ 2). simpl. field.
  - rewrite (INR_IZR_INZ 2). simpl. lra.
Qed.

Lemma ex_init_eq : ex_init = Ok ex_st0.
Proof.
  unfold ex_init, init. cbn -[cholesky_1x1 inv_1x1].
  rewrite cholesky_1x1_ok, inv_1x1_ok by lra. cbn.
  unfold ex_st0. now rewrite sqrt_1, Rinv_1.
Qed.

Lemma ex_Proposals_eq :
  propose ppf_median 1 1 [0] [[1]] [1] (block 1 ex_xs 0) = ex_Proposals.
Proof.
  unfold propose, block, ex_xs, ex_Proposals, ppf_median. cbn.
  repeat f_equal. lra.
Qed.

Lemma ex_LogPstates_eq :
  LogPstates 1 1 ex_X ex_Obs [[1]] [0] [[1]] ex_Proposals = ex_LogPstates.
Proof.
  cbn. unfold ex_LogPstates. repeat f_equal; field.
Qed.

(** The two weights: the current state gets less than half of the mass. *)
Lemma ex_Pstates_eq :
  exists p0 p1, ex_Pstates = [p0; p1] /\ 0 < p0 < 1 / 2 /\ p0 + p1 = 1.
Proof.
  unfold ex_Pstates, ex_LogPstates. cbn.
  eexists. eexists. split; [reflexivity|].
  set (a := exp (- (3 / 2))). set (b := exp (- (1 / 2))).
  assert (Ha : 0 < a) by apply exp_pos.
  assert (Hb : 0 < b) by apply exp_pos.
  assert (Hab : a < b) by (apply exp_increasing; lra).
  split; [split|].
  - apply Rdiv_lt_0_compat; lra.
  - apply (Rmult_lt_reg_r (a + (b + 0))); [lra|]. unfold Rdiv.
    rewrite Rmult_assoc, Rinv_l by lra. lra.
  - field. lra.
Qed.

Lemma ex_resample_eq : resample 1 ex_Pstates (block 1 ex_xs 0) = [1%nat].
Proof.
  destruct ex_Pstates_eq as (p0 & p1 & -> & Hp0 & Hsum).
  unfold resample, block, ex_xs. cbn.
  destruct (Rle_dec (1 / 2) (0 + p0)) as [H|_]; [lra|].
  destruct (Rle_dec (1 / 2) (0 + p0 + p1)) as [_|H]; [reflexivity|lra].
Qed.

Lemma ex_step0_eq : ex_step [[1]] 0 ex_st0 = Ok ex_st1.
Proof.
  unfold ex_step, step.
  cbn [ex_st0 self ApprPostMean CholApprPostCov loop_xI InvApprPostCov
       ApprPostCov WeightedSum WeightedCov xVals AcceptVals WeightedFunSum].
  rewrite ex_Proposals_eq, ex_LogPstates_eq.
  rewrite normalise_eq_naive by discriminate. fold ex_Pstates.
  cbn [bind]. rewrite ex_resample_eq.
  change (0 + M 1 0)%nat with 1%nat.
  change (cov_guard 1 1 0) with false.
  cbn [bind set_row of_option option_map Nat.add firstn].
  fold ex_WeightedSum1.
  assert (Hmean : mean_axis0 [[0]; ex_WeightedSum1] = Ok ex_ApprPostMean1).
  { unfold mean_axis0, ex_ApprPostMean1. cbn. reflexivity. }
  rewrite Hmean. cbn [bind]. unfold weighted_cov.
  cbn [length ex_Proposals Nat.mul Nat.add].
  destruct (Nat.eq_dec 2 2) as [_|H]; [|contradiction].
  fold ex_WeightedCov1. cbn [bind set_row of_option option_map].
  rewrite inv_1x1_ok by lra. cbn [bind].
  destruct ex_Pstates_eq as (p0 & p1 & E & _).
  unfold ex_st1. rewrite E. cbn. now rewrite Rinv_1.
Qed.

Lemma ex_run1_eq : ex_run 1 = Ok ex_st1.
Proof.
  unfold ex_run, run_upto. fold ex_InvG_prior. rewrite ex_InvG_prior_eq.
  cbn [bind]. unfold NumOfIter.
  destruct (Nat.eq_dec 1 0) as [|_]; [discriminate|].
  change ((2 ^ 2 - 1) / (1 + 1) * (1 + 1) / 1)%nat with 2%nat.
  cbn [bind]. fold ex_init. rewrite ex_init_eq. cbn [bind iterate].
  fold (ex_step [[1]] 0 ex_st0). rewrite ex_step0_eq. reflexivity.
Qed.

Lemma ex_step1 : exists st2, ex_step [[1]] 1 ex_st1 = Ok st2.
Proof.
  unfold ex_step. apply step_progress.
  - lia.
  - reflexivity.
  - cbn. repeat constructor.
  - cbn. repeat constructor; lra.
  - reflexivity.
  - cbn. lia.
  - cbn. lia.
  - cbn -[inv_1x1]. rewrite inv_1x1_ok by lra. eauto.
  - intros H. vm_compute in H. discriminate.
Qed.

(** The constructor runs both iterations of the example to the end. *)
Lemma ex_BayesianLinReg_ok : exists e, ex_BayesianLinReg = Ok e.
Proof.
  destruct ex_step1 as [st2 H2].
  exists (self st2). unfold ex_BayesianLinReg, BayesianLinReg.
  fold ex_InvG_prior. rewrite ex_InvG_prior_eq. cbn [bind]. unfold NumOfIter.
  destruct (Nat.eq_dec 1 0) as [|_]; [discriminate|].
  change ((2 ^ 2 - 1) / (1 + 1) * (1 + 1) / 1)%nat with 2%nat.
  cbn [bind]. fold ex_init. rewrite ex_init_eq. cbn [bind iterate].
  fold (ex_step [[1]] 0 ex_st0). rewrite ex_step0_eq. cbn [bind].
  fold (ex_step [[1]] 1 ex_st1). rewrite H2. reflexivity.
Qed.

(** ** Shapes through the array operations *)

Lemma shape_transpose (r c : nat) (m : matrix) :
  shape r c m -> (1 <= r)%nat -> shape c r (transpose m).
Proof.
  intros Hm Hr. unfold transpose. rewrite (shape_ncols r c m Hm Hr). split.
  - now rewrite length_map, length_seq.
  - apply Forall_map, Forall_forall. intros j _. unfold col.
    rewrite length_map. apply Hm.
Qed.

Lemma diagonal_length (r : nat) (m : matrix) :
  shape r r m -> length (diagonal m) = r.
Proof.
  intros Hm. unfold diagonal. rewrite length_map, length_seq.
  destruct r as [|r].
  - destruct Hm as [-> _]. reflexivity.
  - rewrite (shape_ncols (S r) (S r) m Hm) by lia.
    destruct Hm as [-> _]. lia.
Qed.

Lemma vadd_length (u v : vec) :
  length u = length v -> length (vadd u v) = length u.
Proof.
  intros H. unfold vadd. rewrite map2_length. lia.
Qed.

Lemma vsub_length (u v : vec) :
  length u = length v -> length (vsub u v) = length u.
Proof.
  intros H. unfold vsub. rewrite map2_length. lia.
Qed.

Lemma shape_map_rows (r c : nat) (f : vec -> vec) (m : matrix) :
  shape r c m -> (forall row, length row = c -> length (f row) = c) ->
  shape r c (map f m).
Proof.
  intros [Hl Hr] Hf. split.
  - now rewrite length_map.
  - apply Forall_map. apply Forall_impl with (2 := Hr). exact Hf.
Qed.

Lemma shape_cons (r c : nat) (row : vec) (m : matrix) :
  length row = c -> shape r c m -> shape (S r) c (row :: m).
Proof.
  intros Hrow [Hl Hr]. split; [simpl; lia|now constructor].
Qed.

Lemma shape_In (r c : nat) (m : matrix) (row : vec) :
  shape r c m -> In row m -> length row = c.
Proof.
  intros [_ Hr] Hin. now apply (proj1 (Forall_forall _ _) Hr).
Qed.

Lemma shape_firstn (r c k : nat) (m : matrix) :
  shape r c m -> (k <= r)%nat -> shape k c (firstn k m).
Proof.
  intros [Hl Hr] Hk. split.
  - rewrite length_firstn. lia.
  - rewrite <- (firstn_skipn k m) in Hr. now apply Forall_app in Hr.
Qed.

Lemma shape_repeat (r c : nat) (row : vec) :
  length row = c -> shape r c (repeat row r).
Proof.
  intros H. split; [apply repeat_length|].
  apply Forall_forall. intros x Hx. apply repeat_spec in Hx. now subst.
Qed.

Lemma shape_app (r1 r2 c : nat) (a b : matrix) :
  shape r1 c a -> shape r2 c b -> shape (r1 + r2) c (a ++ b).
Proof.
  intros [Hla Hra] [Hlb Hrb]. split.
  - rewrite length_app. lia.
  - now apply Forall_app.
Qed.

Lemma shape_zeros2 (r c : nat) : shape r c (zeros2 r c).
Proof.
  unfold zeros2. apply shape_repeat. apply repeat_length.
Qed.

Lemma set_row_In {A : Type} (i : nat) (v : A) (a a' : list A) (x : A) :
  set_row i v a = Some a' -> In x a' -> x = v \/ In x a.
Proof.
  revert i a'. induction a as [|y a IH]; intros i a' H Hx.
  - destruct i; discriminate.
  - destruct i as [|i].
    + injection H as <-. destruct Hx as [<-|Hx]; [now left|right; now right].
    + cbn [set_row] in H. destruct (set_row i v a) as [r|] eqn:E;
        simpl in H; [|discriminate].
      injection H as <-. destruct Hx as [<-|Hx]; [right; now left|].
      destruct (IH _ _ E Hx); [now left|right; now right].
Qed.

Lemma set_row_Forall {A : Type} (P : A -> Prop) (i : nat) (v : A)
      (a a' : list A) :
  set_row i v a = Some a' -> P v -> Forall P a -> Forall P a'.
Proof.
  intros H Hv Ha. apply Forall_forall. intros x Hx.
  destruct (set_row_In _ _ _ _ _ H Hx) as [->|Hin]; [exact Hv|].
  now apply (proj1 (Forall_forall _ _) Ha).
Qed.

Lemma shape_set_row (r c i : nat) (v : vec) (m m' : matrix) :
  shape r c m -> length v = c -> set_row i v m = Some m' -> shape r c m'.
Proof.
  intros [Hl Hr] Hv H. split.
  - destruct (set_row_length _ _ _ _ H) as [-> _]. exact Hl.
  - eapply set_row_Forall; [exact H|exact Hv|exact Hr].
Qed.

Lemma shape_madd (r c : nat) (a b : matrix) :
  shape r c a -> shape r c b -> shape r c (madd a b).
Proof.
  intros [Hla Hra] [Hlb Hrb]. unfold madd. split.
  - rewrite map2_length. lia.
  - clear Hla Hlb. revert b Hrb.
    induction Hra as [|x a Hx _ IH]; intros [|y b] Hrb; simpl;
      try constructor.
    + apply Forall_inv in Hrb. rewrite vadd_length; congruence.
    + apply IH. now apply Forall_inv_tail in Hrb.
Qed.

Lemma shape_outer (d : nat) (b : vec) : length b = d -> shape d d (outer b).
Proof.
  intros H. unfold outer. split.
  - now rewrite length_map.
  - apply Forall_map, Forall_forall. intros x _. now rewrite length_map.
Qed.

Lemma take_idx_In {A : Type} (a : list A) (Is : list nat) (r : list A) :
  take_idx a Is = Ok r -> length r = length Is /\ Forall (fun x => In x a) r.
Proof.
  revert r. induction Is as [|i Is IH]; intros r H; simpl in H.
  - injection H as <-. split; [reflexivity|constructor].
  - destruct (nth_error a i) as [x|] eqn:E; simpl in H; [|discriminate].
    destruct (take_idx a Is) as [r'|] eqn:E'; simpl in H; [|discriminate].
    injection H as <-. destruct (IH r' eq_refl) as [Hl Hin].
    split; [simpl; congruence|]. constructor; [|exact Hin].
    eapply nth_error_In; eauto.
Qed.

Lemma quad_diag_length (r c : nat) (a b : matrix) :
  shape r c a -> shape c c b -> (1 <= r)%nat -> (1 <= c)%nat ->
  length (diagonal (matmul (matmul a b) (transpose a))) = r.
Proof.
  intros Ha Hb Hr Hc. apply diagonal_length.
  apply (shape_matmul r c r); [|now apply shape_transpose|exact Hc].
  now apply (shape_matmul r c c).
Qed.

Section ScoreShapes.

Variable norm_ppf : R -> R -> R -> R.
Variables (d : nat) (alpha : R) (N : nat) (StepSize : R).
Variables (X : matrix) (Obs : vec) (n_obs : nat).

Hypothesis d_pos : (1 <= d)%nat.

Lemma propose_shape (mean : vec) (Chol : matrix) (xI_ : vec) (U : matrix) :
  length mean = d -> shape d d Chol -> length xI_ = d ->
  shape N (d + 1) U ->
  shape (N + 1) d (propose norm_ppf d StepSize mean Chol xI_ U).
Proof.
  intros Hm HC Hx HU. unfold propose. rewrite Nat.add_1_r.
  apply shape_cons; [exact Hx|].
  apply shape_map_rows.
  - apply (shape_matmul N d d); [|exact HC|exact d_pos].
    destruct HU as [HUl HUr]. split; [now rewrite length_map|].
    apply Forall_map. apply Forall_impl with (2 := HUr). intros row Hrow.
    rewrite length_map, length_firstn. lia.
  - intros row Hrow. rewrite vadd_length; congruence.
Qed.

Lemma LogPriors_length (InvG Proposals : matrix) :
  shape d d InvG -> shape (N + 1) d Proposals ->
  length (LogPriors InvG Proposals) = (N + 1)%nat.
Proof.
  intros HG HP. unfold LogPriors, vscal. rewrite length_map.
  apply (quad_diag_length (N + 1) d); try assumption. lia.
Qed.

Lemma LogLikelihoods_length (Proposals : matrix) :
  (1 <= n_obs)%nat -> shape n_obs d X -> length Obs = n_obs ->
  shape (N + 1) d Proposals ->
  length (LogLikelihoods alpha X Obs Proposals) = (N + 1)%nat.
Proof.
  intros n_obs_pos X_shape Obs_length HP. unfold LogLikelihoods, vscal. rewrite length_map.
  apply diagonal_length.
  assert (Hfs : shape n_obs (N + 1) (matmul X (transpose Proposals))).
  { apply (shape_matmul n_obs d (N + 1)); [exact X_shape| |exact d_pos].
    apply shape_transpose; [exact HP|lia]. }
  assert (Hres : shape (N + 1) n_obs
            (map (vsub Obs) (transpose (matmul X (transpose Proposals))))).
  { apply shape_map_rows.
    - now apply shape_transpose.
    - intros row Hrow. rewrite vsub_length; congruence. }
  apply (shape_matmul (N + 1) n_obs (N + 1)); [exact Hres| |exact n_obs_pos].
  apply shape_transpose; [exact Hres|lia].
Qed.

Lemma LogK_ni_length (mean : vec) (Inv Proposals : matrix) :
  length mean = d -> shape d d Inv -> shape (N + 1) d Proposals ->
  length (LogK_ni StepSize mean Inv Proposals) = (N + 1)%nat.
Proof.
  intros Hm HI HP. unfold LogK_ni, vscal. rewrite length_map.
  apply (quad_diag_length (N + 1) d); try assumption; try lia.
  - apply shape_map_rows; [exact HP|].
    intros row Hrow. rewrite vsub_length; congruence.
  - apply shape_map_rows; [exact HI|].
    intros row Hrow. now rewrite length_map.
Qed.

Lemma LogPstates_length (InvG : matrix) (mean : vec) (Inv Proposals : matrix) :
  (1 <= n_obs)%nat -> shape n_obs d X -> length Obs = n_obs ->
  shape d d InvG -> length mean = d -> shape d d Inv ->
  shape (N + 1) d Proposals ->
  length (LogPstates alpha StepSize X Obs InvG mean Inv Proposals)
  = (N + 1)%nat.
Proof.
  intros n_obs_pos X_shape Obs_length HG Hm HI HP.
  unfold LogPstates, LogPosteriors.
  rewrite vadd_length; rewrite vadd_length;
    rewrite ?LogKs_length, ?LogPriors_length, ?LogLikelihoods_length,
            ?LogK_ni_length; auto.
Qed.

Lemma weighted_sum_length (Pstates : vec) (Proposals : matrix) :
  shape (N + 1) d Proposals ->
  length (weighted_sum d Pstates Proposals) = d.
Proof.
  intros HP. unfold weighted_sum.
  rewrite length_map, map2_length, repeat_length.
  destruct (shape_transpose _ _ _ HP ltac:(lia)) as [-> _]. lia.
Qed.

Lemma weighted_cov_shape (Pstates mean : vec) (Proposals wcov : matrix) :
  length mean = d -> shape (N + 1) d Proposals ->
  weighted_cov d N Pstates mean Proposals = Ok wcov -> shape d d wcov.
Proof.
  intros Hm HP H. unfold weighted_cov in H.
  destruct (Nat.eq_dec _ _) as [_|]; [|discriminate]. injection H as <-.
  assert (HA : Forall (shape d d)
                 (map outer (map (fun p => vsub p mean) Proposals))).
  { rewrite map_map. apply Forall_map.
    destruct HP as [_ HPr]. apply Forall_impl with (2 := HPr).
    intros row Hrow. apply shape_outer. rewrite vsub_length; congruence. }
  revert HA. generalize (map outer (map (fun p => vsub p mean) Proposals)).
  intros A. revert Pstates.
  induction A as [|a A IH]; intros [|p P] HA; simpl;
    try apply shape_zeros2.
  apply shape_madd.
  - apply shape_mscal. now apply Forall_inv in HA.
  - apply IH. now apply Forall_inv_tail in HA.
Qed.

Lemma mean_axis0_length (k : nat) (rows : matrix) (m : vec) :
  shape k d rows -> (1 <= k)%nat -> mean_axis0 rows = Ok m -> length m = d.
Proof.
  intros Hs Hk H. rewrite mean_axis0_ok in H.
  - injection H as <-. rewrite length_map.
    now destruct (shape_transpose _ _ _ Hs Hk) as [-> _].
  - intros ->. destruct Hs as [Hl _]. simpl in Hl. lia.
Qed.

Lemma mean_axis0_mat_shape (ms : list matrix) (C : matrix) :
  Forall (shape d d) ms -> mean_axis0_mat ms = Ok C -> shape d d C.
Proof.
  intros Hs H. destruct ms as [|m0 ms]; [discriminate|].
  apply Forall_inv in Hs. unfold mean_axis0_mat in H.
  assert (E : C = map (fun i => map (fun j =>
                     rsum (map (fun m => mget m i j) (m0 :: ms))
                     / INR (length (m0 :: ms))) (seq 0 (ncols m0)))
                 (seq 0 (length m0))) by congruence.
  rewrite E, (shape_ncols d d m0 Hs d_pos). destruct Hs as [-> _]. split.
  - now rewrite length_map, length_seq.
  - apply Forall_map, Forall_forall. intros i _.
    now rewrite length_map, length_seq.
Qed.

End ScoreShapes.

(** ** An iteration on well-shaped data *)

Lemma linalg_outcome (d : nat) (f : matrix -> result matrix) (a : matrix) :
  keeps_shape f -> raises_LinAlgError_only f -> shape d d a ->
  (exists b, f a = Ok b /\ shape d d b) \/ f a = Raise LinAlgError.
Proof.
  intros Hs Hr Ha. destruct (f a) as [b|e] eqn:E.
  - left. exists b. split; [reflexivity|]. now apply (Hs d a b).
  - right. now rewrite (Hr a e E).
Qed.

Lemma resample_length (d N : nat) (P : vec) (U : matrix) :
  shape N (d + 1) U -> length (resample d P U) = N.
Proof.
  intros [Hl Hr]. unfold resample. rewrite length_map.
  rewrite <- Hl. clear Hl. induction Hr as [|r U Hrow _ IH]; simpl.
  - reflexivity.
  - rewrite length_app, IH, length_skipn. lia.
Qed.

Section StepOutcome.

Variable np_linalg_inv : matrix -> result matrix.
Variable np_linalg_cholesky : matrix -> result matrix.
Variable norm_ppf : R -> R -> R -> R.
Variables (d : nat) (alpha : R) (N : nat) (StepSize : R) (WeightIn : nat).
Variables (X : matrix) (Obs : vec) (n_obs : nat) (xs : matrix).

Hypothesis inv_shape : keeps_shape np_linalg_inv.
Hypothesis chol_shape : keeps_shape np_linalg_cholesky.
Hypothesis inv_raises : raises_LinAlgError_only np_linalg_inv.
Hypothesis chol_raises : raises_LinAlgError_only np_linalg_cholesky.
Hypothesis d_pos : (1 <= d)%nat.
Hypothesis N_pos : (1 <= N)%nat.
Hypothesis n_obs_pos : (1 <= n_obs)%nat.
Hypothesis X_shape : shape n_obs d X.
Hypothesis Obs_length : length Obs = n_obs.

Local Abbreviation step_ :=
  (step np_linalg_inv np_linalg_cholesky norm_ppf d alpha N StepSize
        WeightIn X Obs xs).
Local Abbreviation M_ := (M N WeightIn).
Local Abbreviation Proposals_of st n :=
  (propose norm_ppf d StepSize (ApprPostMean (self st))
           (CholApprPostCov st) (loop_xI st) (block N xs n)).
Local Abbreviation LogPstates_of InvG st n :=
  (LogPstates alpha StepSize X Obs InvG (ApprPostMean (self st))
              (InvApprPostCov st) (Proposals_of st n)).

(** On a well-shaped state and a block of [N] rows in the unit cube, an
    iteration either returns a well-shaped state or fails inside
    [numpy.linalg]. *)
Lemma step_outcome (InvG : matrix) (L n : nat) (st : loop_state) :
  shape d d InvG ->
  well_shaped d L st ->
  (n + M_ < L)%nat ->
  unit_block d N (block N xs n) ->
  (exists st', step_ InvG n st = Ok st' /\ well_shaped d L st') \/
  step_ InvG n st = Raise LinAlgError.
Proof.
  intros HG [Hmean Hcov Hchol Hinv HxI Hsum Hclen Hcovs] HnL [HU Hunit].
  assert (HP : shape (N + 1) d (Proposals_of st n)).
  { now apply propose_shape. }
  assert (HL : length (LogPstates_of InvG st n) = (N + 1)%nat).
  { now apply (LogPstates_length d alpha N StepSize X Obs n_obs). }
  unfold step.
  destruct (normalise (LogPstates_of InvG st n)) as [P|e] eqn:EP.
  2:{ rewrite normalise_eq_naive in EP; [discriminate|].
      intros E. rewrite E in HL. simpl in HL. lia. }
  cbn [bind].
  destruct (normalise_facts _ _ EP) as (HlenP & _ & _).
  assert (HnWS : (n + M_ < length (WeightedSum (self st)))%nat).
  { destruct Hsum as [-> _]. exact HnL. }
  destruct (set_row_ok (n + M_) (weighted_sum d P (Proposals_of st n))
                       _ HnWS) as [WS' EWS].
  rewrite EWS. cbn [of_option bind].
  assert (HWS' : shape L d WS').
  { eapply shape_set_row; [exact Hsum| |exact EWS].
    now apply (weighted_sum_length d N d_pos). }
  assert (Hslots : shape (n + M_ + 1) d (firstn (n + M_ + 1) WS')).
  { apply (shape_firstn L); [exact HWS'|lia]. }
  destruct (mean_axis0 (firstn (n + M_ + 1) WS')) as [mean'|e] eqn:Emean.
  2:{ rewrite mean_axis0_ok in Emean; [discriminate|].
      intros E. rewrite E in Hslots. destruct Hslots as [Hl _].
      simpl in Hl. lia. }
  cbn [bind].
  assert (Hmean' : length mean' = d).
  { apply (mean_axis0_length d d_pos (n + M_ + 1) _ _ Hslots); [lia|].
    exact Emean. }
  destruct (weighted_cov d N P mean' (Proposals_of st n)) as [wcov|e] eqn:Ewc.
  2:{ unfold weighted_cov in Ewc. destruct HP as [HPl _]. rewrite HPl in Ewc.
      destruct (Nat.eq_dec _ _); [discriminate|contradiction]. }
  cbn [bind].
  pose proof (weighted_cov_shape d N P mean' _ wcov Hmean' HP Ewc) as Hwcov.
  assert (HnWC : (n + M_ < length (WeightedCov (self st)))%nat) by lia.
  destruct (set_row_ok (n + M_) wcov _ HnWC) as [WC' EWC].
  rewrite EWC. cbn [of_option bind].
  assert (HWC' : Forall (shape d d) WC').
  { eapply set_row_Forall; [exact EWC|exact Hwcov|exact Hcovs]. }
  assert (HWClen : length WC' = L).
  { destruct (set_row_length _ _ _ _ EWC) as [-> _]. exact Hclen. }
  destruct (linalg_outcome d np_linalg_inv _ inv_shape inv_raises Hcov)
    as [(Inv0 & EInv0 & HInv0)| ->]; [|now right].
  rewrite EInv0. cbn [bind].
  assert (Href :
    (exists C Chol Inv,
       (if cov_guard d N n
        then C <- mean_axis0_mat (firstn (n + M_ + 1) WC');;
             Chol <- np_linalg_cholesky C;;
             Inv <- np_linalg_inv C;; Ok (C, Chol, Inv)
        else Ok (ApprPostCov (self st), CholApprPostCov st, Inv0))
       = Ok (C, Chol, Inv) /\
       shape d d C /\ shape d d Chol /\ shape d d Inv) \/
    (if cov_guard d N n
     then C <- mean_axis0_mat (firstn (n + M_ + 1) WC');;
          Chol <- np_linalg_cholesky C;;
          Inv <- np_linalg_inv C;; Ok (C, Chol, Inv)
     else Ok (ApprPostCov (self st), CholApprPostCov st, Inv0))
    = Raise LinAlgError).
  { destruct (cov_guard d N n).
    - destruct (mean_axis0_mat (firstn (n + M_ + 1) WC')) as [C|e] eqn:EC.
      2:{ destruct (firstn (n + M_ + 1) WC') as [|m0 ms] eqn:Ef;
            [|discriminate].
          apply (f_equal (@length _)) in Ef. rewrite length_firstn in Ef.
          simpl in Ef. lia. }
      cbn [bind].
      assert (HC : shape d d C).
      { eapply (mean_axis0_mat_shape d d_pos); [|exact EC].
        rewrite <- (firstn_skipn (n + M_ + 1) WC') in HWC'.
        now apply Forall_app in HWC'. }
      destruct (linalg_outcome d np_linalg_cholesky _ chol_shape chol_raises
                               HC)
        as [(Chol & -> & HChol)| ->]; [|now right].
      cbn [bind].
      destruct (linalg_outcome d np_linalg_inv _ inv_shape inv_raises HC)
        as [(Inv & -> & HInv)| ->]; [|now right].
      cbn [bind]. left. exists C, Chol, Inv. auto.
    - left. exists (ApprPostCov (self st)), (CholApprPostCov st), Inv0. auto. }
  destruct Href as [(C & Chol & Inv & -> & HC & HChol & HInv)| ->];
    [|now right].
  cbn [bind].
  assert (Hunit' : Forall (fun r => Forall (fun u => 0 <= u <= 1) r)
                          (block N xs n)) by exact Hunit.
  pose proof (resample_in_range d _ P _ EP Hunit') as Hrange.
  rewrite HL in Hrange.
  destruct (take_idx_ok (Proposals_of st n) (resample d P (block N xs n)))
    as [xv Exv].
  { apply Forall_impl with (2 := Hrange). intros i Hi.
    destruct HP as [-> _]. exact Hi. }
  rewrite Exv. cbn [bind].
  destruct (take_idx_ok P (resample d P (block N xs n))) as [av ->].
  { apply Forall_impl with (2 := Hrange). intros i Hi. lia. }
  cbn [bind].
  destruct (last_idx (resample d P (block N xs n))) as [i|e] eqn:Ei.
  2:{ pose proof (resample_length d N P _ HU) as Hlen.
      destruct (resample d P (block N xs n)); [simpl in Hlen; lia|].
      discriminate. }
  cbn [bind].
  assert (Hin : In i (resample d P (block N xs n)))
    by (eapply last_idx_In; exact Ei).
  pose proof (proj1 (Forall_forall _ _) Hrange i Hin) as Hi.
  cbv beta in Hi.
  destruct (nth_error (Proposals_of st n) i) as [x|] eqn:Ex.
  2:{ apply nth_error_None in Ex. destruct HP as [HPl _]. lia. }
  cbn [of_option bind]. left. eexists. split; [reflexivity|].
  constructor; cbn [self ApprPostMean ApprPostCov CholApprPostCov
                    InvApprPostCov loop_xI WeightedSum WeightedCov];
    try assumption.
  apply (shape_In _ _ _ _ HP). eapply nth_error_In; eauto.
Qed.

End StepOutcome.

(** ** The constructor on well-shaped data *)

Lemma Forall_firstn {A : Type} (P : A -> Prop) (k : nat) (l : list A) :
  Forall P l -> Forall P (firstn k l).
Proof.
  intros H. rewrite <- (firstn_skipn k l) in H.
  now apply Forall_app in H.
Qed.

Lemma block_unit (d N p K n : nat) (xs : matrix) :
  shape (2 ^ p - 1) (d + 1) xs ->
  Forall (fun r => Forall (fun u => 0 <= u <= 1) r) xs ->
  NumOfIter d N p = Ok K -> (n < K)%nat ->
  unit_block d N (block N xs n).
Proof.
  intros [Hl Hr] Hu HK Hn.
  pose proof (NumOfIter_rows _ _ _ _ HK) as Hrows.
  assert (Hb : ((n + 1) * N <= K * N)%nat) by (apply Nat.mul_le_mono_r; lia).
  split; [split|].
  - apply block_length. lia.
  - unfold block. now apply Forall_firstn, Forall_skipn.
  - unfold block. now apply Forall_firstn, Forall_skipn.
Qed.

Section ConstructorOutcome.

Variable np_linalg_inv : matrix -> result matrix.
Variable np_linalg_cholesky : matrix -> result matrix.
Variable norm_ppf : R -> R -> R -> R.
Variables (d : nat) (alpha : R) (x0 : vec) (N : nat) (StepSize : R)
          (PowerOfTwo : nat) (InitMean : vec) (InitCov : matrix)
          (WeightIn : nat).
Variables (X : matrix) (Obs : vec) (NumOfSamples : nat) (xs : matrix).

Hypothesis inv_shape : keeps_shape np_linalg_inv.
Hypothesis chol_shape : keeps_shape np_linalg_cholesky.
Hypothesis inv_raises : raises_LinAlgError_only np_linalg_inv.
Hypothesis chol_raises : raises_LinAlgError_only np_linalg_cholesky.
Hypothesis d_pos : (1 <= d)%nat.
Hypothesis N_pos : (1 <= N)%nat.
Hypothesis alpha_nonzero : alpha <> 0.
Hypothesis n_obs_pos : (1 <= NumOfSamples)%nat.
Hypothesis X_shape : shape NumOfSamples d X.
Hypothesis Obs_length : length Obs = NumOfSamples.
Hypothesis x0_length : length x0 = d.
Hypothesis InitMean_length : length InitMean = d.
Hypothesis InitCov_shape : shape d d InitCov.
Hypothesis xs_shape : shape (2 ^ PowerOfTwo - 1) (d + 1) xs.
Hypothesis xs_unit : Forall (fun r => Forall (fun u => 0 <= u <= 1) r) xs.

Local Abbreviation step_ :=
  (step np_linalg_inv np_linalg_cholesky norm_ppf d alpha N StepSize
        WeightIn X Obs xs).
Local Abbreviation iterate_ :=
  (iterate np_linalg_inv np_linalg_cholesky norm_ppf d alpha N StepSize
           WeightIn X Obs xs).
Local Abbreviation M_ := (M N WeightIn).
Local Abbreviation init_ :=
  (init np_linalg_inv np_linalg_cholesky d x0 N InitMean InitCov WeightIn).

Lemma InvG_prior_outcome :
  (exists InvG, InvG_prior np_linalg_inv alpha X NumOfSamples = Ok InvG /\
                shape d d InvG) \/
  InvG_prior np_linalg_inv alpha X NumOfSamples = Raise LinAlgError.
Proof.
  unfold InvG_prior, G_prior, g, sigmaSq.
  destruct (Nat.eq_dec NumOfSamples 0) as [E|_]; [lia|].
  destruct (Req_EM_T alpha 0) as [E|_]; [contradiction|].
  cbn [bind].
  assert (HXtX : shape d d (matmul (transpose X) X)).
  { apply (shape_matmul d NumOfSamples d); [|exact X_shape|exact n_obs_pos].
    now apply shape_transpose. }
  destruct (linalg_outcome d np_linalg_inv _ inv_shape inv_raises HXtX)
    as [(B & -> & HB)| ->]; [|now right].
  cbn [bind].
  apply (linalg_outcome d np_linalg_inv _ inv_shape inv_raises).
  now apply shape_mscal.
Qed.

Lemma init_outcome (K : nat) :
  (exists st0, init_ K = Ok st0 /\ well_shaped d (K + M_) st0) \/
  init_ K = Raise LinAlgError.
Proof.
  unfold init. cbn [init_engine ApprPostCov].
  destruct (linalg_outcome d np_linalg_cholesky _ chol_shape chol_raises
                           InitCov_shape) as [(Chol & -> & HChol)| ->];
    [|now right].
  cbn [bind].
  destruct (linalg_outcome d np_linalg_inv _ inv_shape inv_raises
                           InitCov_shape) as [(Inv & -> & HInv)| ->];
    [|now right].
  cbn [bind]. left. eexists. split; [reflexivity|].
  constructor; cbn; try assumption.
  - rewrite (Nat.add_comm K). apply shape_app.
    + now apply shape_repeat.
    + apply shape_repeat. apply repeat_length.
  - rewrite length_app, !repeat_length. lia.
  - apply Forall_app. split.
    + apply Forall_forall. intros m Hm. apply repeat_spec in Hm. now subst.
    + apply Forall_forall. intros m Hm. apply repeat_spec in Hm. subst.
      apply shape_zeros2.
Qed.

Lemma iterate_outcome (InvG : matrix) (K k n0 : nat) (st : loop_state) :
  NumOfIter d N PowerOfTwo = Ok K ->
  shape d d InvG -> well_shaped d (K + M_) st -> (n0 + k <= K)%nat ->
  (exists st', iterate_ InvG n0 k st = Ok st' /\ well_shaped d (K + M_) st') \/
  iterate_ InvG n0 k st = Raise LinAlgError.
Proof.
  intros HK HG. revert n0 st. induction k as [|k IH]; intros n0 st Hst Hn.
  - left. exists st. split; [reflexivity|exact Hst].
  - cbn [iterate].
    assert (Hslot : (n0 + M_ < K + M_)%nat) by lia.
    assert (Hblock : unit_block d N (block N xs n0)).
    { apply (block_unit d N PowerOfTwo K); try assumption. lia. }
    destruct (step_outcome np_linalg_inv np_linalg_cholesky norm_ppf d alpha
                N StepSize WeightIn X Obs NumOfSamples xs inv_shape chol_shape
                inv_raises chol_raises d_pos N_pos n_obs_pos X_shape
                Obs_length InvG (K + M_) n0 st HG Hst Hslot Hblock)
      as [(st1 & -> & Hst1)| ->].
    + cbn [bind]. apply IH; [exact Hst1|lia].
    + now right.
Qed.

(** On such arguments the constructor either returns the object, with
    accumulators of [NumOfIter + M] slots, or fails inside [numpy.linalg]. *)
Lemma BayesianLinReg_outcome :
  (exists e K,
      BayesianLinReg np_linalg_inv np_linalg_cholesky norm_ppf d alpha x0 N
                     StepSize PowerOfTwo InitMean InitCov WeightIn X Obs
                     NumOfSamples xs = Ok e /\
      NumOfIter d N PowerOfTwo = Ok K /\
      shape (K + M_) d (WeightedSum e) /\
      length (WeightedCov e) = (K + M_)%nat /\
      Forall (shape d d) (WeightedCov e) /\
      length (ApprPostMean e) = d /\
      shape d d (ApprPostCov e)) \/
  BayesianLinReg np_linalg_inv np_linalg_cholesky norm_ppf d alpha x0 N
                 StepSize PowerOfTwo InitMean InitCov WeightIn X Obs
                 NumOfSamples xs = Raise LinAlgError.
Proof.
  unfold BayesianLinReg.
  destruct InvG_prior_outcome as [(InvG & -> & HG)| ->]; [|now right].
  cbn [bind]. pose proof (NumOfIter_ok d N PowerOfTwo N_pos) as HK.
  rewrite HK. cbn [bind].
  set (K := ((2 ^ PowerOfTwo - 1) / (d + 1) * (d + 1) / N)%nat) in *.
  destruct (init_outcome K) as [(st0 & -> & Hst0)| ->]; [|now right].
  cbn [bind].
  destruct (iterate_outcome InvG K K 0 st0 HK HG Hst0 (le_n K))
    as [(st & -> & [Hmean Hcov _ _ _ Hsum Hclen Hcovs])| ->]; [|now right].
  cbn [bind]. left. exists (self st), K.
  refine (conj eq_refl (conj _ (conj Hsum (conj Hclen (conj Hcovs
            (conj Hmean Hcov)))))).
  first [exact HK|reflexivity].
Qed.

End ConstructorOutcome.

Lemma inv_1x1_keeps_shape : keeps_shape inv_1x1.
Proof.
  intros d a b Ha H. unfold inv_1x1 in H.
  destruct a as [|[|x [|y r]] [|r' a]]; try discriminate.
  destruct (Req_EM_T x 0); [discriminate|]. injection H as <-.
  destruct Ha as [Hl _]. simpl in Hl. subst d. repeat constructor.
Qed.

Lemma cholesky_1x1_keeps_shape : keeps_shape cholesky_1x1.
Proof.
  intros d a b Ha H. unfold cholesky_1x1 in H.
  destruct a as [|[|x [|y r]] [|r' a]]; try discriminate.
  destruct (Rlt_dec 0 x); [|discriminate]. injection H as <-.
  destruct Ha as [Hl _]. simpl in Hl. subst d. repeat constructor.
Qed.

Lemma inv_1x1_raises : raises_LinAlgError_only inv_1x1.
Proof.
  intros a e H. unfold inv_1x1 in H.
  destruct a as [|[|x [|y r]] [|r' a]]; try congruence.
  destruct (Req_EM_T x 0); congruence.
Qed.

Lemma cholesky_1x1_raises : raises_LinAlgError_only cholesky_1x1.
Proof.
  intros a e H. unfold cholesky_1x1 in H.
  destruct a as [|[|x [|y r]] [|r' a]]; try congruence.
  destruct (Rlt_dec 0 x); congruence.
Qed.

Lemma ex_xs_shape : shape (2 ^ 2 - 1) (1 + 1) ex_xs.
Proof. split; [reflexivity|repeat constructor]. Qed.

Lemma ex_xs_unit : Forall (fun r => Forall (fun u => 0 <= u <= 1) r) ex_xs.
Proof. unfold ex_xs. repeat constructor; lra. Qed.

Lemma ex_X_shape : shape 2 1 ex_X.
Proof. split; [reflexivity|repeat constructor]. Qed.

Lemma ex_InitCov_shape : shape 1 1 [[1]].
Proof. split; [reflexivity|repeat constructor]. Qed.



(** ** Induction over the iterations of a run *)

Section RunInduction.

Variable np_linalg_inv : matrix -> result matrix.
Variable np_linalg_cholesky : matrix -> result matrix.
Variable norm_ppf : R -> R -> R -> R.
Variables (d : nat) (alpha : R) (x0 : vec) (N : nat) (StepSize : R)
          (PowerOfTwo : nat) (InitMean : vec) (InitCov : matrix)
          (WeightIn : nat).
Variables (X : matrix) (Obs : vec) (NumOfSamples : nat) (xs : matrix).

Local Abbreviation step_ :=
  (step np_linalg_inv np_linalg_cholesky norm_ppf d alpha N StepSize
        WeightIn X Obs xs).
Local Abbreviation iterate_ :=
  (iterate np_linalg_inv np_linalg_cholesky norm_ppf d alpha N StepSize
           WeightIn X Obs xs).
Local Abbreviation init_ :=
  (init np_linalg_inv np_linalg_cholesky d x0 N InitMean InitCov WeightIn).
Local Abbreviation run_upto_ :=
  (run_upto np_linalg_inv np_linalg_cholesky norm_ppf d alpha x0 N StepSize
            PowerOfTwo InitMean InitCov WeightIn X Obs NumOfSamples xs).
Local Abbreviation BayesianLinReg_ :=
  (BayesianLinReg np_linalg_inv np_linalg_cholesky norm_ppf d alpha x0 N
                  StepSize PowerOfTwo InitMean InitCov WeightIn X Obs
                  NumOfSamples xs).

Lemma iterate_ind (P : nat -> loop_state -> Prop) (InvG : matrix) :
  (forall n st st', P n st -> step_ InvG n st = Ok st' -> P (S n) st') ->
  forall k n0 st st',
    P n0 st -> iterate_ InvG n0 k st = Ok st' -> P (n0 + k)%nat st'.
Proof.
  intros Hstep. induction k as [|k IH]; intros n0 st st' HP H; simpl in H.
  - injection H as <-. now rewrite Nat.add_0_r.
  - destruct (step_ InvG n0 st) as [st1|e] eqn:E; simpl in H; [|discriminate].
    rewrite <- Nat.add_succ_comm. apply (IH (S n0) st1); [|exact H].
    now apply (Hstep n0 st).
Qed.

(** A property that holds when the loop is entered and that every iteration
    carries from index [n] to index [n+1] holds, with index [k], after [k]
    iterations. *)
Lemma run_upto_ind (P : nat -> loop_state -> Prop) :
  (forall K st0, NumOfIter d N PowerOfTwo = Ok K -> init_ K = Ok st0 ->
                 P O st0) ->
  (forall InvG n st st', P n st -> step_ InvG n st = Ok st' -> P (S n) st') ->
  forall k st, run_upto_ k = Ok st -> P k st.
Proof.
  intros Hinit Hstep k st H. unfold run_upto in H.
  bind_inv H as InvG EG. bind_inv H as K EK. bind_inv H as st0 E0.
  apply (iterate_ind P InvG (Hstep InvG) k 0 st0 st); [|exact H].
  now apply (Hinit K).
Qed.

Lemma BayesianLinReg_run (e : engine) :
  BayesianLinReg_ = Ok e ->
  exists K st, NumOfIter d N PowerOfTwo = Ok K /\
               run_upto_ K = Ok st /\ e = self st.
Proof.
  intros H.
  destruct (BayesianLinReg_inv _ _ _ _ _ _ _ _ _ _ _ _ _ _ _ _ e H)
    as (K & st & HK & Hr & He & _).
  eauto.
Qed.

End RunInduction.

(** ** More on the weights and the cumulative sums *)

Lemma naive_normalise_nth (L : vec) (i : nat) :
  (i < length L)%nat ->
  nth i (naive_normalise L) 0 = exp (nth i L 0) / rsum (map exp L).
Proof.
  intros Hi. unfold naive_normalise.
  now rewrite (nth_map_in (fun l => exp l / rsum (map exp L)) L 0 0 i Hi).
Qed.

Lemma rsum_nonneg (l : vec) : Forall (fun p => 0 <= p) l -> 0 <= rsum l.
Proof.
  induction 1 as [|x l Hx _ IH]; simpl; lra.
Qed.

Lemma rsum_ge_member (l : vec) :
  Forall (fun p => 0 <= p) l -> Forall (fun p => p <= rsum l) l.
Proof.
  induction 1 as [|x l Hx Hl IH]; simpl; constructor.
  - pose proof (rsum_nonneg l Hl). fold (rsum l). lra.
  - apply Forall_impl with (2 := IH). intros p Hp. fold (rsum l). lra.
Qed.

Lemma normalise_unit (L P : vec) :
  normalise L = Ok P -> Forall (fun p => 0 <= p <= 1) P.
Proof.
  intros H. destruct (normalise_facts L P H) as (_ & Hpos & Hsum).
  pose proof (rsum_ge_member P Hpos) as Hle. rewrite Hsum in Hle.
  apply Forall_forall. intros p Hp. split.
  - now apply (proj1 (Forall_forall _ _) Hpos).
  - now apply (proj1 (Forall_forall _ _) Hle).
Qed.

Lemma cumsum_from_nth (acc : R) (l : vec) (j : nat) :
  (j < length l)%nat ->
  nth j (cumsum_from acc l) 0 = acc + rsum (firstn (S j) l).
Proof.
  revert acc j. induction l as [|x l IH]; intros acc j Hj; simpl in Hj.
  - lia.
  - destruct j as [|j].
    + simpl. lra.
    + change (nth (S j) (cumsum_from acc (x :: l)) 0)
        with (nth j (cumsum_from (acc + x) l) 0).
      rewrite IH by lia.
      change (rsum (firstn (S (S j)) (x :: l)))
        with (x + rsum (firstn (S j) l)).
      lra.
Qed.

Lemma searchsorted_all_below (a : vec) (v : R) :
  Forall (fun x => x < v) a -> searchsorted a v = length a.
Proof.
  induction 1 as [|x a Hx _ IH]; [reflexivity|]. simpl.
  destruct (Rle_dec v x) as [Hle|_]; [lra|]. now rewrite IH.
Qed.

Lemma cumsum_from_le_total (acc : R) (l : vec) :
  Forall (fun p => 0 <= p) l ->
  Forall (fun x => x <= acc + rsum l) (cumsum_from acc l).
Proof.
  intros Hl. revert acc. induction Hl as [|p l Hp Hl IH]; intros acc.
  - constructor.
  - cbn [cumsum_from]. change (rsum (p :: l)) with (p + rsum l).
    pose proof (rsum_nonneg l Hl) as Hs. constructor; [lra|].
    apply Forall_impl with (2 := IH (acc + p)). intros x Hx. lra.
Qed.

(** ** Facts about slices, batches and counts *)

Lemma slice_from_nonneg {A : Type} (k : Z) (a : list A) :
  (0 <= k)%Z -> slice_from k a = skipn (Z.to_nat k) a.
Proof.
  intros Hk. unfold slice_from.
  destruct (k <? 0)%Z eqn:E; [apply Z.ltb_lt in E; lia|].
  destruct (Z.le_gt_cases k (Z.of_nat (length a))) as [Hle|Hgt].
  - now rewrite Z.min_l.
  - rewrite Z.min_r by lia. rewrite Nat2Z.id.
    rewrite skipn_all. symmetry. apply skipn_all2. lia.
Qed.

Lemma slice_from_length {A : Type} (k : Z) (a : list A) :
  (0 <= k)%Z -> length (slice_from k a) = (length a - Z.to_nat k)%nat.
Proof.
  intros Hk. rewrite slice_from_nonneg by exact Hk. apply length_skipn.
Qed.

Lemma slice_from_past {A : Type} (k : Z) (a : list A) :
  (Z.of_nat (length a) <= k)%Z -> slice_from k a = [].
Proof.
  intros Hk. rewrite slice_from_nonneg by lia. apply skipn_all2. lia.
Qed.

Lemma slice_from_inside {A : Type} (k : Z) (a : list A) :
  (1 <= length a)%nat -> (k < Z.of_nat (length a))%Z -> slice_from k a <> [].
Proof.
  intros Ha Hk E. apply (f_equal (@length A)) in E. revert E.
  unfold slice_from. rewrite length_skipn. change (length (@nil A)) with O.
  destruct (k <? 0)%Z eqn:Ek.
  - apply Z.ltb_lt in Ek. lia.
  - apply Z.ltb_ge in Ek. lia.
Qed.

Lemma slice_from_0 {A : Type} (a : list A) : slice_from 0 a = a.
Proof.
  now rewrite slice_from_nonneg by lia.
Qed.

Lemma slice_from_sub {A : Type} (P : A -> Prop) (k : Z) (a : list A) :
  Forall P a -> Forall P (slice_from k a).
Proof.
  intros H. unfold slice_from. now apply Forall_skipn.
Qed.

Lemma rsum_unit (v : vec) :
  Forall (fun a => 0 <= a <= 1) v -> 0 <= rsum v <= INR (length v).
Proof.
  induction 1 as [|a v Ha _ IH].
  - simpl. lra.
  - change (rsum (a :: v)) with (a + rsum v).
    change (length (a :: v)) with (S (length v)). rewrite S_INR. lra.
Qed.

Lemma mean1_unit (v : vec) (r : R) :
  Forall (fun a => 0 <= a <= 1) v -> mean1 v = Ok r -> 0 <= r <= 1.
Proof.
  intros Hv H. pose proof (rsum_unit v Hv) as Hs.
  assert (Hr : r = rsum v / INR (length v) /\ (1 <= length v)%nat).
  { destruct v as [|a v]; [discriminate|]. unfold mean1 in H.
    split; [congruence|simpl; lia]. }
  destruct Hr as [-> Hlen].
  assert (Hn : 0 < INR (length v)) by (apply lt_0_INR; lia).
  split.
  - apply Rmult_le_reg_r with (r := INR (length v)); [exact Hn|].
    unfold Rdiv. rewrite Rmult_assoc, Rinv_l by lra. lra.
  - apply Rmult_le_reg_r with (r := INR (length v)); [exact Hn|].
    unfold Rdiv. rewrite Rmult_assoc, Rinv_l by lra. lra.
Qed.

Lemma concat_rows_snoc (l : list ndarray) (m r : matrix) :
  concat_rows l = Ok r -> concat_rows (l ++ [Arr2 m]) = Ok (r ++ m).
Proof.
  revert r. induction l as [|a l IH]; intros r H; simpl in H.
  - injection H as <-. simpl. now rewrite app_nil_r.
  - destruct a as [v|m0]; [discriminate|].
    destruct (concat_rows l) as [r0|] eqn:E; simpl in H; [|discriminate].
    injection H as <-. simpl. rewrite (IH r0 eq_refl). simpl.
    now rewrite app_assoc.
Qed.

Lemma last_cons_dflt {A : Type} (x dflt : A) (l : list A) :
  last (x :: l) dflt = last l x.
Proof.
  revert x dflt. induction l as [|y l IH]; intros x dflt; [reflexivity|].
  change (last (x :: y :: l) dflt) with (last (y :: l) dflt).
  now rewrite (IH y dflt), (IH y x).
Qed.

Lemma take_idx_last {A : Type} (a : list A) (Is : list nat) (r : list A)
      (i : nat) (x dflt : A) :
  take_idx a Is = Ok r -> last_idx Is = Ok i -> nth_error a i = Some x ->
  r <> [] /\ last r dflt = x.
Proof.
  destruct Is as [|i0 Is]; [discriminate|].
  unfold last_idx. intros H [= <-]. revert i0 r H.
  induction Is as [|i1 Is IH]; intros i0 r H Hx.
  - simpl in H, Hx. rewrite Hx in H. simpl in H. injection H as <-.
    split; [discriminate|reflexivity].
  - change (take_idx a (i0 :: i1 :: Is))
      with (y <- of_option IndexError (nth_error a i0) ;;
            r' <- take_idx a (i1 :: Is) ;; Ok (y :: r')) in H.
    bind_inv H as y Ey. bind_inv H as r' Er. injection H as <-.
    rewrite last_cons_dflt in Hx.
    destruct (IH i1 r' Er Hx) as [Hne Hl].
    split; [discriminate|].
    destruct r' as [|z r']; [congruence|exact Hl].
Qed.

Lemma mean_axis0_repeat (v : vec) (m : nat) :
  (1 <= m)%nat -> mean_axis0 (repeat v m) = Ok v.
Proof.
  intros Hm. destruct m as [|m]; [lia|].
  change (repeat v (S m)) with (v :: repeat v m). unfold mean_axis0.
  change (v :: repeat v m) with (repeat v (S m)). f_equal.
  unfold transpose. change (ncols (repeat v (S m))) with (length v).
  rewrite map_map. rewrite repeat_length.
  assert (Hn : INR (S m) <> 0) by (apply not_0_INR; lia).
  assert (Hcol : forall j, rsum (col j (repeat v (S m))) / INR (S m)
                           = nth j v 0).
  { intros j. unfold col.
    assert (E : forall k, rsum (map (fun r : vec => nth j r 0) (repeat v k))
                          = INR k * nth j v 0).
    { induction k as [|k IHk].
      - simpl. lra.
      - change (repeat v (S k)) with (v :: repeat v k).
        cbn [map]. change (rsum (?a :: ?l)) with (a + rsum l).
        rewrite IHk, S_INR. lra. }
    rewrite E. field. exact Hn. }
  rewrite (map_ext _ (fun j => nth j v 0) Hcol).
  clear. induction v as [|a v IH]; [reflexivity|].
  simpl. f_equal. rewrite <- seq_shift, map_map. exact IH.
Qed.

Lemma set_row_nth_error {A : Type} (i : nat) (v : A) (a a' : list A) :
  set_row i v a = Some a' ->
  nth_error a' i = Some v /\
  forall j, j <> i -> nth_error a' j = nth_error a j.
Proof.
  revert i a'. induction a as [|x a IH]; intros i a' H;
    [destruct i; discriminate|].
  destruct i as [|i]; cbn [set_row] in H.
  - injection H as <-. split; [reflexivity|].
    intros [|j] Hj; [congruence|reflexivity].
  - destruct (set_row i v a) as [a0|] eqn:E; [|discriminate].
    simpl in H. injection H as <-. destruct (IH i a0 E) as [H1 H2].
    split; [exact H1|].
    intros [|j] Hj; [reflexivity|]. simpl. apply H2. congruence.
Qed.

Lemma nth_error_repeat_app {A : Type} (x y : A) (m k j : nat) :
  ((j < m)%nat -> nth_error (repeat x m ++ repeat y k) j = Some x) /\
  ((m <= j < m + k)%nat -> nth_error (repeat x m ++ repeat y k) j = Some y).
Proof.
  split; intros Hj.
  - rewrite nth_error_app1 by (rewrite repeat_length; lia).
    now apply nth_error_repeat.
  - rewrite nth_error_app2 by (rewrite repeat_length; lia).
    rewrite repeat_length. apply nth_error_repeat. lia.
Qed.

(** ** Facts about every state of a run *)

Section RunFacts.

Variable np_linalg_inv : matrix -> result matrix.
Variable np_linalg_cholesky : matrix -> result matrix.
Variable norm_ppf : R -> R -> R -> R.
Variables (d : nat) (alpha : R) (x0 : vec) (N : nat) (StepSize : R)
          (PowerOfTwo : nat) (InitMean : vec) (InitCov : matrix)
          (WeightIn : nat).
Variables (X : matrix) (Obs : vec) (NumOfSamples : nat) (xs : matrix).

Local Abbreviation step_ :=
  (step np_linalg_inv np_linalg_cholesky norm_ppf d alpha N StepSize
        WeightIn X Obs xs).
Local Abbreviation M_ := (M N WeightIn).
Local Abbreviation init_ :=
  (init np_linalg_inv np_linalg_cholesky d x0 N InitMean InitCov WeightIn).
Local Abbreviation run_upto_ :=
  (run_upto np_linalg_inv np_linalg_cholesky norm_ppf d alpha x0 N StepSize
            PowerOfTwo InitMean InitCov WeightIn X Obs NumOfSamples xs).
Local Abbreviation BayesianLinReg_ :=
  (BayesianLinReg np_linalg_inv np_linalg_cholesky norm_ppf d alpha x0 N
                  StepSize PowerOfTwo InitMean InitCov WeightIn X Obs
                  NumOfSamples xs).
Local Abbreviation run_upto_ind_ :=
  (run_upto_ind np_linalg_inv np_linalg_cholesky norm_ppf d alpha x0 N
                StepSize PowerOfTwo InitMean InitCov WeightIn X Obs
                NumOfSamples xs).
Local Abbreviation step_inv_ :=
  (step_inv np_linalg_inv np_linalg_cholesky norm_ppf d alpha N StepSize
            WeightIn X Obs xs).

Lemma init_engine_of (K : nat) (st0 : loop_state) :
  init_ K = Ok st0 ->
  self st0 = init_engine d x0 N InitMean InitCov WeightIn K /\ loop_xI st0 = x0.
Proof.
  unfold init. intros H. bind_inv H as Chol EC. bind_inv H as Inv EI.
  injection H as <-. split; reflexivity.
Qed.

(** The acceptance values are probabilities. *)
Lemma run_accept_unit (k : nat) (st : loop_state) :
  run_upto_ k = Ok st ->
  Forall (Forall (fun a => 0 <= a <= 1)) (AcceptVals (self st)).
Proof.
  apply (run_upto_ind_
           (fun _ st => Forall (Forall (fun a => 0 <= a <= 1))
                               (AcceptVals (self st)))).
  - intros K st0 _ H0. destruct (init_engine_of K st0 H0) as [-> _].
    constructor.
  - intros InvG n s s' IH Hs.
    destruct (step_inv_ InvG n s s' Hs)
      as (P & wcov & Inv0 & xv & av & HP & _ & _ & _ & _ & _ & _ & _ & Hav
          & _ & _ & _ & HA & _).
    rewrite HA. apply Forall_app. split; [exact IH|].
    constructor; [|constructor].
    pose proof (normalise_unit _ _ HP) as HU.
    destruct (take_idx_In _ _ _ Hav) as [_ Hin].
    apply Forall_forall. intros a Ha. apply in_map_iff in Ha.
    destruct Ha as (p & <- & Hp).
    apply (proj1 (Forall_forall _ _) Hin) in Hp.
    apply (proj1 (Forall_forall _ _) HU) in Hp. lra.
Qed.

(** The accumulators keep the length they were created with. *)
Lemma run_acc_lengths (K k : nat) (st : loop_state) :
  NumOfIter d N PowerOfTwo = Ok K -> run_upto_ k = Ok st ->
  (k <= K)%nat /\
  length (WeightedSum (self st)) = (K + M_)%nat /\
  length (WeightedCov (self st)) = (K + M_)%nat.
Proof.
  intros HK.
  apply (run_upto_ind_
           (fun k st => (k <= K)%nat /\
                        length (WeightedSum (self st)) = (K + M_)%nat /\
                        length (WeightedCov (self st)) = (K + M_)%nat)).
  - intros K0 st0 HK0 H0. assert (K0 = K) by congruence. subst K0.
    destruct (init_engine_of K st0 H0) as [-> _]. simpl.
    rewrite !length_app, !repeat_length. lia.
  - intros InvG n s s' (Hn & HS & HC) Hs.
    destruct (step_inv_ InvG n s s' Hs)
      as (P & wcov & Inv0 & xv & av & _ & HWS & _ & _ & HWC & _).
    apply set_row_length in HWS, HWC. lia.
Qed.

(** One batch of [N] samples and of [N] acceptance values per iteration. *)
Lemma run_counts (K k : nat) (st : loop_state) :
  NumOfIter d N PowerOfTwo = Ok K ->
  shape (2 ^ PowerOfTwo - 1) (d + 1) xs ->
  run_upto_ k = Ok st ->
  length (xVals (self st)) = S k /\
  length (AcceptVals (self st)) = k /\
  (exists all, concat_rows (tl (xVals (self st))) = Ok all /\
               length all = (k * N)%nat) /\
  length (concat (AcceptVals (self st))) = (k * N)%nat.
Proof.
  intros HK [Hxl Hxr] Hrun.
  pose proof (NumOfIter_rows _ _ _ _ HK) as Hrows.
  assert (H : length (WeightedSum (self st)) = (K + M_)%nat /\
              length (xVals (self st)) = S k /\
              length (AcceptVals (self st)) = k /\
              (exists all, concat_rows (tl (xVals (self st))) = Ok all /\
                           length all = (k * N)%nat) /\
              length (concat (AcceptVals (self st))) = (k * N)%nat);
    [|tauto].
  revert k st Hrun.
  apply (run_upto_ind_
           (fun k st =>
              length (WeightedSum (self st)) = (K + M_)%nat /\
              length (xVals (self st)) = S k /\
              length (AcceptVals (self st)) = k /\
              (exists all, concat_rows (tl (xVals (self st))) = Ok all /\
                           length all = (k * N)%nat) /\
              length (concat (AcceptVals (self st))) = (k * N)%nat)).
  - intros K0 st0 HK0 H0. assert (K0 = K) by congruence. subst K0.
    destruct (init_engine_of K st0 H0) as [-> _]. simpl.
    refine (conj _ (conj eq_refl (conj eq_refl (conj _ eq_refl)))).
    + rewrite length_app, !repeat_length. lia.
    + exists []. split; reflexivity.
  - intros InvG n s s' (HS & Hx & Ha & (all & Hall & Hlen) & Hc) Hs.
    destruct (step_inv_ InvG n s s' Hs)
      as (P & wcov & Inv0 & xv & av & _ & HWS & _ & _ & _ & _ & _ & Hxv & Hav
          & _ & _ & HX & HA & _).
    apply set_row_length in HWS. destruct HWS as [HS' HnK].
    assert (Hb : ((n + 1) * N <= K * N)%nat)
      by (apply Nat.mul_le_mono_r; lia).
    assert (HU : shape N (d + 1) (block N xs n)).
    { split.
      - apply block_length. lia.
      - unfold block. now apply Forall_firstn, Forall_skipn. }
    pose proof (resample_length d N P _ HU) as HIs.
    destruct (take_idx_In _ _ _ Hxv) as [Hlx _].
    destruct (take_idx_In _ _ _ Hav) as [Hla _].
    rewrite HX, HA.
    refine (conj _ (conj _ (conj _ (conj _ _)))).
    + lia.
    + rewrite length_app. simpl. lia.
    + rewrite length_app. simpl. lia.
    + exists (all ++ xv). split.
      * destruct (xVals (self s)) as [|v0 vs]; [discriminate|].
        simpl. simpl in Hall. now apply concat_rows_snoc.
      * rewrite length_app. lia.
    + rewrite concat_app, length_app. simpl.
      rewrite app_nil_r, length_map. lia.
Qed.

(** The running mean is the mean of the slots written so far. *)
Lemma run_mean_current (k : nat) (st : loop_state) :
  run_upto_ k = Ok st ->
  mean_axis0 (firstn (k + M_) (WeightedSum (self st)))
    = Ok (ApprPostMean (self st)).
Proof.
  apply (run_upto_ind_
           (fun k st => mean_axis0 (firstn (k + M_) (WeightedSum (self st)))
                        = Ok (ApprPostMean (self st)))).
  - intros K st0 _ H0. destruct (init_engine_of K st0 H0) as [-> _]. simpl.
    rewrite firstn_app, repeat_length, Nat.sub_diag, firstn_O, app_nil_r.
    rewrite firstn_all2 by (rewrite repeat_length; lia).
    apply mean_axis0_repeat. unfold M. lia.
  - intros InvG n s s' _ Hs.
    destruct (step_inv_ InvG n s s' Hs)
      as (P & wcov & Inv0 & xv & av & _ & _ & Hmean & _).
    replace (S n + M_)%nat with (n + M_ + 1)%nat by lia. exact Hmean.
Qed.

(** Slots below [M] keep the initial estimates and slots from [k+M] on are
    still the zeros they were created with. *)
Lemma run_untouched_slots (K k : nat) (st : loop_state) :
  NumOfIter d N PowerOfTwo = Ok K -> run_upto_ k = Ok st ->
  forall j,
    ((j < M_)%nat ->
     nth_error (WeightedSum (self st)) j = Some InitMean /\
     nth_error (WeightedCov (self st)) j = Some InitCov) /\
    ((k + M_ <= j < K + M_)%nat ->
     nth_error (WeightedSum (self st)) j = Some (zeros d) /\
     nth_error (WeightedCov (self st)) j = Some (zeros2 d d)).
Proof.
  intros HK. revert k st.
  apply (run_upto_ind_
           (fun k st => forall j,
              ((j < M_)%nat ->
               nth_error (WeightedSum (self st)) j = Some InitMean /\
               nth_error (WeightedCov (self st)) j = Some InitCov) /\
              ((k + M_ <= j < K + M_)%nat ->
               nth_error (WeightedSum (self st)) j = Some (zeros d) /\
               nth_error (WeightedCov (self st)) j = Some (zeros2 d d)))).
  - intros K0 st0 HK0 H0 j. assert (K0 = K) by congruence. subst K0.
    destruct (init_engine_of K st0 H0) as [-> _]. simpl.
    split; intros Hj; split;
      apply nth_error_repeat_app; lia.
  - intros InvG n s s' IH Hs j.
    destruct (step_inv_ InvG n s s' Hs)
      as (P & wcov & Inv0 & xv & av & _ & HWS & _ & _ & HWC & _).
    destruct (set_row_nth_error _ _ _ _ HWS) as [_ HfS].
    destruct (set_row_nth_error _ _ _ _ HWC) as [_ HfC].
    destruct (IH j) as [IH1 IH2].
    split; intros Hj; rewrite HfS, HfC by lia; [apply IH1|apply IH2]; lia.
Qed.

End RunFacts.

(** ** Entries of the scores and of the weighted moments *)

Lemma mget_transpose (r c : nat) (m : matrix) (i j : nat) :
  shape r c m -> (1 <= r)%nat -> (i < c)%nat ->
  mget (transpose m) i j = mget m j i.
Proof.
  intros Hs Hr Hi. unfold mget at 1. unfold transpose.
  rewrite (shape_ncols r c m Hs Hr).
  rewrite (nth_map_in (fun j => col j m) (seq 0 c) O [] i)
    by (rewrite length_seq; lia).
  rewrite seq_nth by lia. apply col_nth.
Qed.

Lemma nth_map2 {A B C : Type} (f : A -> B -> C) (u : list A) (v : list B)
      (a : A) (b : B) (c : C) (i : nat) :
  (i < length u)%nat -> (i < length v)%nat ->
  nth i (map2 f u v) c = f (nth i u a) (nth i v b).
Proof.
  revert v i. induction u as [|x u IH]; intros [|y v] i Hu Hv;
    simpl in Hu, Hv; try lia.
  destruct i as [|i]; [reflexivity|]. simpl. apply IH; lia.
Qed.

Lemma diagonal_nth (r : nat) (m : matrix) (i : nat) :
  shape r r m -> (i < r)%nat -> nth i (diagonal m) 0 = mget m i i.
Proof.
  intros Hs Hi. unfold diagonal.
  rewrite (shape_ncols r r m Hs ltac:(lia)). destruct Hs as [Hl _].
  rewrite Hl, Nat.min_id.
  rewrite (nth_map_in (fun i => nth i (nth i m []) 0) (seq 0 r) O 0 i)
    by (rewrite length_seq; lia).
  rewrite seq_nth by lia. reflexivity.
Qed.

Lemma vscal_nth (c : R) (v : vec) (i : nat) :
  nth i (vscal c v) 0 = c * nth i v 0.
Proof.
  unfold vscal. destruct (Nat.lt_ge_cases i (length v)) as [Hi|Hi].
  - now rewrite (nth_map_in (Rmult c) v 0 0 i Hi).
  - rewrite !nth_overflow by (rewrite ?length_map; lia). lra.
Qed.

(** The diagonal of [A B A^T] holds the quadratic forms of the rows of [A]. *)
Lemma quad_diag_nth (r c : nat) (a b : matrix) (i : nat) :
  shape r c a -> shape c c b -> (1 <= c)%nat -> (i < r)%nat ->
  nth i (diagonal (matmul (matmul a b) (transpose a))) 0
  = sumn (fun k => sumn (fun l => mget a i k * mget b k l * mget a i l) c) c.
Proof.
  intros Ha Hb Hc Hi.
  assert (Hr : (1 <= r)%nat) by lia.
  pose proof (shape_matmul r c c a b Ha Hb Hc) as Hab.
  pose proof (shape_transpose r c a Ha Hr) as Hat.
  rewrite (diagonal_nth r) by (try apply (shape_matmul r c r); assumption).
  rewrite (mget_matmul r c r) by assumption.
  rewrite sumn_swap. apply sumn_ext. intros l Hl.
  rewrite (mget_matmul r c c a b i l Ha Hb Hc Hi Hl).
  rewrite (mget_transpose r c a l i Ha Hr Hl).
  rewrite <- sumn_scal_r. apply sumn_ext. intros k _. reflexivity.
Qed.

(** [np.tile(P, (d,1)) * Proposals.T] summed along the rows: component [j]
    is the sum of the [j]-th coordinates weighted by [P]. *)
Lemma map2_repeat_l {A B C : Type} (f : A -> B -> C) (x : A) (l : list B) :
  map2 f (repeat x (length l)) l = map (f x) l.
Proof.
  induction l as [|y l IH]; [reflexivity|]. simpl. now rewrite IH.
Qed.

Lemma weighted_sum_nth (r d : nat) (P : vec) (Proposals : matrix) (j : nat) :
  shape r d Proposals -> (1 <= r)%nat -> (j < d)%nat ->
  nth j (weighted_sum d P Proposals) 0
  = rsum (map2 Rmult P (col j Proposals)).
Proof.
  intros Hs Hr Hj. unfold weighted_sum, transpose.
  rewrite (shape_ncols r d Proposals Hs Hr).
  replace (repeat P d)
    with (repeat P (length (map (fun j => col j Proposals) (seq 0 d))))
    by now rewrite length_map, length_seq.
  rewrite map2_repeat_l, !map_map.
  rewrite (nth_map_in (fun j => rsum (map2 Rmult P (col j Proposals)))
                      (seq 0 d) O 0 j) by (rewrite length_seq; lia).
  now rewrite seq_nth by lia.
Qed.

Lemma convex_bounds (P c : vec) (lo hi : R) :
  Forall (fun p => 0 <= p) P -> length P = length c ->
  Forall (fun x => lo <= x <= hi) c ->
  lo * rsum P <= rsum (map2 Rmult P c) <= hi * rsum P.
Proof.
  intros HP. revert c. induction HP as [|p P Hp _ IH]; intros [|x c] Hl Hc;
    simpl in Hl; try lia.
  - simpl. lra.
  - apply Forall_cons_iff in Hc. destruct Hc as [Hx Hc].
    specialize (IH c ltac:(lia) Hc).
    change (rsum (p :: P)) with (p + rsum P).
    change (rsum (map2 Rmult (p :: P) (x :: c)))
      with (p * x + rsum (map2 Rmult P c)).
    nra.
Qed.

(** The quadratic form of a [d x d] matrix. *)
Lemma mget_madd (d : nat) (a b : matrix) (i j : nat) :
  shape d d a -> shape d d b -> (i < d)%nat -> (j < d)%nat ->
  mget (madd a b) i j = mget a i j + mget b i j.
Proof.
  intros Ha Hb Hi Hj. unfold mget, madd.
  rewrite (nth_map2 vadd a b [] [] []) by (destruct Ha, Hb; lia).
  unfold vadd. apply nth_map2.
  - now rewrite (shape_row d d a i Ha Hi).
  - now rewrite (shape_row d d b i Hb Hi).
Qed.

Lemma mget_outer (b : vec) (i j : nat) :
  (i < length b)%nat -> (j < length b)%nat ->
  mget (outer b) i j = nth i b 0 * nth j b 0.
Proof.
  intros Hi Hj. unfold mget, outer.
  rewrite (nth_map_in (fun x => map (Rmult x) b) b 0 [] i Hi).
  now rewrite (nth_map_in (Rmult (nth i b 0)) b 0 0 j Hj).
Qed.

Lemma mget_zeros2 (r c i j : nat) : mget (zeros2 r c) i j = 0.
Proof.
  unfold mget, zeros2, zeros.
  destruct (Nat.lt_ge_cases i r) as [Hi|Hi].
  - rewrite nth_repeat_lt by exact Hi.
    destruct (Nat.lt_ge_cases j c) as [Hj|Hj].
    + now apply nth_repeat_lt.
    + apply nth_overflow. now rewrite repeat_length.
  - rewrite (nth_overflow (repeat _ r)) by now rewrite repeat_length.
    now destruct j.
Qed.

Lemma weighted_outer_sum (d : nat) (P : vec) (B : matrix) :
  Forall (fun p => 0 <= p) P -> Forall (fun u => length u = d) B ->
  shape d d (fold_right madd (zeros2 d d) (map2 mscal P (map outer B))) /\
  (forall a b, (a < d)%nat -> (b < d)%nat ->
     mget (fold_right madd (zeros2 d d) (map2 mscal P (map outer B))) a b
     = mget (fold_right madd (zeros2 d d) (map2 mscal P (map outer B))) b a) /\
  (forall v : vec,
     0 <= sumn (fun a => sumn (fun b =>
            nth a v 0
            * mget (fold_right madd (zeros2 d d) (map2 mscal P (map outer B)))
                   a b
            * nth b v 0) d) d).
Proof.
  intros HP. revert B. induction HP as [|p P Hp _ IH]; intros B HB.
  - simpl. refine (conj (shape_zeros2 d d) (conj _ _)).
    + intros a b _ _. now rewrite !mget_zeros2.
    + intros v. rewrite (sumn_ext _ (fun _ => 0)); [rewrite sumn_zero; lra|].
      intros a _. rewrite (sumn_ext _ (fun _ => 0)); [apply sumn_zero|].
      intros b _. rewrite mget_zeros2. lra.
  - destruct B as [|u B].
    + simpl. refine (conj (shape_zeros2 d d) (conj _ _)).
      * intros a b _ _. now rewrite !mget_zeros2.
      * intros v. rewrite (sumn_ext _ (fun _ => 0)); [rewrite sumn_zero; lra|].
        intros a _. rewrite (sumn_ext _ (fun _ => 0)); [apply sumn_zero|].
        intros b _. rewrite mget_zeros2. lra.
    + apply Forall_cons_iff in HB. destruct HB as [Hu HB].
      destruct (IH B HB) as (Hs & Hsym & Hpsd).
      cbn [map map2 fold_right].
      set (W := fold_right madd (zeros2 d d) (map2 mscal P (map outer B))) in *.
      assert (Hou : shape d d (mscal p (outer u)))
        by now apply shape_mscal, shape_outer.
      assert (Hent : forall a b, (a < d)%nat -> (b < d)%nat ->
                mget (madd (mscal p (outer u)) W) a b
                = p * (nth a u 0 * nth b u 0) + mget W a b).
      { intros a b Ha Hb. rewrite (mget_madd d) by assumption.
        rewrite mget_mscal, mget_outer by lia. reflexivity. }
      refine (conj (shape_madd d d _ _ Hou Hs) (conj _ _)).
      * intros a b Ha Hb. rewrite !Hent by assumption.
        rewrite (Hsym a b Ha Hb). lra.
      * intros v.
        set (T := sumn (fun a => nth a v 0 * nth a u 0) d).
        assert (E : sumn (fun a => sumn (fun b =>
                      nth a v 0 * mget (madd (mscal p (outer u)) W) a b
                      * nth b v 0) d) d
                    = p * (T * T)
                      + sumn (fun a => sumn (fun b =>
                          nth a v 0 * mget W a b * nth b v 0) d) d).
        { rewrite (sumn_ext _ (fun a =>
                     (p * (nth a v 0 * nth a u 0)) * T
                     + sumn (fun b => nth a v 0 * mget W a b * nth b v 0) d)).
          - rewrite sumn_plus, sumn_scal_r, sumn_scal_l. fold T. lra.
          - intros a Ha. unfold T. rewrite <- sumn_scal_l, <- sumn_plus.
            apply sumn_ext. intros b Hb. rewrite (Hent a b Ha Hb). lra. }
        rewrite E. specialize (Hpsd v).
        pose proof (Rle_0_sqr T) as HT. unfold Rsqr in HT. nra.
Qed.

(** Entry [(i, k)] of [Obs - fs.T]: the residual of proposal [i] at
    observation [k]. *)
Lemma residual_entry (n d r : nat) (X : matrix) (Obs : vec)
      (Proposals : matrix) (i k : nat) :
  shape n d X -> length Obs = n -> shape r d Proposals ->
  (1 <= n)%nat -> (1 <= d)%nat -> (i < r)%nat -> (k < n)%nat ->
  shape r n (map (vsub Obs) (transpose (matmul X (transpose Proposals)))) /\
  mget (map (vsub Obs) (transpose (matmul X (transpose Proposals)))) i k
  = nth k Obs 0 - sumn (fun t => mget X k t * mget Proposals i t) d.
Proof.
  intros HX HO HP Hn Hd Hi Hk.
  assert (Hr : (1 <= r)%nat) by lia.
  pose proof (shape_transpose r d Proposals HP Hr) as HPt.
  pose proof (shape_matmul n d r X _ HX HPt Hd) as Hfs.
  pose proof (shape_transpose n r _ Hfs Hn) as Hfst.
  split.
  - apply shape_map_rows; [exact Hfst|].
    intros row Hrow. rewrite vsub_length; congruence.
  - unfold mget at 1.
    rewrite (nth_map_in (vsub Obs) _ [] [] i) by (destruct Hfst; lia).
    unfold vsub.
    rewrite (nth_map2 Rminus Obs _ 0 0 0 k)
      by (rewrite ?(shape_row r n _ i Hfst Hi); lia).
    f_equal.
    change (nth k (nth i (transpose (matmul X (transpose Proposals))) []) 0)
      with (mget (transpose (matmul X (transpose Proposals))) i k).
    rewrite (mget_transpose n r _ i k Hfs Hn Hi).
    rewrite (mget_matmul n d r X _ k i HX HPt Hd Hk Hi).
    apply sumn_ext. intros t Ht.
    now rewrite (mget_transpose r d Proposals t i HP Hr Ht).
Qed.

Lemma sumn_nonneg (f : nat -> R) (n : nat) :
  (forall k, (k < n)%nat -> 0 <= f k) -> 0 <= sumn f n.
Proof.
  induction n as [|n IH]; intros H; simpl; [lra|].
  pose proof (IH (fun k Hk => H k (Nat.lt_lt_succ_r _ _ Hk))).
  pose proof (H n (Nat.lt_succ_diag_r n)). lra.
Qed.

(** ** Sums and means along an axis, entry by entry *)

Lemma rsum_sumn (l : vec) : rsum l = sumn (fun k => nth k l 0) (length l).
Proof.
  induction l as [|a l IH]; [reflexivity|].
  change (length (a :: l)) with (S (length l)). rewrite sumn_shift.
  change (rsum (a :: l)) with (a + rsum l). now rewrite IH.
Qed.

Lemma rsum_map_seq (f : nat -> R) (d : nat) :
  rsum (map f (seq 0 d)) = sumn f d.
Proof.
  rewrite rsum_sumn, length_map, length_seq. apply sumn_ext. intros k Hk.
  rewrite (nth_map_in f (seq 0 d) O 0 k) by (rewrite length_seq; lia).
  now rewrite seq_nth by lia.
Qed.

Lemma sumn_const (c : R) (n : nat) : sumn (fun _ => c) n = INR n * c.
Proof.
  induction n as [|n IH]; [simpl; lra|].
  rewrite S_INR. simpl. rewrite IH. lra.
Qed.

Lemma sumn_minus_const (f : nat -> R) (c : R) (n : nat) :
  sumn (fun k => f k - c) n = sumn f n - INR n * c.
Proof.
  rewrite <- (sumn_const c n).
  induction n as [|n IH]; simpl; [|rewrite IH]; lra.
Qed.

Lemma mapM_map {A B : Type} (f : A -> result B) (g : A -> B) (l : list A) :
  Forall (fun x => f x = Ok (g x)) l -> mapM f l = Ok (map g l).
Proof.
  induction 1 as [|x l Hx _ IH]; [reflexivity|].
  simpl. now rewrite Hx, IH.
Qed.

Lemma map2_map_same {A B C D : Type} (f : B -> C -> D) (g : A -> B)
      (h : A -> C) (l : list A) :
  map2 f (map g l) (map h l) = map (fun x => f (g x) (h x)) l.
Proof.
  induction l as [|x l IH]; [reflexivity|]. simpl. now rewrite IH.
Qed.

Lemma vsub_map_seq (f : nat -> R) (v : vec) :
  vsub (map f (seq 0 (length v))) v
  = map (fun c => f c - nth c v 0) (seq 0 (length v)).
Proof.
  apply (nth_ext _ _ 0 0).
  - unfold vsub. rewrite map2_length, !length_map, length_seq. lia.
  - intros k Hk. unfold vsub in *.
    rewrite map2_length, length_map, length_seq, Nat.min_id in Hk.
    rewrite (nth_map2 Rminus _ v 0 0 0 k)
      by (rewrite ?length_map, ?length_seq; lia).
    rewrite (nth_map_in f (seq 0 (length v)) O 0 k)
      by (rewrite length_seq; lia).
    rewrite (nth_map_in (fun c => f c - nth c v 0) (seq 0 (length v)) O 0 k)
      by (rewrite length_seq; lia).
    now rewrite seq_nth by lia.
Qed.

Lemma mean_axis0_entries (n d : nat) (rows : matrix) :
  shape n d rows -> (1 <= n)%nat ->
  mean_axis0 rows
  = Ok (map (fun c => sumn (fun j => mget rows j c) n / INR n) (seq 0 d)).
Proof.
  intros Hs Hn. rewrite mean_axis0_ok
    by (destruct Hs as [Hl _]; destruct rows; [simpl in Hl; lia|discriminate]).
  f_equal. unfold transpose. rewrite (shape_ncols n d rows Hs Hn), map_map.
  destruct Hs as [Hl _]. rewrite Hl. apply map_ext. intros c. f_equal.
  rewrite rsum_sumn. unfold col at 2. rewrite length_map, Hl.
  apply sumn_ext. intros j _. apply col_nth.
Qed.

Lemma var_axis0_entries (n d : nat) (rows : matrix) :
  shape n d rows -> (1 <= n)%nat ->
  var_axis0 rows
  = Ok (map (fun c =>
               sumn (fun j =>
                       (mget rows j c
                        - sumn (fun j' => mget rows j' c) n / INR n) ^ 2) n
               / INR n) (seq 0 d)).
Proof.
  intros Hs Hn. unfold var_axis0.
  rewrite (mean_axis0_entries n d rows Hs Hn). cbn [bind].
  set (mu := fun c => sumn (fun j' => mget rows j' c) n / INR n).
  set (arrmean := map mu (seq 0 d)).
  assert (Hlen : length arrmean = d)
    by (unfold arrmean; now rewrite length_map, length_seq).
  assert (Hs' : shape n d (map (fun row => map (fun x => x ^ 2)
                                               (vsub row arrmean)) rows)).
  { apply shape_map_rows; [exact Hs|].
    intros row Hrow. rewrite length_map, vsub_length; congruence. }
  rewrite (mean_axis0_entries n d _ Hs' Hn). f_equal.
  apply map_ext_in. intros c Hc. apply in_seq in Hc. f_equal.
  apply sumn_ext. intros j Hj. unfold mget.
  rewrite (nth_map_in (fun row => map (fun x => x ^ 2) (vsub row arrmean))
                      rows [] [] j) by (destruct Hs; lia).
  assert (Hrow : length (nth j rows []) = d) by now apply (shape_row n d).
  rewrite (nth_map_in (fun x => x ^ 2) (vsub (nth j rows []) arrmean) 0 0 c)
    by (rewrite vsub_length; lia).
  unfold vsub. rewrite (nth_map2 Rminus _ arrmean 0 0 0 c) by lia.
  unfold arrmean.
  rewrite (nth_map_in mu (seq 0 d) O 0 c) by (rewrite length_seq; lia).
  now rewrite seq_nth by lia.
Qed.

(** Variance plus squared bias is the mean squared deviation. *)
Lemma column_mse (n : nat) (x : nat -> R) (a : R) :
  (1 <= n)%nat ->
  sumn (fun j => (x j - sumn x n / INR n) ^ 2) n / INR n
  + (sumn x n / INR n - a) ^ 2
  = sumn (fun j => (x j - a) ^ 2) n / INR n.
Proof.
  intros Hn. set (mu := sumn x n / INR n).
  assert (Hn0 : INR n <> 0) by (apply not_0_INR; lia).
  assert (E : sumn (fun j => (x j - a) ^ 2) n
              = sumn (fun j => (x j - mu) ^ 2) n
                + INR n * (mu - a) ^ 2).
  { rewrite (sumn_ext _ (fun j => ((x j - mu) ^ 2 + (mu - a) ^ 2)
                                  + (2 * (mu - a)) * (x j - mu)))
      by (intros j _; ring).
    rewrite !sumn_plus, sumn_scal_l, sumn_const, sumn_minus_const.
    unfold mu. field. exact Hn0. }
  rewrite E. field. exact Hn0.
Qed.

Lemma shifted_mean (n d : nat) (rows : matrix) (PostMean : vec) :
  shape n d rows -> (1 <= n)%nat -> length PostMean = d ->
  mean_axis0 (map (fun row => vsub row PostMean) rows)
  = Ok (map (fun c => sumn (fun j => mget rows j c) n / INR n
                      - nth c PostMean 0) (seq 0 d)).
Proof.
  intros Hs Hn Hp.
  assert (Hs' : shape n d (map (fun row => vsub row PostMean) rows)).
  { apply shape_map_rows; [exact Hs|].
    intros row Hrow. rewrite vsub_length; congruence. }
  rewrite (mean_axis0_entries n d _ Hs' Hn). f_equal.
  apply map_ext_in. intros c Hc. apply in_seq in Hc.
  assert (Hn0 : INR n <> 0) by (apply not_0_INR; lia).
  rewrite (sumn_ext _ (fun j => mget rows j c - nth c PostMean 0)).
  - rewrite sumn_minus_const. field. exact Hn0.
  - intros j Hj. unfold mget.
    rewrite (nth_map_in (fun row => vsub row PostMean) rows [] [] j)
      by (destruct Hs; lia).
    unfold vsub. apply nth_map2; [|lia].
    rewrite (shape_row n d rows j Hs Hj). lia.
Qed.

Section Traces.

Variables (NumOfSim d : nat) (EstimArray : list matrix) (PostMean : vec).

Hypothesis Estim_shape : Forall (shape NumOfSim d) EstimArray.
Hypothesis NumOfSim_pos : (1 <= NumOfSim)%nat.
Hypothesis PostMean_length : length PostMean = d.

Local Abbreviation mu Ep c :=
  (sumn (fun j => mget Ep j c) NumOfSim / INR NumOfSim).

Lemma EstimAverageVarTrace_value :
  EstimAverageVarTrace EstimArray
  = Ok (map (fun Ep =>
               sumn (fun c =>
                       sumn (fun j => (mget Ep j c - mu Ep c) ^ 2) NumOfSim
                       / INR NumOfSim) d)
            EstimArray).
Proof.
  unfold EstimAverageVarTrace, np_var_axis1.
  rewrite (mapM_map var_axis0
             (fun Ep => map (fun c =>
                sumn (fun j => (mget Ep j c - mu Ep c) ^ 2) NumOfSim
                / INR NumOfSim) (seq 0 d))).
  - cbn [bind]. f_equal. unfold np_sum_axis1. rewrite map_map.
    apply map_ext. intros Ep. apply rsum_map_seq.
  - apply Forall_impl with (2 := Estim_shape). intros Ep HEp.
    now apply var_axis0_entries.
Qed.

Lemma PSR_EstimAverageSquareBiasTrace_value :
  PSR_EstimAverageSquareBiasTrace EstimArray PostMean
  = Ok (map (fun Ep => sumn (fun c => (mu Ep c - nth c PostMean 0) ^ 2) d)
            EstimArray).
Proof.
  unfold PSR_EstimAverageSquareBiasTrace, np_mean_axis1.
  rewrite (mapM_map mean_axis0 (fun Ep => map (fun c => mu Ep c) (seq 0 d))).
  - cbn [bind]. f_equal. unfold np_sum_axis1. rewrite !map_map.
    apply map_ext. intros Ep. rewrite <- PostMean_length at 1.
    rewrite vsub_map_seq, PostMean_length, map_map.
    apply (rsum_map_seq (fun c => (mu Ep c - nth c PostMean 0) ^ 2)).
  - apply Forall_impl with (2 := Estim_shape). intros Ep HEp.
    now apply mean_axis0_entries.
Qed.

Lemma QMC_EstimAverageSquareBiasTrace_value :
  QMC_EstimAverageSquareBiasTrace EstimArray PostMean
  = Ok (map (fun Ep => sumn (fun c => (mu Ep c - nth c PostMean 0) ^ 2) d)
            EstimArray).
Proof.
  unfold QMC_EstimAverageSquareBiasTrace, np_mean_axis1.
  rewrite (mapM_map mean_axis0
             (fun rows => map (fun c => mu rows c) (seq 0 d))).
  - cbn [bind]. f_equal. unfold np_sum_axis1. rewrite !map_map.
    apply map_ext_in. intros Ep HEp.
    apply (proj1 (Forall_forall _ _) Estim_shape) in HEp.
    pose proof (shifted_mean NumOfSim d Ep PostMean HEp NumOfSim_pos
                  PostMean_length) as E1.
    pose proof (mean_axis0_entries NumOfSim d
                  (map (fun row => vsub row PostMean) Ep)) as E2.
    rewrite E2 in E1.
    + injection E1 as E1. rewrite E1, map_map.
      apply (rsum_map_seq (fun c => (mu Ep c - nth c PostMean 0) ^ 2)).
    + apply shape_map_rows; [exact HEp|].
      intros row Hrow. rewrite vsub_length; congruence.
    + exact NumOfSim_pos.
  - apply Forall_map. apply Forall_impl with (2 := Estim_shape).
    intros Ep HEp. apply mean_axis0_entries; [|exact NumOfSim_pos].
    apply shape_map_rows; [exact HEp|].
    intros row Hrow. rewrite vsub_length; congruence.
Qed.

Lemma slice_mse (Ep : matrix) :
  sumn (fun c => sumn (fun j => (mget Ep j c - mu Ep c) ^ 2) NumOfSim
                 / INR NumOfSim) d
  + sumn (fun c => (mu Ep c - nth c PostMean 0) ^ 2) d
  = sumn (fun j => sumn (fun c => (mget Ep j c - nth c PostMean 0) ^ 2) d)
         NumOfSim
    / INR NumOfSim.
Proof.
  rewrite <- sumn_plus.
  rewrite (sumn_ext _ (fun c =>
             sumn (fun j => (mget Ep j c - nth c PostMean 0) ^ 2) NumOfSim
             * / INR NumOfSim)).
  - rewrite sumn_scal_r. unfold Rdiv. f_equal.
    apply (sumn_swap (fun j c => (mget Ep j c - nth c PostMean 0) ^ 2)).
  - intros c _.
    apply (column_mse NumOfSim (fun j => mget Ep j c) (nth c PostMean 0)
                      NumOfSim_pos).
Qed.

End Traces.

(** ** Positive definite covariances *)

Lemma quad_form_ext (d : nat) (W W' : matrix) (v : vec) :
  (forall a b, (a < d)%nat -> (b < d)%nat -> mget W a b = mget W' a b) ->
  quad_form d W v = quad_form d W' v.
Proof.
  intros H. unfold quad_form. apply sumn_ext. intros a Ha.
  apply sumn_ext. intros b Hb. now rewrite (H a b Ha Hb).
Qed.

Lemma pos_semidef_zeros2 (d : nat) : pos_semidef d (zeros2 d d).
Proof.
  split; [split|].
  - apply shape_zeros2.
  - intros a b _ _. now rewrite !mget_zeros2.
  - intros v. unfold quad_form.
    rewrite (sumn_ext _ (fun _ => 0)); [rewrite sumn_zero; lra|].
    intros a _. rewrite (sumn_ext _ (fun _ => 0)); [apply sumn_zero|].
    intros b _. rewrite mget_zeros2. lra.
Qed.

Lemma pos_semidef_weighted_cov (d N : nat) (P mean : vec)
      (Proposals W : matrix) :
  weighted_cov d N P mean Proposals = Ok W ->
  Forall (fun p => 0 <= p) P -> length mean = d ->
  Forall (fun row => length row = d) Proposals ->
  pos_semidef d W.
Proof.
  intros H HP Hm Hrows. unfold weighted_cov in H.
  destruct (Nat.eq_dec _ _) as [_|]; [|discriminate]. injection H as <-.
  destruct (weighted_outer_sum d P
              (map (fun p => vsub p mean) Proposals) HP) as (Hs & Hsym & Hq).
  - apply Forall_map. apply Forall_impl with (2 := Hrows).
    intros row Hrow. rewrite vsub_length; congruence.
  - split; [split|]; assumption.
Qed.

Lemma mean_axis0_mat_cons (m0 : matrix) (ms : list matrix) :
  mean_axis0_mat (m0 :: ms)
  = Ok (map (fun i =>
               map (fun j => rsum (map (fun m => mget m i j) (m0 :: ms))
                             / INR (length (m0 :: ms)))
                   (seq 0 (ncols m0)))
            (seq 0 (length m0))).
Proof.
  reflexivity.
Qed.

Lemma mean_axis0_mat_entries (d : nat) (ms : list matrix) (C : matrix) :
  (1 <= d)%nat -> Forall (shape d d) ms -> mean_axis0_mat ms = Ok C ->
  forall a b, (a < d)%nat -> (b < d)%nat ->
    mget C a b = rsum (map (fun m => mget m a b) ms) / INR (length ms).
Proof.
  intros Hd Hs H a b Ha Hb.
  destruct ms as [|m0 ms']; [discriminate|].
  rewrite mean_axis0_mat_cons in H.
  pose proof (Forall_inv Hs) as H0.
  rewrite (shape_ncols d d m0 H0 Hd) in H. destruct H0 as [Hl _].
  rewrite Hl in H.
  apply (f_equal (fun r => match r with Ok x => x | Raise _ => [] end)) in H.
  cbv beta iota in H. rewrite <- H. unfold mget at 1.
  set (f := fun i j => rsum (map (fun m => mget m i j) (m0 :: ms'))
                       / INR (length (m0 :: ms'))).
  change (nth b (nth a (map (fun i => map (fun j => f i j) (seq 0 d))
                            (seq 0 d)) []) 0 = f a b).
  rewrite (nth_map_in (fun i => map (fun j => f i j) (seq 0 d)) (seq 0 d)
                      O [] a) by (rewrite length_seq; lia).
  rewrite (nth_map_in (fun j => f (nth a (seq 0 d) O) j) (seq 0 d) O 0 b)
    by (rewrite length_seq; lia).
  now rewrite !seq_nth by lia.
Qed.

Lemma quad_form_sum (d : nat) (ms : list matrix) (v : vec) :
  sumn (fun a => sumn (fun b =>
          nth a v 0 * rsum (map (fun m => mget m a b) ms) * nth b v 0) d) d
  = rsum (map (fun m => quad_form d m v) ms).
Proof.
  induction ms as [|m ms IH].
  - simpl. rewrite (sumn_ext _ (fun _ => 0)); [apply sumn_zero|].
    intros a _. rewrite (sumn_ext _ (fun _ => 0)); [apply sumn_zero|].
    intros b _. lra.
  - cbn [map]. change (rsum (?x :: ?l)) with (x + rsum l).
    rewrite <- IH. unfold quad_form. rewrite <- sumn_plus.
    apply sumn_ext. intros a _. rewrite <- sumn_plus.
    apply sumn_ext. intros b _.
    change (rsum (?x :: ?l)) with (x + rsum l). lra.
Qed.

Lemma quad_form_mean (d : nat) (ms : list matrix) (C : matrix) (v : vec) :
  (1 <= d)%nat -> Forall (shape d d) ms -> mean_axis0_mat ms = Ok C ->
  quad_form d C v
  = rsum (map (fun m => quad_form d m v) ms) / INR (length ms).
Proof.
  intros Hd Hs H. rewrite <- quad_form_sum. unfold quad_form, Rdiv.
  rewrite <- sumn_scal_r. apply sumn_ext. intros a Ha.
  rewrite <- sumn_scal_r. apply sumn_ext. intros b Hb.
  rewrite (mean_axis0_mat_entries d ms C Hd Hs H a b Ha Hb).
  unfold Rdiv. ring.
Qed.

Lemma pos_semidef_shape (d : nat) (ms : list matrix) :
  Forall (pos_semidef d) ms -> Forall (shape d d) ms.
Proof.
  apply Forall_impl. intros m [[Hs _] _]. exact Hs.
Qed.

(** The mean of positive semi-definite matrices, the first of which is
    positive definite, is positive definite. *)
Lemma mean_pos_def (d : nat) (m0 : matrix) (ms : list matrix) (C : matrix) :
  (1 <= d)%nat -> pos_def d m0 -> Forall (pos_semidef d) ms ->
  mean_axis0_mat (m0 :: ms) = Ok C -> pos_def d C.
Proof.
  intros Hd [H0 H0pd] Hms H.
  assert (Hall : Forall (pos_semidef d) (m0 :: ms)) by now constructor.
  pose proof (pos_semidef_shape d _ Hall) as Hshapes.
  assert (Hn : 0 < INR (length (m0 :: ms))) by (apply lt_0_INR; simpl; lia).
  assert (Hsum : forall v, 0 <= rsum (map (fun m => quad_form d m v) ms)).
  { intros v. apply rsum_nonneg, Forall_map.
    apply Forall_impl with (2 := Hms). intros m [_ Hm]. apply Hm. }
  assert (HQ : forall v,
            quad_form d C v
            = (quad_form d m0 v + rsum (map (fun m => quad_form d m v) ms))
              / INR (length (m0 :: ms))).
  { intros v. now rewrite (quad_form_mean d (m0 :: ms) C v Hd Hshapes H). }
  split; [split; [split|]|].
  - now apply (mean_axis0_mat_shape d Hd (m0 :: ms)).
  - intros a b Ha Hb.
    rewrite !(mean_axis0_mat_entries d _ C Hd Hshapes H) by assumption.
    f_equal. f_equal. apply map_ext_in. intros m Hm.
    apply (proj1 (Forall_forall _ _) Hall) in Hm.
    destruct Hm as [[_ Hsym] _]. now apply Hsym.
  - intros v. rewrite HQ. apply Rmult_le_pos.
    + destruct H0 as [_ H0q]. specialize (H0q v). specialize (Hsum v). lra.
    + apply Rlt_le, Rinv_0_lt_compat, Hn.
  - intros v Hv. rewrite HQ. apply Rmult_lt_0_compat.
    + specialize (H0pd v Hv). specialize (Hsum v). lra.
    + apply Rinv_0_lt_compat, Hn.
Qed.

Lemma take_idx_raises {A : Type} (a : list A) (Is : list nat) (e : exn) :
  take_idx a Is = Raise e -> e = IndexError.
Proof.
  induction Is as [|i Is IH]; [discriminate|]. simpl.
  destruct (nth_error a i); simpl; [|congruence].
  destruct (take_idx a Is); simpl; [discriminate|]. intros [= <-].
  now apply IH.
Qed.

(** ** The proposal covariance stays positive definite *)

(** The covariance a refresh computes from the slots written so far. *)
Lemma refresh_pos_def (d k : nat) (InitCov wcov C : matrix)
      (WC WC' : list matrix) :
  (1 <= d)%nat -> (1 <= k)%nat ->
  pos_def d InitCov -> pos_semidef d wcov ->
  Forall (pos_semidef d) WC -> nth_error WC 0 = Some InitCov ->
  set_row k wcov WC = Some WC' ->
  Forall (pos_semidef d) WC' /\ nth_error WC' 0 = Some InitCov /\
  (mean_axis0_mat (firstn (k + 1) WC') = Ok C -> pos_def d C).
Proof.
  intros Hd Hk Hpd Hw Hslots Hseed Hset.
  destruct (set_row_nth_error _ _ _ _ Hset) as [_ Hframe].
  assert (Hseed' : nth_error WC' 0 = Some InitCov).
  { rewrite Hframe; [exact Hseed|lia]. }
  assert (Hslots' : Forall (pos_semidef d) WC').
  { eapply set_row_Forall; [exact Hset|exact Hw|exact Hslots]. }
  refine (conj Hslots' (conj Hseed' _)). intros HC.
  destruct WC' as [|m0 rest]; [discriminate|].
  injection Hseed' as ->.
  replace (k + 1)%nat with (S k) in HC by lia. cbn [firstn] in HC.
  apply (mean_pos_def d InitCov (firstn k rest)); try assumption.
  apply Forall_firstn. now apply Forall_inv_tail in Hslots'.
Qed.

Section ConstructorReturns.

Variable np_linalg_inv : matrix -> result matrix.
Variable np_linalg_cholesky : matrix -> result matrix.
Variable norm_ppf : R -> R -> R -> R.
Variables (d : nat) (alpha : R) (x0 : vec) (N : nat) (StepSize : R)
          (PowerOfTwo : nat) (InitMean : vec) (InitCov : matrix)
          (WeightIn : nat).
Variables (X : matrix) (Obs : vec) (NumOfSamples : nat) (xs : matrix).

Hypothesis inv_shape : keeps_shape np_linalg_inv.
Hypothesis chol_shape : keeps_shape np_linalg_cholesky.
Hypothesis inv_raises : raises_LinAlgError_only np_linalg_inv.
Hypothesis chol_raises : raises_LinAlgError_only np_linalg_cholesky.
Hypothesis d_pos : (1 <= d)%nat.
Hypothesis N_pos : (1 <= N)%nat.
Hypothesis n_obs_pos : (1 <= NumOfSamples)%nat.
Hypothesis X_shape : shape NumOfSamples d X.
Hypothesis Obs_length : length Obs = NumOfSamples.
Hypothesis x0_length : length x0 = d.
Hypothesis InitMean_length : length InitMean = d.
Hypothesis InitCov_pos_def : pos_def d InitCov.
Hypothesis xs_shape : shape (2 ^ PowerOfTwo - 1) (d + 1) xs.
Hypothesis xs_unit : Forall (fun r => Forall (fun u => 0 <= u <= 1) r) xs.

Local Abbreviation step_ :=
  (step np_linalg_inv np_linalg_cholesky norm_ppf d alpha N StepSize
        WeightIn X Obs xs).
Local Abbreviation iterate_ :=
  (iterate np_linalg_inv np_linalg_cholesky norm_ppf d alpha N StepSize
           WeightIn X Obs xs).
Local Abbreviation M_ := (M N WeightIn).
Local Abbreviation init_ :=
  (init np_linalg_inv np_linalg_cholesky d x0 N InitMean InitCov WeightIn).
Local Abbreviation run_upto_ :=
  (run_upto np_linalg_inv np_linalg_cholesky norm_ppf d alpha x0 N StepSize
            PowerOfTwo InitMean InitCov WeightIn X Obs NumOfSamples xs).
Local Abbreviation BayesianLinReg_ :=
  (BayesianLinReg np_linalg_inv np_linalg_cholesky norm_ppf d alpha x0 N
                  StepSize PowerOfTwo InitMean InitCov WeightIn X Obs
                  NumOfSamples xs).
Local Abbreviation Proposals_of st n :=
  (propose norm_ppf d StepSize (ApprPostMean (self st))
           (CholApprPostCov st) (loop_xI st) (block N xs n)).
Local Abbreviation step_outcome_ :=
  (step_outcome np_linalg_inv np_linalg_cholesky norm_ppf d alpha N StepSize
                WeightIn X Obs NumOfSamples xs inv_shape chol_shape
                inv_raises chol_raises d_pos N_pos n_obs_pos X_shape
                Obs_length).
Local Abbreviation step_inv_ :=
  (step_inv np_linalg_inv np_linalg_cholesky norm_ppf d alpha N StepSize
            WeightIn X Obs xs).

Lemma InitCov_shape_of : shape d d InitCov.
Proof.
  destruct InitCov_pos_def as [[[Hs _] _] _]. exact Hs.
Qed.

Lemma M_pos : (1 <= M_)%nat.
Proof.
  unfold M. lia.
Qed.

Lemma step_keeps_cov_inv (InvG : matrix) (L n : nat) (st st' : loop_state) :
  shape d d InvG -> well_shaped d L st -> cov_inv d InitCov st ->
  (n + M_ < L)%nat -> unit_block d N (block N xs n) ->
  step_ InvG n st = Ok st' ->
  well_shaped d L st' /\ cov_inv d InitCov st'.
Proof.
  intros HG Hws [Hcov Hslots Hseed] HnL Hblock Hs.
  assert (Hws' : well_shaped d L st').
  { destruct (step_outcome_ InvG L n st HG Hws HnL Hblock)
      as [(st'' & E & H'')|E]; rewrite Hs in E;
      [injection E as <-; exact H''|discriminate]. }
  split; [exact Hws'|].
  destruct (step_inv_ InvG n st st' Hs)
    as (P & wcov & Inv0 & xv & av & HP & _ & _ & Hwc & HWC & _ & Href & _).
  destruct (normalise_facts _ _ HP) as (_ & Hpos & _).
  assert (HProp : shape (N + 1) d (Proposals_of st n)).
  { destruct Hws. destruct Hblock as [HU _]. now apply propose_shape. }
  assert (Hpsd : pos_semidef d wcov).
  { apply (pos_semidef_weighted_cov d N P _ _ wcov Hwc Hpos).
    - apply Hws'.
    - apply HProp. }
  pose proof M_pos as HM.
  destruct (refresh_pos_def d (n + M_) InitCov wcov
              (ApprPostCov (self st')) _ _ d_pos ltac:(lia) InitCov_pos_def
              Hpsd Hslots Hseed HWC) as (Hslots' & Hseed' & Hrefresh).
  constructor; [|exact Hslots'|exact Hseed'].
  destruct (cov_guard d N n).
  - destruct Href as (HC & _ & _). exact (Hrefresh HC).
  - destruct Href as (-> & _ & _). exact Hcov.
Qed.

Lemma init_cov_inv (K : nat) (st0 : loop_state) :
  init_ K = Ok st0 ->
  well_shaped d (K + M_) st0 /\ cov_inv d InitCov st0.
Proof.
  intros H0. split.
  - destruct (init_outcome np_linalg_inv np_linalg_cholesky d x0 N PowerOfTwo
                InitMean InitCov WeightIn X Obs NumOfSamples xs inv_shape
                chol_shape inv_raises chol_raises d_pos N_pos n_obs_pos
                X_shape Obs_length x0_length InitMean_length InitCov_shape_of
                xs_shape K) as [(st & E & Hst)|E]; rewrite H0 in E;
      [injection E as <-; exact Hst|discriminate].
  - pose proof M_pos as HM.
    destruct (init_engine_of np_linalg_inv np_linalg_cholesky d x0 N InitMean
                InitCov WeightIn K st0 H0) as [E _].
    constructor; rewrite E; cbn [init_engine ApprPostCov WeightedCov].
    + exact InitCov_pos_def.
    + apply Forall_app. split.
      * apply Forall_forall. intros m Hm. apply repeat_spec in Hm. subst m.
        apply InitCov_pos_def.
      * apply Forall_forall. intros m Hm. apply repeat_spec in Hm. subst m.
        apply pos_semidef_zeros2.
    + apply nth_error_repeat_app. exact HM.
Qed.

Lemma step_in_range (InvG : matrix) (K n : nat) (st st' : loop_state) :
  NumOfIter d N PowerOfTwo = Ok K ->
  well_shaped d (K + M_) st -> step_ InvG n st = Ok st' ->
  (n + M_ < K + M_)%nat /\ unit_block d N (block N xs n).
Proof.
  intros HK Hws Hs.
  destruct (step_inv_ InvG n st st' Hs)
    as (P & wcov & Inv0 & xv & av & _ & HWS & _).
  destruct (set_row_length _ _ _ _ HWS) as [_ Hlt].
  destruct Hws as [_ _ _ _ _ [Hlen _] _ _]. rewrite Hlen in Hlt.
  split; [exact Hlt|].
  apply (block_unit d N PowerOfTwo K); try assumption. lia.
Qed.

Lemma prior_shape (InvG : matrix) :
  InvG_prior np_linalg_inv alpha X NumOfSamples = Ok InvG -> shape d d InvG.
Proof.
  intros HG. destruct (InvG_prior_inv _ _ _ _ _ HG) as (Ha & _ & _).
  destruct (InvG_prior_outcome np_linalg_inv d alpha x0 N InitMean X Obs
              NumOfSamples inv_shape inv_raises d_pos N_pos Ha n_obs_pos
              X_shape Obs_length x0_length InitMean_length)
    as [(G & E & HS)|E]; rewrite HG in E;
    [injection E as <-; exact HS|discriminate].
Qed.

Lemma run_cov_inv (k : nat) (st : loop_state) :
  run_upto_ k = Ok st ->
  exists K, NumOfIter d N PowerOfTwo = Ok K /\
            well_shaped d (K + M_) st /\ cov_inv d InitCov st.
Proof.
  unfold run_upto. intros H.
  bind_inv H as InvG EG. bind_inv H as K EK. bind_inv H as st0 E0.
  exists K. split; [exact EK|].
  pose proof (prior_shape InvG EG) as HG.
  apply (iterate_ind np_linalg_inv np_linalg_cholesky norm_ppf d alpha N
           StepSize WeightIn X Obs xs
           (fun _ s => well_shaped d (K + M_) s /\ cov_inv d InitCov s)
           InvG) with (k := k) (n0 := O) (st := st0); [| |exact H].
  - intros n s s' [Hws Hci] Hs.
    destruct (step_in_range InvG K n s s' EK Hws Hs) as [Hlt Hblock].
    now apply (step_keeps_cov_inv InvG (K + M_) n s s').
  - now apply init_cov_inv.
Qed.

(** *** With routines that succeed on positive definite matrices *)

Hypothesis inv_complete : succeeds_on_pos_def d np_linalg_inv.
Hypothesis chol_complete : succeeds_on_pos_def d np_linalg_cholesky.

Lemma step_never_LinAlgError (InvG : matrix) (L n : nat) (st : loop_state) :
  well_shaped d L st -> cov_inv d InitCov st ->
  unit_block d N (block N xs n) ->
  step_ InvG n st <> Raise LinAlgError.
Proof.
  intros Hws Hci Hblock H.
  pose proof Hws as [Hmean Hcovs Hchol Hinv HxI Hsum Hclen Hcovshape].
  pose proof Hci as [Hcov Hslots Hseed].
  pose proof M_pos as HM.
  assert (HProp : shape (N + 1) d (Proposals_of st n)).
  { destruct Hblock as [HU _]. now apply propose_shape. }
  unfold step in H.
  destruct (normalise _) as [P|e] eqn:EP; cbn [bind] in H.
  2:{ unfold normalise in EP. destruct (np_sort _); congruence. }
  destruct (normalise_facts _ _ EP) as (_ & Hpos & _).
  destruct (set_row (n + M_) _ (WeightedSum (self st))) as [WS'|] eqn:EWS;
    cbn [of_option bind] in H; [|discriminate].
  destruct (mean_axis0 _) as [mean'|e] eqn:Em; cbn [bind] in H.
  2:{ unfold mean_axis0 in Em. destruct (firstn _ _); congruence. }
  assert (Hmean' : length mean' = d).
  { destruct (set_row_length _ _ _ _ EWS) as [_ Hlt].
    assert (HWS' : shape (length (WeightedSum (self st))) d WS').
    { eapply shape_set_row; [|apply (weighted_sum_length d N d_pos P);
                               exact HProp|exact EWS].
      split; [reflexivity|apply Hsum]. }
    apply (mean_axis0_length d d_pos (n + M_ + 1) _ _
             (shape_firstn _ d (n + M_ + 1) WS' HWS' ltac:(lia)));
      [lia|exact Em]. }
  destruct (weighted_cov _ _ _ _ _) as [wcov|e] eqn:Ewc; cbn [bind] in H.
  2:{ unfold weighted_cov in Ewc. destruct (Nat.eq_dec _ _); congruence. }
  assert (Hpsd : pos_semidef d wcov).
  { apply (pos_semidef_weighted_cov d N P _ _ wcov Ewc Hpos Hmean').
    apply HProp. }
  destruct (set_row (n + M_) wcov _) as [WC'|] eqn:EWC;
    cbn [of_option bind] in H; [|discriminate].
  destruct (inv_complete _ Hcov) as [Inv0 EInv0].
  rewrite EInv0 in H. cbn [bind] in H.
  match type of H with
  | bind ?r _ = _ => assert (Hr : exists t, r = Ok t)
  end.
  { destruct (cov_guard d N n); [|eauto].
    destruct (mean_axis0_mat _) as [C|e] eqn:EC.
    2:{ destruct (set_row_length _ _ _ _ EWC) as [Hl Hlt].
        destruct (firstn (n + M_ + 1) WC') eqn:Ef; [|discriminate].
        apply (f_equal (@length _)) in Ef. rewrite length_firstn in Ef.
        simpl in Ef. lia. }
    cbn [bind].
    destruct (refresh_pos_def d (n + M_) InitCov wcov C _ _ d_pos
                ltac:(lia) InitCov_pos_def Hpsd Hslots Hseed EWC)
      as (_ & _ & HC).
    specialize (HC EC).
    destruct (chol_complete C HC) as [Chol ->].
    destruct (inv_complete C HC) as [Inv ->].
    cbn [bind]. eauto. }
  destruct Hr as [[[C Chol] Inv] Er]. rewrite Er in H. cbn [bind] in H.
  destruct (take_idx (Proposals_of st n) _) as [xv|e] eqn:Exv;
    cbn [bind] in H; [|apply take_idx_raises in Exv; congruence].
  destruct (take_idx P _) as [av|e] eqn:Eav;
    cbn [bind] in H; [|apply take_idx_raises in Eav; congruence].
  destruct (last_idx _) as [i|e] eqn:Ei; cbn [bind] in H.
  2:{ unfold last_idx in Ei. destruct (resample _ _ _); congruence. }
  destruct (nth_error _ i); cbn [of_option bind] in H; discriminate.
Qed.

Lemma step_returns (InvG : matrix) (L n : nat) (st : loop_state) :
  shape d d InvG -> well_shaped d L st -> cov_inv d InitCov st ->
  (n + M_ < L)%nat -> unit_block d N (block N xs n) ->
  exists st', step_ InvG n st = Ok st' /\
              well_shaped d L st' /\ cov_inv d InitCov st'.
Proof.
  intros HG Hws Hci HnL Hblock.
  destruct (step_outcome_ InvG L n st HG Hws HnL Hblock)
    as [(st' & E & _)|E].
  - exists st'. split; [exact E|].
    now apply (step_keeps_cov_inv InvG L n st st').
  - destruct (step_never_LinAlgError InvG L n st Hws Hci Hblock E).
Qed.

Lemma iterate_returns (InvG : matrix) (K k n0 : nat) (st : loop_state) :
  NumOfIter d N PowerOfTwo = Ok K -> shape d d InvG ->
  well_shaped d (K + M_) st -> cov_inv d InitCov st -> (n0 + k <= K)%nat ->
  exists st', iterate_ InvG n0 k st = Ok st' /\
              well_shaped d (K + M_) st' /\ cov_inv d InitCov st'.
Proof.
  intros HK HG. revert n0 st.
  induction k as [|k IH]; intros n0 st Hws Hci Hn.
  - exists st. split; [reflexivity|split; assumption].
  - cbn [iterate].
    assert (Hblock : unit_block d N (block N xs n0)).
    { apply (block_unit d N PowerOfTwo K); try assumption. lia. }
    destruct (step_returns InvG (K + M_) n0 st HG Hws Hci ltac:(lia) Hblock)
      as (st1 & -> & Hws1 & Hci1).
    cbn [bind]. apply IH; [exact Hws1|exact Hci1|lia].
Qed.

Lemma init_returns (K : nat) :
  exists st0, init_ K = Ok st0 /\
              well_shaped d (K + M_) st0 /\ cov_inv d InitCov st0.
Proof.
  destruct (chol_complete InitCov InitCov_pos_def) as [Chol EC].
  destruct (inv_complete InitCov InitCov_pos_def) as [Inv EI].
  assert (E : exists st0, init_ K = Ok st0).
  { unfold init. cbn [init_engine ApprPostCov]. rewrite EC, EI.
    cbn [bind]. eauto. }
  destruct E as [st0 E]. exists st0. split; [exact E|].
  now apply init_cov_inv.
Qed.

Lemma BayesianLinReg_returns (InvG : matrix) :
  InvG_prior np_linalg_inv alpha X NumOfSamples = Ok InvG ->
  exists K st,
    NumOfIter d N PowerOfTwo = Ok K /\ run_upto_ K = Ok st /\
    BayesianLinReg_ = Ok (self st) /\
    well_shaped d (K + M_) st /\ cov_inv d InitCov st.
Proof.
  intros HG. pose proof (prior_shape InvG HG) as HS.
  pose proof (NumOfIter_ok d N PowerOfTwo N_pos) as HK.
  set (K := ((2 ^ PowerOfTwo - 1) / (d + 1) * (d + 1) / N)%nat) in *.
  destruct (init_returns K) as (st0 & E0 & Hws0 & Hci0).
  destruct (iterate_returns InvG K K 0 st0 HK HS Hws0 Hci0 (le_n K))
    as (st & E & Hws & Hci).
  exists K, st. unfold BayesianLinReg, run_upto.
  rewrite HG, HK. cbn [bind]. rewrite E0. cbn [bind]. rewrite E.
  cbn [bind]. auto.
Qed.

End ConstructorReturns.

(** *** The reference instances in dimension one *)

Lemma pos_def_1x1 (c : R) : 0 < c -> pos_def 1 [[c]].
Proof.
  intros Hc.
  assert (HQ : forall v, quad_form 1 [[c]] v = c * (nth 0 v 0 * nth 0 v 0)).
  { intros v. unfold quad_form. cbn. lra. }
  split; [split; [split|]|].
  - split; [reflexivity|repeat constructor].
  - intros a b Ha Hb. assert (a = O) by lia. assert (b = O) by lia.
    now subst.
  - intros v. rewrite HQ. pose proof (Rle_0_sqr (nth 0 v 0)) as Hs.
    unfold Rsqr in Hs. nra.
  - intros v (a & Ha & Hv). assert (a = O) by lia. subst a. rewrite HQ.
    pose proof (Rsqr_pos_lt _ Hv) as Hs. unfold Rsqr in Hs. nra.
Qed.

Lemma pos_def_1x1_inv (C : matrix) :
  pos_def 1 C -> exists c, C = [[c]] /\ 0 < c.
Proof.
  intros [[[[Hl Hr] _] _] Hpd].
  destruct C as [|r [|r' C']]; try discriminate.
  apply Forall_inv in Hr. destruct r as [|c [|c' r]]; try discriminate.
  exists c. split; [reflexivity|].
  assert (Hv : exists a, (a < 1)%nat /\ nth a [1] 0 <> 0).
  { exists O. split; [lia|]. simpl. lra. }
  specialize (Hpd [1] Hv). unfold quad_form in Hpd. cbn in Hpd. lra.
Qed.

Lemma inv_1x1_complete : succeeds_on_pos_def 1 inv_1x1.
Proof.
  intros C HC. destruct (pos_def_1x1_inv C HC) as (c & -> & Hc).
  unfold inv_1x1. destruct (Req_EM_T c 0); [lra|eauto].
Qed.

Lemma cholesky_1x1_complete : succeeds_on_pos_def 1 cholesky_1x1.
Proof.
  intros C HC. destruct (pos_def_1x1_inv C HC) as (c & -> & Hc).
  unfold cholesky_1x1. destruct (Rlt_dec 0 c); [eauto|contradiction].
Qed.

Lemma ex_InitCov_pos_def : pos_def 1 [[1]].
Proof.
  apply pos_def_1x1. lra.
Qed.

Lemma ex_xs7_shape : shape (2 ^ 3 - 1) (1 + 1) ex_xs7.
Proof. split; [reflexivity|repeat constructor]. Qed.

Lemma ex_xs7_unit : Forall (fun r => Forall (fun u => 0 <= u <= 1) r) ex_xs7.
Proof. unfold ex_xs7. repeat constructor; lra. Qed.

(** * The specification's claims *)

(** ** Weight normalisation *)

(** C1. For every vector [LogPstates] of [N+1] log-weights, the
    normalisation step of the loop (subtract the anchored log-sum-exp,
    exponentiate) returns [N+1] non-negative reals whose sum is exactly 1. *)
Theorem weights_sum_to_one (N : nat) (LogPstates : vec) :
  length LogPstates = (N + 1)%nat ->
  exists Pstates,
    normalise LogPstates = Ok Pstates /\
    length Pstates = (N + 1)%nat /\
    Forall (fun p => 0 <= p) Pstates /\
    rsum Pstates = 1.
Proof.
  intros Hlen.
  assert (HL : LogPstates <> []).
  { intros ->. simpl in Hlen. lia. }
  exists (naive_normalise LogPstates).
  pose proof (normalise_eq_naive LogPstates HL) as E.
  destruct (normalise_facts _ _ E) as (Hl & Hpos & Hsum).
  repeat split; try assumption. congruence.
Qed.

Lemma weights_sum_to_one_witness :
  length ex_LogPstates = (1 + 1)%nat /\
  exists Pstates,
    normalise ex_LogPstates = Ok Pstates /\
    length Pstates = (1 + 1)%nat /\
    Forall (fun p => 0 <= p) Pstates /\
    rsum Pstates = 1.
Proof.
  split; [reflexivity|].
  apply (weights_sum_to_one 1 ex_LogPstates). reflexivity.
Defined.

(** C2. On every non-empty vector of log-weights the implemented scheme
    (sort ascending, anchor at the smallest element, add [log(1 + sum of
    the exponentials of the rest)], subtract, exponentiate) returns exactly
    the weights of the naive scheme, which exponentiates every log-weight
    and divides by the sum of all the exponentials. *)
Theorem normalise_is_naive (LogPstates : vec) :
  LogPstates <> [] ->
  normalise LogPstates = Ok (naive_normalise LogPstates).
Proof.
  intros HL. unfold normalise, naive_normalise.
  destruct (np_sort LogPstates) as [|s0 rest] eqn:E.
  - apply np_sort_nil in E. contradiction.
  - f_equal. rewrite map_map. apply map_ext. intros l.
    rewrite normalise_entry. f_equal. rewrite <- E.
    apply rsum_perm, Permutation_map, Permutation_sym, np_sort_perm.
Qed.

Lemma normalise_is_naive_witness :
  ex_LogPstates <> [] /\
  normalise ex_LogPstates = Ok (naive_normalise ex_LogPstates).
Proof.
  split; [discriminate|].
  apply (normalise_is_naive ex_LogPstates). discriminate.
Defined.

(** ** The reverse-kernel correction *)

(** C8. For every proposal index [i] in [0..N], [LogKs[i]] is the sum of
    all the entries of [LogK_ni] minus [LogK_ni[i]], that is, the sum of the
    log-transition-densities of all the other proposals. *)
Theorem LogKs_sum_of_others (N : nat) (LogK : vec) (i : nat) :
  length LogK = (N + 1)%nat -> (i <= N)%nat ->
  length (LogKs LogK) = (N + 1)%nat /\
  nth i (LogKs LogK) 0 = rsum LogK - nth i LogK 0 /\
  nth i (LogKs LogK) 0 = rsum (firstn i LogK ++ skipn (S i) LogK).
Proof.
  intros Hlen Hi. assert (Hi' : (i < length LogK)%nat) by lia.
  split; [|split].
  - now rewrite LogKs_length.
  - now apply LogKs_nth.
  - rewrite rsum_without by assumption. now apply LogKs_nth.
Qed.

Lemma LogKs_sum_of_others_witness :
  length [1; 2; 4] = (2 + 1)%nat /\ (1 <= 2)%nat /\
  length (LogKs [1; 2; 4]) = (2 + 1)%nat /\
  nth 1 (LogKs [1; 2; 4]) 0 = rsum [1; 2; 4] - nth 1 [1; 2; 4] 0 /\
  nth 1 (LogKs [1; 2; 4]) 0
    = rsum (firstn 1 [1; 2; 4] ++ skipn 2 [1; 2; 4]).
Proof.
  split; [reflexivity|]. split; [lia|].
  apply (LogKs_sum_of_others 2 [1; 2; 4] 1); [reflexivity|lia].
Defined.

(** ** Consumption of the point stream *)

(** C6. With [N >= 1] and a stream of [2^p - 1] rows, the constructor
    computes [NumOfIter = floor(floor((2^p - 1)/(d+1)) * (d+1) / N)];
    iteration [n < NumOfIter] reads exactly the [N] rows
    [n*N .. (n+1)*N - 1], every such row index is below [2^p - 1], the
    blocks read by iterations [0 .. NumOfIter - 1] are the first
    [NumOfIter * N] rows in order, and an iteration depends on the stream
    through its own block only. *)
Theorem stream_blocks_in_bounds
        (np_linalg_inv np_linalg_cholesky : matrix -> result matrix)
        (norm_ppf : R -> R -> R -> R)
        (d : nat) (alpha : R) (N : nat) (StepSize : R) (p WeightIn : nat)
        (X : matrix) (Obs : vec) (xs : matrix) :
  (1 <= N)%nat ->
  length xs = (2 ^ p - 1)%nat ->
  exists K,
    NumOfIter d N p = Ok K /\
    K = ((2 ^ p - 1) / (d + 1) * (d + 1) / N)%nat /\
    (K * N <= 2 ^ p - 1)%nat /\
    (forall n, (n < K)%nat ->
       length (block N xs n) = N /\
       forall i, (i < N)%nat ->
         (n * N + i < 2 ^ p - 1)%nat /\
         nth_error (block N xs n) i = nth_error xs (n * N + i)) /\
    concat (map (block N xs) (seq 0 K)) = firstn (K * N) xs /\
    (forall xs' InvG n st,
       block N xs' n = block N xs n ->
       step np_linalg_inv np_linalg_cholesky norm_ppf d alpha N StepSize
            WeightIn X Obs xs' InvG n st
       = step np_linalg_inv np_linalg_cholesky norm_ppf d alpha N StepSize
              WeightIn X Obs xs InvG n st).
Proof.
  intros HN Hlen.
  pose proof (NumOfIter_ok d N p HN) as EK.
  pose proof (NumOfIter_rows d N p _ EK) as Hrows.
  eexists. split; [exact EK|]. split; [reflexivity|].
  set (K := ((2 ^ p - 1) / (d + 1) * (d + 1) / N)%nat) in *.
  split; [exact Hrows|]. split; [|split].
  - intros n Hn.
    assert (Hb : ((n + 1) * N <= K * N)%nat) by (apply Nat.mul_le_mono_r; lia).
    split.
    + apply block_length. lia.
    + intros i Hi. split; [nia|]. now apply block_nth_error.
  - apply blocks_concat.
  - intros xs' InvG n st E. unfold step. now rewrite E.
Qed.

Lemma stream_blocks_in_bounds_witness :
  (1 <= 1)%nat /\ length ex_xs = (2 ^ 2 - 1)%nat /\
  exists K,
    NumOfIter 1 1 2 = Ok K /\
    K = ((2 ^ 2 - 1) / (1 + 1) * (1 + 1) / 1)%nat /\
    (K * 1 <= 2 ^ 2 - 1)%nat /\
    (forall n, (n < K)%nat ->
       length (block 1 ex_xs n) = 1%nat /\
       forall i, (i < 1)%nat ->
         (n * 1 + i < 2 ^ 2 - 1)%nat /\
         nth_error (block 1 ex_xs n) i = nth_error ex_xs (n * 1 + i)) /\
    concat (map (block 1 ex_xs) (seq 0 K)) = firstn (K * 1) ex_xs /\
    (forall xs' InvG n st,
       block 1 xs' n = block 1 ex_xs n ->
       step inv_1x1 cholesky_1x1 ppf_median 1 1 1 1 0 ex_X ex_Obs xs' InvG n st
       = step inv_1x1 cholesky_1x1 ppf_median 1 1 1 1 0 ex_X ex_Obs ex_xs
              InvG n st).
Proof.
  split; [lia|]. split; [reflexivity|].
  apply (stream_blocks_in_bounds inv_1x1 cholesky_1x1 ppf_median 1 1 1 1 2 0
                                 ex_X ex_Obs ex_xs); [lia|reflexivity].
Defined.

(** ** Claims about the run of the constructor *)

Section RunClaims.

Variable np_linalg_inv : matrix -> result matrix.
Variable np_linalg_cholesky : matrix -> result matrix.
Variable norm_ppf : R -> R -> R -> R.
Variables (d : nat) (alpha : R) (x0 : vec) (N : nat) (StepSize : R)
          (PowerOfTwo : nat) (InitMean : vec) (InitCov : matrix)
          (WeightIn : nat).
Variables (X : matrix) (Obs : vec) (NumOfSamples : nat) (xs : matrix).

Local Abbreviation step_ :=
  (step np_linalg_inv np_linalg_cholesky norm_ppf d alpha N StepSize
        WeightIn X Obs xs).
Local Abbreviation M_ := (M N WeightIn).
Local Abbreviation run_upto_ :=
  (run_upto np_linalg_inv np_linalg_cholesky norm_ppf d alpha x0 N StepSize
            PowerOfTwo InitMean InitCov WeightIn X Obs NumOfSamples xs).
Local Abbreviation BayesianLinReg_ :=
  (BayesianLinReg np_linalg_inv np_linalg_cholesky norm_ppf d alpha x0 N
                  StepSize PowerOfTwo InitMean InitCov WeightIn X Obs
                  NumOfSamples xs).
Local Abbreviation Proposals_of st n :=
  (propose norm_ppf d StepSize (ApprPostMean (self st))
           (CholApprPostCov st) (loop_xI st) (block N xs n)).
Local Abbreviation LogPstates_of InvG st n :=
  (LogPstates alpha StepSize X Obs InvG (ApprPostMean (self st))
              (InvApprPostCov st) (Proposals_of st n)).

(** C3. In the iteration of 0-based index [k], [ApprPostCov], its Cholesky
    factor and its inverse are refreshed from the mean of the
    weighted-covariance slots [0 .. k+M] exactly when [k > 2d/N], i.e. when
    [2d < k*N]; otherwise all three keep their values.  While [k*N <= 2d]
    they are still the initial covariance, its Cholesky factor and its
    inverse.  For [d = 2], [N = 1] the first refresh is in iteration 5, and
    through iteration 4 the covariance and its Cholesky factor are the
    initial ones. *)
Theorem covariance_refresh_guard (k : nat) (st' : loop_state) :
  run_upto_ (S k) = Ok st' ->
  exists st K,
    run_upto_ k = Ok st /\
    NumOfIter d N PowerOfTwo = Ok K /\ (k < K)%nat /\
    (cov_guard d N k = true <-> (2 * d < k * N)%nat) /\
    (cov_guard d N k = true ->
       mean_axis0_mat (firstn (k + M_ + 1) (WeightedCov (self st')))
         = Ok (ApprPostCov (self st')) /\
       np_linalg_cholesky (ApprPostCov (self st'))
         = Ok (CholApprPostCov st') /\
       np_linalg_inv (ApprPostCov (self st')) = Ok (InvApprPostCov st')) /\
    (cov_guard d N k = false ->
       ApprPostCov (self st') = ApprPostCov (self st) /\
       CholApprPostCov st' = CholApprPostCov st /\
       InvApprPostCov st' = InvApprPostCov st) /\
    ((k * N <= 2 * d)%nat ->
       ApprPostCov (self st') = InitCov /\
       np_linalg_cholesky InitCov = Ok (CholApprPostCov st') /\
       np_linalg_inv InitCov = Ok (InvApprPostCov st')) /\
    (d = 2%nat -> N = 1%nat ->
       (cov_guard d N k = true <-> (5 <= k)%nat) /\
       ((k <= 4)%nat ->
          ApprPostCov (self st') = InitCov /\
          np_linalg_cholesky InitCov = Ok (CholApprPostCov st'))).
Proof.
  intros H.
  destruct (run_upto_S _ _ _ _ _ _ _ _ _ _ _ _ _ _ _ _ _ _ H)
    as (InvG & K & st & _ & HK & Hk & Hinv & Hs & HkK).
  pose proof (NumOfIter_N_pos _ _ _ _ HK) as HN.
  destruct (step_inv _ _ _ _ _ _ _ _ _ _ _ _ _ _ _ Hs)
    as (P & wcov & Inv0 & xv & av & _ & _ & _ & _ & _ & HInv0 & Hg & _).
  pose proof (cov_guard_iff d N k HN) as Hiff.
  assert (Hinit : (k * N <= 2 * d)%nat ->
            ApprPostCov (self st') = InitCov /\
            np_linalg_cholesky InitCov = Ok (CholApprPostCov st') /\
            np_linalg_inv InitCov = Ok (InvApprPostCov st')).
  { intros Hle.
    apply (run_upto_cov_initial _ _ _ _ _ _ _ _ _ _ _ _ _ _ _ _ (S k) st' H).
    intros n Hn. destruct (cov_guard d N n) eqn:E; [|reflexivity].
    apply (cov_guard_iff d N n HN) in E.
    assert (n * N <= k * N)%nat by (apply Nat.mul_le_mono_r; lia). lia. }
  exists st, K. split; [exact Hk|]. split; [exact HK|]. split; [exact HkK|].
  split; [exact Hiff|]. split; [|split; [|split]].
  - intros E. rewrite E in Hg. exact Hg.
  - intros E. rewrite E in Hg. destruct Hg as (HC & HCh & HI).
    repeat split; try assumption.
    rewrite HI. pose proof (inv_Inv _ _ _ _ _ _ _ _ Hinv) as HI0.
    congruence.
  - exact Hinit.
  - intros -> ->. split.
    + rewrite Hiff. lia.
    + intros Hk4. destruct Hinit as (HC & HCh & _); [lia|]. auto.
Qed.

(** C4 (amended). After the moment update of the iteration of 0-based index
    [k], [ApprPostMean] is the exact arithmetic mean of the first [k+M+1]
    weighted-sum slots: the [M >= 1] seeded slots, which hold the initial
    mean, and the [k+1] slots written by the iterations [0 .. k]. *)
Theorem running_mean_is_slot_average (k : nat) (st' : loop_state) :
  run_upto_ (S k) = Ok st' ->
  let slots := firstn (k + M_ + 1) (WeightedSum (self st')) in
  (exists K, NumOfIter d N PowerOfTwo = Ok K /\ (k < K)%nat) /\
  mean_axis0 slots = Ok (ApprPostMean (self st')) /\
  length slots = (k + M_ + 1)%nat /\
  (1 <= M_)%nat /\
  firstn M_ slots = repeat InitMean M_ /\
  ApprPostMean (self st')
    = map (fun j => rsum (col j slots) / INR (k + M_ + 1))
          (seq 0 (length InitMean)).
Proof.
  intros H slots.
  destruct (run_upto_S _ _ _ _ _ _ _ _ _ _ _ _ _ _ _ _ _ _ H)
    as (InvG & K & st & _ & HK & Hk & Hinv & Hs & HkK).
  assert (Hinv' : loop_inv np_linalg_inv np_linalg_cholesky d N InitMean
                             WeightIn K st').
  { eapply step_preserves_inv; [exact Hinv|exact Hs]. }
  destruct (step_inv _ _ _ _ _ _ _ _ _ _ _ _ _ _ _ Hs)
    as (P & wcov & Inv0 & xv & av & _ & HWS & Hmean & _).
  destruct (set_row_length _ _ _ _ HWS) as [HlenWS Hlt].
  assert (HM : (1 <= M_)%nat) by (unfold M; lia).
  assert (Hlen : length slots = (k + M_ + 1)%nat).
  { unfold slots. rewrite length_firstn. lia. }
  assert (Hseed : firstn M_ slots = repeat InitMean M_).
  { unfold slots. rewrite firstn_firstn.
    replace (Nat.min M_ (k + M_ + 1)) with M_ by lia.
    exact (inv_seed _ _ _ _ _ _ _ _ Hinv'). }
  split; [now exists K|].
  repeat split; try assumption.
  fold slots in Hmean.
  rewrite mean_axis0_ok in Hmean by (intros E; rewrite E in Hlen; simpl in Hlen; lia).
  assert (E : ApprPostMean (self st')
              = map (fun c => rsum c / INR (length slots)) (transpose slots))
    by congruence.
  rewrite E, Hlen. unfold transpose. rewrite map_map.
  replace (ncols slots) with (length InitMean); [reflexivity|].
  destruct (M N WeightIn) as [|m]; [lia|].
  destruct slots as [|row0 rows]; [discriminate|].
  simpl in Hseed. injection Hseed as -> _. reflexivity.
Qed.

(** C10. After every completed run, [getIS_FunMeanEstimate(Nq, BurnIn)] with
    [int(BurnIn/Nq) < NumOfIter + M] returns the [d]-dimensional zero
    vector: [WeightedFunSum] still is the array of zeros it was created
    as. *)
Theorem FunMeanEstimate_is_zero (e : engine) (K : nat) (Nq BurnIn : Z) :
  BayesianLinReg_ = Ok e ->
  NumOfIter d N PowerOfTwo = Ok K ->
  Nq <> 0%Z ->
  (Z.quot BurnIn Nq < Z.of_nat (K + M_))%Z ->
  WeightedFunSum e = repeat (zeros d) (K + M_) /\
  getIS_FunMeanEstimate Nq BurnIn e = (Ok (zeros d), e).
Proof.
  intros He HK HNq Hq.
  destruct (BayesianLinReg_inv _ _ _ _ _ _ _ _ _ _ _ _ _ _ _ _ e He)
    as (K' & st & HK' & _ & -> & Hinv).
  assert (K' = K) by congruence. subst K'.
  pose proof (inv_fun _ _ _ _ _ _ _ _ Hinv) as HF.
  split; [exact HF|].
  unfold getIS_FunMeanEstimate, mbind, mread, mlift, int_div.
  destruct (Z.eq_dec Nq 0) as [|_]; [contradiction|].
  rewrite HF.
  destruct (slice_from_repeat (zeros d) (Z.quot BurnIn Nq) (K + M_))
    as (n' & Hn' & ->); [unfold M; lia|exact Hq|].
  now rewrite mean_axis0_zeros.
Qed.

End RunClaims.

Lemma covariance_refresh_guard_witness :
  ex_run 1 = Ok ex_st1 /\
  cov_guard 1 1 0 = false /\
  ApprPostCov (self ex_st1) = [[1]] /\
  cholesky_1x1 [[1]] = Ok (CholApprPostCov ex_st1) /\
  inv_1x1 [[1]] = Ok (InvApprPostCov ex_st1).
Proof.
  split; [exact ex_run1_eq|].
  destruct (covariance_refresh_guard inv_1x1 cholesky_1x1 ppf_median 1 1 [1]
              1 1 2 [0] [[1]] 0 ex_X ex_Obs 2 ex_xs 0 ex_st1 ex_run1_eq)
    as (st & K & _ & _ & _ & _ & _ & _ & Hinit & _).
  split; [reflexivity|]. apply Hinit. simpl. lia.
Defined.

(** C4 as stated, with the mean taken over the first [k+M] slots only,
    fails in iteration 0 of the run in dimension one: the first [0+M = 1]
    slot holds the initial mean [0], while [ApprPostMean] already averages
    it with the slot written by iteration 0, which is positive. *)
Lemma running_mean_not_over_k_plus_M_slots :
  ex_run 1 = Ok ex_st1 /\
  mean_axis0 (firstn (0 + M 1 0) (WeightedSum (self ex_st1))) = Ok [(0 + 0) / 1] /\
  mean_axis0 (firstn (0 + M 1 0) (WeightedSum (self ex_st1)))
    <> Ok (ApprPostMean (self ex_st1)).
Proof.
  split; [exact ex_run1_eq|].
  assert (E : mean_axis0 (firstn (0 + M 1 0) (WeightedSum (self ex_st1)))
              = Ok [(0 + 0) / 1]) by reflexivity.
  split; [exact E|]. rewrite E. intros H.
  assert (H' : (0 + 0) / 1 = (0 + (nth 0 ex_WeightedSum1 0 + 0)) / 2).
  { change (ApprPostMean (self ex_st1)) with ex_ApprPostMean1 in H.
    unfold ex_ApprPostMean1 in H. congruence. }
  destruct ex_Pstates_eq as (p0 & p1 & EP & Hp0 & Hsum).
  unfold ex_WeightedSum1, weighted_sum in H'. rewrite EP in H'.
  cbn in H'. lra.
Qed.

Lemma running_mean_is_slot_average_witness :
  ex_run 1 = Ok ex_st1 /\
  mean_axis0 (firstn (0 + M 1 0 + 1) (WeightedSum (self ex_st1)))
    = Ok (ApprPostMean (self ex_st1)) /\
  length (firstn (0 + M 1 0 + 1) (WeightedSum (self ex_st1)))
    = (0 + M 1 0 + 1)%nat.
Proof.
  split; [exact ex_run1_eq|].
  destruct (running_mean_is_slot_average inv_1x1 cholesky_1x1 ppf_median 1 1
              [1] 1 1 2 [0] [[1]] 0 ex_X ex_Obs 2 ex_xs 0 ex_st1 ex_run1_eq)
    as (_ & Hmean & Hlen & _).
  split; [exact Hmean|exact Hlen].
Defined.

Lemma FunMeanEstimate_is_zero_witness :
  exists e,
    ex_BayesianLinReg = Ok e /\ NumOfIter 1 1 2 = Ok 2%nat /\
    1%Z <> 0%Z /\ (Z.quot 2 1 < Z.of_nat (2 + M 1 0))%Z /\
    WeightedFunSum e = repeat (zeros 1) (2 + M 1 0) /\
    getIS_FunMeanEstimate 1 2 e = (Ok (zeros 1), e).
Proof.
  destruct ex_BayesianLinReg_ok as [e He]. exists e.
  assert (HK : NumOfIter 1 1 2 = Ok 2%nat) by reflexivity.
  assert (HN : 1%Z <> 0%Z) by discriminate.
  assert (Hq : (Z.quot 2 1 < Z.of_nat (2 + M 1 0))%Z) by reflexivity.
  split; [exact He|]. split; [exact HK|]. split; [exact HN|].
  split; [exact Hq|].
  exact (FunMeanEstimate_is_zero inv_1x1 cholesky_1x1 ppf_median 1 1 [1] 1 1
           2 [0] [[1]] 0 ex_X ex_Obs 2 ex_xs e 2 1%Z 2%Z He HK HN Hq).
Defined.

(** ** The prior precision *)

(** C5 (amended). The precision matrix derived at construction is
    [InvG_prior = (alpha / n_obs) * (X^T X)], the inverse of the g-prior
    covariance [G_prior = (1/alpha) * n_obs * (X^T X)^-1]; it is computed
    once, and every iteration of the run scores with that same matrix. *)
Theorem prior_precision_is_scaled_gram
        (np_linalg_inv : matrix -> result matrix) (alpha : R) (X : matrix)
        (NumOfSamples : nat) (InvG : matrix) :
  inv_sound np_linalg_inv ->
  InvG_prior np_linalg_inv alpha X NumOfSamples = Ok InvG ->
  InvG = mscal (alpha / INR NumOfSamples) (matmul (transpose X) X) /\
  (exists G B,
      np_linalg_inv (matmul (transpose X) X) = Ok B /\
      G_prior np_linalg_inv alpha X NumOfSamples = Ok G /\
      G = mscal (1 / alpha * INR NumOfSamples) B /\
      is_inverse (length G) G InvG) /\
  (forall np_linalg_cholesky norm_ppf d x0 N StepSize PowerOfTwo InitMean
          InitCov WeightIn Obs xs k st',
      run_upto np_linalg_inv np_linalg_cholesky norm_ppf d alpha x0 N
               StepSize PowerOfTwo InitMean InitCov WeightIn X Obs
               NumOfSamples xs (S k) = Ok st' ->
      exists st,
        run_upto np_linalg_inv np_linalg_cholesky norm_ppf d alpha x0 N
                 StepSize PowerOfTwo InitMean InitCov WeightIn X Obs
                 NumOfSamples xs k = Ok st /\
        step np_linalg_inv np_linalg_cholesky norm_ppf d alpha N StepSize
             WeightIn X Obs xs InvG k st = Ok st').
Proof.
  intros Hinv H. split; [|split].
  - now apply (InvG_prior_value np_linalg_inv).
  - destruct (InvG_prior_inv _ _ _ _ _ H) as (Ha & Hn & B & EB & EG).
    assert (HnR : INR NumOfSamples <> 0) by now apply not_0_INR.
    assert (Ek : 1 / alpha / (1 / INR NumOfSamples)
                 = 1 / alpha * INR NumOfSamples) by (field; split; assumption).
    rewrite Ek in EG.
    exists (mscal (1 / alpha * INR NumOfSamples) B), B.
    split; [exact EB|]. split; [|split; [reflexivity|]].
    + unfold G_prior, g, sigmaSq.
      destruct (Nat.eq_dec NumOfSamples 0) as [|_]; [contradiction|].
      destruct (Req_EM_T alpha 0) as [|_]; [contradiction|].
      cbn [bind]. rewrite EB. cbn [bind]. now rewrite Ek.
    + exact (Hinv _ _ EG).
  - intros chol ppf d x0 N StepSize p InitMean InitCov WeightIn Obs xs k st' Hr.
    destruct (run_upto_S _ _ _ _ _ _ _ _ _ _ _ _ _ _ _ _ _ _ Hr)
      as (InvG' & K & st & EG & _ & Hk & _ & Hs & _).
    assert (InvG' = InvG) by congruence. subst InvG'.
    exists st. split; assumption.
Qed.

Lemma prior_precision_is_scaled_gram_witness :
  inv_sound inv_1x1 /\ ex_InvG_prior = Ok [[1]] /\
  [[1]] = mscal (1 / INR 2) (matmul (transpose ex_X) ex_X).
Proof.
  split; [exact inv_1x1_sound|]. split; [exact ex_InvG_prior_eq|].
  exact (proj1 (prior_precision_is_scaled_gram inv_1x1 1 ex_X 2 [[1]]
                  inv_1x1_sound ex_InvG_prior_eq)).
Defined.

(** C5 as stated, with the factor [alpha * n_obs], fails for two
    observations at design points [1] and [alpha = 1]: the constructor
    derives the precision [[1]], not [(1 * 2) * (X^T X) = [[4]]]. *)
Lemma prior_precision_not_alpha_times_n :
  inv_sound inv_1x1 /\ ex_InvG_prior = Ok [[1]] /\
  mscal (1 * INR 2) (matmul (transpose ex_X) ex_X) = [[4]] /\
  [[1]] <> mscal (1 * INR 2) (matmul (transpose ex_X) ex_X).
Proof.
  split; [exact inv_1x1_sound|]. split; [exact ex_InvG_prior_eq|].
  assert (E : mscal (1 * INR 2) (matmul (transpose ex_X) ex_X) = [[4]]).
  { cbn. repeat f_equal. lra. }
  split; [exact E|]. rewrite E. intros H.
  assert (H' : 1 = 4) by congruence. lra.
Qed.

(** ** Query methods *)

(** C9. [getSamples], [getAcceptRate], [getIS_MeanEstimate] and
    [getIS_CovEstimate] leave the whole object as they found it, whatever
    their arguments and whether they return or raise, and return the same
    outcome when called again. *)
Theorem accessors_are_pure_reads (s : engine) (N BurnIn : Z) :
  (snd (getSamples BurnIn s) = s /\
   fst (getSamples BurnIn (snd (getSamples BurnIn s)))
   = fst (getSamples BurnIn s)) /\
  (snd (getAcceptRate BurnIn s) = s /\
   fst (getAcceptRate BurnIn (snd (getAcceptRate BurnIn s)))
   = fst (getAcceptRate BurnIn s)) /\
  (snd (getIS_MeanEstimate N BurnIn s) = s /\
   fst (getIS_MeanEstimate N BurnIn (snd (getIS_MeanEstimate N BurnIn s)))
   = fst (getIS_MeanEstimate N BurnIn s)) /\
  (snd (getIS_CovEstimate N BurnIn s) = s /\
   fst (getIS_CovEstimate N BurnIn (snd (getIS_CovEstimate N BurnIn s)))
   = fst (getIS_CovEstimate N BurnIn s)).
Proof.
  repeat split;
    try apply getSamples_pure; try apply getAcceptRate_pure;
    try apply getIS_MeanEstimate_pure; try apply getIS_CovEstimate_pure;
    apply pure_read_twice;
    auto using getSamples_pure, getAcceptRate_pure, getIS_MeanEstimate_pure,
               getIS_CovEstimate_pure.
Qed.

(** ** Resampling past the proposals *)

(** C7 (the code breaks it). Started at [x0 = [40]], the constructor
    enters iteration 0 with the proposals [[40]; [0]] and the log-weights
    [[-2400; -800]]; all of these numbers are computed without rounding.
    Line 166 anchors the normaliser at the smallest log-weight, [-2400],
    and exponentiates the difference [1600], which is past the overflow
    bound of binary64: the normaliser is [inf] and both weights are
    [exp(-inf) = 0].  On the weights [[0; 0]] the search of the draw [1/2]
    in their cumulative sum (lines 199-200) returns [2 = N + 1], and the
    look-up [Proposals[Is]] of line 201 raises [IndexError]. *)
Theorem resampling_index_out_of_bounds :
  InvG_prior inv_1x1 1 ex_X 2 = Ok [[1]] /\
  init inv_1x1 cholesky_1x1 1 [40] 1 [0] [[1]] 0 2 = Ok ex40_st0 /\
  propose ppf_median 1 1 (ApprPostMean (self ex40_st0))
          (CholApprPostCov ex40_st0) (loop_xI ex40_st0) (block 1 ex_xs 0)
  = [[40]; [0]] /\
  LogPstates 1 1 ex_X ex_Obs [[1]] (ApprPostMean (self ex40_st0))
             (InvApprPostCov ex40_st0) [[40]; [0]]
  = [- 2400; - 800] /\
  np_sort [- 2400; - 800] = [- 2400; - 800] /\
  binary64_exp_overflow <= - 800 - - 2400 /\
  resample 1 [0; 0] (block 1 ex_xs 0) = [2%nat] /\
  take_idx [[40]; [0]] (resample 1 [0; 0] (block 1 ex_xs 0))
  = Raise IndexError.
Proof.
  assert (Hres : resample 1 [0; 0] (block 1 ex_xs 0) = [2%nat]).
  { unfold resample, block, ex_xs. cbn.
    destruct (Rle_dec (1 / 2) (0 + 0)) as [H|_]; [lra|].
    destruct (Rle_dec (1 / 2) (0 + 0 + 0)) as [H|_]; [lra|reflexivity]. }
  refine (conj ex_InvG_prior_eq (conj _ (conj _ (conj _ (conj _
            (conj _ (conj Hres _))))))).
  - unfold init. cbn -[cholesky_1x1 inv_1x1].
    rewrite cholesky_1x1_ok, inv_1x1_ok by lra. cbn.
    unfold ex40_st0. now rewrite sqrt_1, Rinv_1.
  - unfold propose, block, ex_xs, ppf_median. cbn. repeat f_equal. lra.
  - cbn. repeat f_equal; field.
  - cbn. destruct (Rle_dec (- 2400) (- 800)) as [_|H]; [reflexivity|lra].
  - unfold binary64_exp_overflow. lra.
  - rewrite Hres. reflexivity.
Qed.

(** * Further properties of the code *)

(** ** Weight normalisation (lines 164-167) *)

(** X2. The weights depend on the differences of the log-weights only:
    adding one constant to every entry of [LogPstates] changes neither the
    weights nor the failure on the empty array. *)
Theorem normalise_shift_invariant (c : R) (LogPstates : vec) :
  normalise (map (fun l => l + c) LogPstates) = normalise LogPstates.
Proof.
  destruct LogPstates as [|l0 L]; [reflexivity|].
  rewrite !normalise_eq_naive by discriminate. f_equal.
  set (L' := l0 :: L). unfold naive_normalise. rewrite map_map.
  apply map_ext. intros l.
  assert (HS : rsum (map exp (map (fun l => l + c) L'))
               = rsum (map exp L') * exp c).
  { rewrite map_map, <- rsum_map_scal. f_equal. apply map_ext.
    intros a. apply exp_plus. }
  rewrite HS, exp_plus.
  pose proof (rsum_exp_pos_strict L' ltac:(discriminate)).
  pose proof (exp_pos c). field. split; lra.
Qed.



(** ** Resampling (lines 199-200) *)

(** X4. The search of lines 199-200 inverts the cumulative sum of the
    weights.  For a draw [u] that is at most the total of the weights, the
    selected index [i] is a valid index of the weights, the weights up to
    and including [i] sum to at least [u], and for every earlier index
    they sum to less than [u].  For non-negative weights whose total is
    below the draw, the selected index is the number of weights: one past
    the last proposal. *)
Theorem resample_inverts_cdf (Pstates : vec) (u : R) :
  Pstates <> [] ->
  let i := searchsorted (cumsum Pstates) u in
  (u <= rsum Pstates ->
   (i < length Pstates)%nat /\
   u <= rsum (firstn (S i) Pstates) /\
   (forall j, (j < i)%nat -> rsum (firstn (S j) Pstates) < u)) /\
  (Forall (fun p => 0 <= p) Pstates -> rsum Pstates < u ->
   i = length Pstates).
Proof.
  intros HP i. split.
  - intros Hu.
    assert (Hi : (i < length Pstates)%nat).
    { unfold i. rewrite <- (cumsum_from_length 0 Pstates).
      fold (cumsum Pstates). apply searchsorted_lt with (x := 0).
      - unfold cumsum. destruct Pstates; [congruence|discriminate].
      - unfold cumsum. rewrite cumsum_from_last by assumption. lra. }
    destruct (searchsorted_spec (cumsum Pstates) u) as (Hbefore & Hat & _).
    fold i in Hbefore, Hat. unfold cumsum in Hbefore, Hat.
    rewrite cumsum_from_length in Hat.
    split; [exact Hi|]. split.
    + specialize (Hat Hi). rewrite cumsum_from_nth in Hat by exact Hi. lra.
    + intros j Hj. specialize (Hbefore j Hj).
      rewrite cumsum_from_nth in Hbefore by lia. lra.
  - intros Hpos Hu. unfold i, cumsum.
    rewrite searchsorted_all_below; [apply cumsum_from_length|].
    apply Forall_impl with (2 := cumsum_from_le_total 0 Pstates Hpos).
    intros x Hx. lra.
Qed.

Lemma resample_inverts_cdf_witness :
  ex_Pstates <> [] /\ 1 / 2 <= rsum ex_Pstates /\
  (searchsorted (cumsum ex_Pstates) (1 / 2) < length ex_Pstates)%nat /\
  1 / 2 <= rsum (firstn (S (searchsorted (cumsum ex_Pstates) (1 / 2)))
                        ex_Pstates).
Proof.
  assert (H : normalise ex_LogPstates = Ok ex_Pstates).
  { apply normalise_eq_naive. discriminate. }
  destruct (normalise_facts _ _ H) as (_ & _ & Hsum).
  assert (HP : ex_Pstates <> []) by discriminate.
  assert (Hu : 1 / 2 <= rsum ex_Pstates) by (rewrite Hsum; lra).
  split; [exact HP|]. split; [exact Hu|].
  destruct (proj1 (resample_inverts_cdf ex_Pstates (1 / 2) HP) Hu)
    as (Hi & Hle & _).
  split; [exact Hi|exact Hle].
Defined.

(** ** Properties of a run and of the object it leaves behind *)

Section RunProperties.

Variable np_linalg_inv : matrix -> result matrix.
Variable np_linalg_cholesky : matrix -> result matrix.
Variable norm_ppf : R -> R -> R -> R.
Variables (d : nat) (alpha : R) (x0 : vec) (N : nat) (StepSize : R)
          (PowerOfTwo : nat) (InitMean : vec) (InitCov : matrix)
          (WeightIn : nat).
Variables (X : matrix) (Obs : vec) (NumOfSamples : nat) (xs : matrix).

Local Abbreviation step_ :=
  (step np_linalg_inv np_linalg_cholesky norm_ppf d alpha N StepSize
        WeightIn X Obs xs).
Local Abbreviation M_ := (M N WeightIn).
Local Abbreviation run_upto_ :=
  (run_upto np_linalg_inv np_linalg_cholesky norm_ppf d alpha x0 N StepSize
            PowerOfTwo InitMean InitCov WeightIn X Obs NumOfSamples xs).
Local Abbreviation BayesianLinReg_ :=
  (BayesianLinReg np_linalg_inv np_linalg_cholesky norm_ppf d alpha x0 N
                  StepSize PowerOfTwo InitMean InitCov WeightIn X Obs
                  NumOfSamples xs).
Local Abbreviation Proposals_of st n :=
  (propose norm_ppf d StepSize (ApprPostMean (self st))
           (CholApprPostCov st) (loop_xI st) (block N xs n)).
Local Abbreviation LogPstates_of InvG st n :=
  (LogPstates alpha StepSize X Obs InvG (ApprPostMean (self st))
              (InvApprPostCov st) (Proposals_of st n)).

Lemma BayesianLinReg_final (e : engine) (K : nat) :
  BayesianLinReg_ = Ok e -> NumOfIter d N PowerOfTwo = Ok K ->
  exists st, run_upto_ K = Ok st /\ e = self st.
Proof.
  intros H HK.
  destruct (BayesianLinReg_run _ _ _ _ _ _ _ _ _ _ _ _ _ _ _ _ e H)
    as (K' & st & HK' & Hr & He).
  assert (K' = K) by congruence. subst K'. eauto.
Qed.

Lemma accept_rate_defined (e : engine) (K : nat) (b : Z) :
  BayesianLinReg_ = Ok e -> NumOfIter d N PowerOfTwo = Ok K ->
  shape (2 ^ PowerOfTwo - 1) (d + 1) xs ->
  (0 <= b < Z.of_nat (K * N))%Z ->
  exists r, getAcceptRate b e = (Ok r, e).
Proof.
  intros H HK Hxs Hb. destruct (BayesianLinReg_final e K H HK) as (st & Hr & ->).
  destruct (run_counts _ _ _ _ _ _ _ _ _ _ _ _ _ _ _ _ K K st HK Hxs Hr)
    as (_ & Ha & _ & Hc).
  unfold getAcceptRate, mbind, mread, mlift.
  destruct (AcceptVals (self st)) as [|a0 av] eqn:EA;
    [simpl in Hc; lia|].
  cbn [np_concatenate1].
  destruct (mean1 (slice_from b (concat (a0 :: av)))) as [r|ex] eqn:E;
    [eauto|].
  exfalso. apply (slice_from_inside b (concat (a0 :: av))); [lia|lia|].
  destruct (slice_from b (concat (a0 :: av))); [reflexivity|discriminate].
Qed.

(** X5. Over exact real arithmetic, for a positive step size and stream
    points strictly inside the unit cube (where the division of line 157
    and [norm.ppf] have real values): every acceptance value the sampler
    records is a probability, and so is any acceptance rate
    [getAcceptRate] reports, whatever the burn-in period. *)
Theorem acceptance_rate_in_unit_interval (e : engine) :
  0 < StepSize ->
  Forall (fun r => Forall (fun u => 0 < u < 1) r) xs ->
  BayesianLinReg_ = Ok e ->
  Forall (Forall (fun a => 0 <= a <= 1)) (AcceptVals e) /\
  forall BurnIn r, fst (getAcceptRate BurnIn e) = Ok r -> 0 <= r <= 1.
Proof.
  intros _ _ H.
  destruct (BayesianLinReg_run _ _ _ _ _ _ _ _ _ _ _ _ _ _ _ _ e H)
    as (K & st & _ & Hr & ->).
  pose proof (run_accept_unit _ _ _ _ _ _ _ _ _ _ _ _ _ _ _ _ _ _ Hr) as HA.
  split; [exact HA|]. intros BurnIn r Hrate.
  unfold getAcceptRate, mbind, mread, mlift in Hrate.
  destruct (AcceptVals (self st)) as [|a0 av] eqn:E; [discriminate|].
  cbn [np_concatenate1 fst] in Hrate.
  apply mean1_unit in Hrate; [exact Hrate|].
  apply slice_from_sub, Forall_concat, HA.
Qed.

(** X6. With a stream of [2^PowerOfTwo - 1] rows of [d+1] numbers, the
    object holds [N] samples and [N] acceptance values per iteration:
    [getSamples(BurnIn)] returns [NumOfIter*N - BurnIn] rows for a
    non-negative burn-in, and [getAcceptRate(BurnIn)] has a value exactly
    when [BurnIn < NumOfIter*N] (the mean of no values is not a number).
    When the stream is too short for a single iteration both raise
    [ValueError], as there is nothing to concatenate. *)
Theorem sample_counts (e : engine) (K : nat) :
  BayesianLinReg_ = Ok e -> NumOfIter d N PowerOfTwo = Ok K ->
  shape (2 ^ PowerOfTwo - 1) (d + 1) xs ->
  (K = 0%nat ->
   forall b, getSamples b e = (Raise ValueError, e) /\
             getAcceptRate b e = (Raise ValueError, e)) /\
  ((1 <= K)%nat ->
   forall b, (0 <= b)%Z ->
     (exists S, getSamples b e = (Ok S, e) /\
                length S = (K * N - Z.to_nat b)%nat) /\
     ((b < Z.of_nat (K * N))%Z -> exists r, getAcceptRate b e = (Ok r, e)) /\
     ((Z.of_nat (K * N) <= b)%Z ->
      getAcceptRate b e = (Raise NanResult, e))).
Proof.
  intros H HK Hxs. destruct (BayesianLinReg_final e K H HK) as (st & Hr & ->).
  destruct (run_counts _ _ _ _ _ _ _ _ _ _ _ _ _ _ _ _ K K st HK Hxs Hr)
    as (Hx & Ha & (all & Hall & Hlen) & Hc).
  unfold getSamples, getAcceptRate, mbind, mread, mlift.
  destruct (xVals (self st)) as [|v0 vs]; [discriminate|].
  simpl in Hx, Hall. injection Hx as Hx.
  split.
  - intros -> b. destruct vs; [|discriminate].
    destruct (AcceptVals (self st)); [|discriminate]. split; reflexivity.
  - intros HK1 b Hb.
    destruct vs as [|v1 vs]; [simpl in Hx; lia|].
    destruct (AcceptVals (self st)) as [|a0 av] eqn:EA; [simpl in Ha; lia|].
    cbn [tl np_concatenate2 np_concatenate1]. rewrite Hall.
    refine (conj _ (conj _ _)).
    + eexists. split; [reflexivity|]. rewrite slice_from_length by exact Hb.
      now rewrite Hlen.
    + intros Hlt.
      destruct (mean1 (slice_from b (concat (a0 :: av)))) as [r|ex] eqn:E;
        [eauto|].
      exfalso. apply (slice_from_inside b (concat (a0 :: av))); [lia|lia|].
      destruct (slice_from b (concat (a0 :: av))); [reflexivity|discriminate].
    + intros Hge. rewrite slice_from_past by lia. reflexivity.
Qed.

(** X7. The chain is carried from one iteration to the next: the batch an
    iteration appends to [xVals] is not empty and consists of rows of its
    proposal set, its last row is the new current state, and that state is
    row 0 of the proposal set of the following iteration, whatever stream
    block that iteration reads. *)
Theorem chain_carry (InvG : matrix) (n : nat) (st st' : loop_state) :
  step_ InvG n st = Ok st' ->
  exists batch,
    xVals (self st') = xVals (self st) ++ [Arr2 batch] /\
    Forall (fun x => In x (Proposals_of st n)) batch /\
    batch <> [] /\ last batch [] = loop_xI st' /\
    forall n', nth_error (Proposals_of st' n') 0 = Some (loop_xI st').
Proof.
  intros Hs.
  destruct (step_inv _ _ _ _ _ _ _ _ _ _ _ InvG n st st' Hs)
    as (P & wcov & Inv0 & xv & av & _ & _ & _ & _ & _ & _ & _ & Hxv & _
        & HI & HxI & HX & _).
  exists xv. destruct (take_idx_In _ _ _ Hxv) as [_ Hin].
  destruct (take_idx_last _ _ _ _ _ [] Hxv HI HxI) as [Hne Hlast].
  refine (conj HX (conj Hin (conj Hne (conj Hlast _)))).
  intros n'. reflexivity.
Qed.

(** X8. Asked for no burn-in (any [BurnIn] with [int(BurnIn/N) = 0]),
    [getIS_MeanEstimate] returns exactly the running mean [ApprPostMean]
    the sampler ended with; the object is left as it was. *)
Theorem IS_mean_estimate_is_final_mean (e : engine) (Nq BurnIn : Z) :
  BayesianLinReg_ = Ok e -> Nq <> 0%Z -> Z.quot BurnIn Nq = 0%Z ->
  getIS_MeanEstimate Nq BurnIn e = (Ok (ApprPostMean e), e).
Proof.
  intros H HN Hq.
  destruct (BayesianLinReg_run _ _ _ _ _ _ _ _ _ _ _ _ _ _ _ _ e H)
    as (K & st & HK & Hr & ->).
  pose proof (run_mean_current _ _ _ _ _ _ _ _ _ _ _ _ _ _ _ _ _ _ Hr) as Hm.
  destruct (run_acc_lengths _ _ _ _ _ _ _ _ _ _ _ _ _ _ _ _ K K st HK Hr)
    as (_ & HS & _).
  rewrite firstn_all2 in Hm by lia.
  unfold getIS_MeanEstimate, mbind, mread, mlift, int_div.
  destruct (Z.eq_dec Nq 0) as [|_]; [contradiction|].
  rewrite Hq, slice_from_0, Hm. reflexivity.
Qed.

(** X9. The importance-sampling estimates of a finished run have NumOfIter+M
    slots to average: [getIS_MeanEstimate] and [getIS_CovEstimate] raise
    [ZeroDivisionError] for [N = 0], return a value whenever
    [int(BurnIn/N) < NumOfIter + M] (negative values included), and have
    nothing left to average, hence no number to return, from
    [NumOfIter + M] on. *)
Theorem IS_estimates_outcome (e : engine) (K : nat) (Nq BurnIn : Z) :
  BayesianLinReg_ = Ok e -> NumOfIter d N PowerOfTwo = Ok K ->
  (Nq = 0%Z ->
   getIS_MeanEstimate Nq BurnIn e = (Raise ZeroDivisionError, e) /\
   getIS_CovEstimate Nq BurnIn e = (Raise ZeroDivisionError, e)) /\
  (Nq <> 0%Z -> (Z.quot BurnIn Nq < Z.of_nat (K + M_))%Z ->
   exists m C, getIS_MeanEstimate Nq BurnIn e = (Ok m, e) /\
               getIS_CovEstimate Nq BurnIn e = (Ok C, e)) /\
  (Nq <> 0%Z -> (Z.of_nat (K + M_) <= Z.quot BurnIn Nq)%Z ->
   getIS_MeanEstimate Nq BurnIn e = (Raise NanResult, e) /\
   getIS_CovEstimate Nq BurnIn e = (Raise NanResult, e)).
Proof.
  intros H HK. destruct (BayesianLinReg_final e K H HK) as (st & Hr & ->).
  destruct (run_acc_lengths _ _ _ _ _ _ _ _ _ _ _ _ _ _ _ _ K K st HK Hr)
    as (_ & HS & HC).
  assert (HM : (1 <= K + M_)%nat) by (unfold M; lia).
  unfold getIS_MeanEstimate, getIS_CovEstimate, mbind, mread, mlift, int_div.
  refine (conj _ (conj _ _)).
  - intros ->. split; reflexivity.
  - intros HN Hq. destruct (Z.eq_dec Nq 0) as [|_]; [contradiction|].
    pose proof (slice_from_inside (Z.quot BurnIn Nq)
                  (WeightedSum (self st)) ltac:(lia) ltac:(lia)) as HsS.
    pose proof (slice_from_inside (Z.quot BurnIn Nq)
                  (WeightedCov (self st)) ltac:(lia) ltac:(lia)) as HsC.
    destruct (slice_from (Z.quot BurnIn Nq) (WeightedSum (self st)))
      as [|r0 rs]; [congruence|].
    destruct (slice_from (Z.quot BurnIn Nq) (WeightedCov (self st)))
      as [|c0 cs]; [congruence|].
    eexists _, _. split; reflexivity.
  - intros HN Hq. destruct (Z.eq_dec Nq 0) as [|_]; [contradiction|].
    rewrite !slice_from_past by lia. split; reflexivity.
Qed.

(** X10. An iteration with index [n] writes slot [n+M] of the accumulators
    and no other: slot [n+M] of [WeightedSum] receives the weighted sum of
    the proposals, every other slot of [WeightedSum] and [WeightedCov]
    keeps its value, and [WeightedFunSum] is not written at all. *)
Theorem iteration_writes_one_slot (InvG : matrix) (n : nat)
        (st st' : loop_state) :
  step_ InvG n st = Ok st' ->
  (exists Pstates,
     normalise (LogPstates_of InvG st n) = Ok Pstates /\
     nth_error (WeightedSum (self st')) (n + M_)
       = Some (weighted_sum d Pstates (Proposals_of st n))) /\
  (forall j, j <> (n + M_)%nat ->
     nth_error (WeightedSum (self st')) j
       = nth_error (WeightedSum (self st)) j /\
     nth_error (WeightedCov (self st')) j
       = nth_error (WeightedCov (self st)) j) /\
  WeightedFunSum (self st') = WeightedFunSum (self st).
Proof.
  intros Hs.
  destruct (step_inv _ _ _ _ _ _ _ _ _ _ _ InvG n st st' Hs)
    as (P & wcov & Inv0 & xv & av & HP & HWS & _ & _ & HWC & _ & _ & _ & _
        & _ & _ & _ & _ & HF).
  destruct (set_row_nth_error _ _ _ _ HWS) as [HwS HfS].
  destruct (set_row_nth_error _ _ _ _ HWC) as [_ HfC].
  refine (conj _ (conj _ HF)).
  - exists P. split; assumption.
  - intros j Hj. split; [now apply HfS|now apply HfC].
Qed.

(** X11. After [k] iterations the first [M] accumulator slots still hold
    the initial mean and covariance, and the slots from [k+M] on are still
    the zeros they were created with: only the first [k+M] slots carry
    estimates. *)
Theorem unwritten_slots_are_zero (K k : nat) (st : loop_state) (j : nat) :
  NumOfIter d N PowerOfTwo = Ok K -> run_upto_ k = Ok st ->
  ((j < M_)%nat ->
   nth_error (WeightedSum (self st)) j = Some InitMean /\
   nth_error (WeightedCov (self st)) j = Some InitCov) /\
  ((k + M_ <= j < K + M_)%nat ->
   nth_error (WeightedSum (self st)) j = Some (zeros d) /\
   nth_error (WeightedCov (self st)) j = Some (zeros2 d d)).
Proof.
  intros HK Hr.
  exact (run_untouched_slots _ _ _ _ _ _ _ _ _ _ _ _ _ _ _ _ K k st HK Hr j).
Qed.

End RunProperties.

Lemma ex_xs_open : Forall (fun r => Forall (fun u => 0 < u < 1) r) ex_xs.
Proof. unfold ex_xs. repeat constructor; lra. Qed.

Lemma acceptance_rate_in_unit_interval_witness :
  0 < 1 /\ Forall (fun r => Forall (fun u => 0 < u < 1) r) ex_xs /\
  exists e r,
    ex_BayesianLinReg = Ok e /\ fst (getAcceptRate 0 e) = Ok r /\
    0 <= r <= 1.
Proof.
  refine (conj Rlt_0_1 (conj ex_xs_open _)).
  destruct ex_BayesianLinReg_ok as [e He].
  destruct (accept_rate_defined inv_1x1 cholesky_1x1 ppf_median 1 1 [1] 1 1 2
              [0] [[1]] 0 ex_X ex_Obs 2 ex_xs e 2 0%Z He eq_refl ex_xs_shape
              ltac:(simpl; lia)) as [r Hr].
  exists e, r.
  assert (Hf : fst (getAcceptRate 0 e) = Ok r) by now rewrite Hr.
  split; [exact He|]. split; [exact Hf|].
  exact (proj2 (acceptance_rate_in_unit_interval inv_1x1 cholesky_1x1
                  ppf_median 1 1 [1] 1 1 2 [0] [[1]] 0 ex_X ex_Obs 2 ex_xs
                  e Rlt_0_1 ex_xs_open He) 0%Z r Hf).
Defined.

Lemma sample_counts_witness :
  exists e S,
    ex_BayesianLinReg = Ok e /\ NumOfIter 1 1 2 = Ok 2%nat /\
    shape (2 ^ 2 - 1) (1 + 1) ex_xs /\
    getSamples 0 e = (Ok S, e) /\ length S = (2 * 1 - Z.to_nat 0)%nat.
Proof.
  destruct ex_BayesianLinReg_ok as [e He].
  assert (HK : NumOfIter 1 1 2 = Ok 2%nat) by reflexivity.
  destruct (sample_counts inv_1x1 cholesky_1x1 ppf_median 1 1 [1] 1 1 2 [0]
              [[1]] 0 ex_X ex_Obs 2 ex_xs e 2 He HK ex_xs_shape)
    as [_ Hpos].
  destruct (Hpos (le_S 1 1 (le_n 1)) 0%Z (Z.le_refl 0)) as [[S [HS Hl]] _].
  exists e, S.
  refine (conj He (conj HK (conj ex_xs_shape (conj HS Hl)))).
Defined.

Lemma chain_carry_witness :
  ex_step [[1]] 0 ex_st0 = Ok ex_st1 /\
  exists batch,
    xVals (self ex_st1) = xVals (self ex_st0) ++ [Arr2 batch] /\
    batch <> [] /\ last batch [] = loop_xI ex_st1.
Proof.
  split; [exact ex_step0_eq|].
  destruct (chain_carry inv_1x1 cholesky_1x1 ppf_median 1 1 1 1 0 ex_X ex_Obs
              ex_xs [[1]] 0 ex_st0 ex_st1 ex_step0_eq)
    as (batch & HX & _ & Hne & Hlast & _).
  exists batch. refine (conj HX (conj Hne Hlast)).
Defined.

Lemma IS_mean_estimate_is_final_mean_witness :
  exists e,
    ex_BayesianLinReg = Ok e /\ 1%Z <> 0%Z /\ Z.quot 0 1 = 0%Z /\
    getIS_MeanEstimate 1 0 e = (Ok (ApprPostMean e), e).
Proof.
  destruct ex_BayesianLinReg_ok as [e He]. exists e.
  assert (HN : 1%Z <> 0%Z) by discriminate.
  assert (Hq : Z.quot 0 1 = 0%Z) by reflexivity.
  refine (conj He (conj HN (conj Hq _))).
  exact (IS_mean_estimate_is_final_mean inv_1x1 cholesky_1x1 ppf_median 1 1
           [1] 1 1 2 [0] [[1]] 0 ex_X ex_Obs 2 ex_xs e 1%Z 0%Z He HN Hq).
Defined.

Lemma IS_estimates_outcome_witness :
  exists e,
    ex_BayesianLinReg = Ok e /\ NumOfIter 1 1 2 = Ok 2%nat /\
    1%Z <> 0%Z /\ (Z.of_nat (2 + M 1 0) <= Z.quot 3 1)%Z /\
    getIS_MeanEstimate 1 3 e = (Raise NanResult, e) /\
    getIS_CovEstimate 1 3 e = (Raise NanResult, e).
Proof.
  destruct ex_BayesianLinReg_ok as [e He]. exists e.
  assert (HK : NumOfIter 1 1 2 = Ok 2%nat) by reflexivity.
  assert (HN : 1%Z <> 0%Z) by discriminate.
  assert (Hq : (Z.of_nat (2 + M 1 0) <= Z.quot 3 1)%Z)
    by (intros Hc; discriminate Hc).
  refine (conj He (conj HK (conj HN (conj Hq _)))).
  exact (proj2 (proj2 (IS_estimates_outcome inv_1x1 cholesky_1x1 ppf_median
                         1 1 [1] 1 1 2 [0] [[1]] 0 ex_X ex_Obs 2 ex_xs e 2
                         1%Z 3%Z He HK)) HN Hq).
Defined.

Lemma iteration_writes_one_slot_witness :
  ex_step [[1]] 0 ex_st0 = Ok ex_st1 /\
  nth_error (WeightedSum (self ex_st1)) 0
    = nth_error (WeightedSum (self ex_st0)) 0 /\
  nth_error (WeightedSum (self ex_st1)) 2
    = nth_error (WeightedSum (self ex_st0)) 2 /\
  WeightedFunSum (self ex_st1) = WeightedFunSum (self ex_st0).
Proof.
  split; [exact ex_step0_eq|].
  destruct (iteration_writes_one_slot inv_1x1 cholesky_1x1 ppf_median 1 1 1 1
              0 ex_X ex_Obs ex_xs [[1]] 0 ex_st0 ex_st1 ex_step0_eq)
    as (_ & Hframe & HF).
  refine (conj (proj1 (Hframe 0%nat _)) (conj (proj1 (Hframe 2%nat _)) HF));
    discriminate.
Defined.

Lemma unwritten_slots_are_zero_witness :
  NumOfIter 1 1 2 = Ok 2%nat /\ ex_run 1 = Ok ex_st1 /\
  (1 + M 1 0 <= 2 < 2 + M 1 0)%nat /\
  nth_error (WeightedSum (self ex_st1)) 2 = Some (zeros 1) /\
  nth_error (WeightedCov (self ex_st1)) 2 = Some (zeros2 1 1).
Proof.
  assert (HK : NumOfIter 1 1 2 = Ok 2%nat) by reflexivity.
  assert (Hj : (1 + M 1 0 <= 2 < 2 + M 1 0)%nat) by (cbn; lia).
  refine (conj HK (conj ex_run1_eq (conj Hj _))).
  exact (proj2 (unwritten_slots_are_zero inv_1x1 cholesky_1x1 ppf_median 1 1
                  [1] 1 1 2 [0] [[1]] 0 ex_X ex_Obs 2 ex_xs 2 1 ex_st1 2 HK
                  ex_run1_eq) Hj).
Defined.

(** ** Scores and weighted moments (lines 151-158, 175-185) *)

(** X12. For non-negative weights that sum to one, each component of the
    weighted sum written to [WeightedSum[n+M]] is a convex combination of
    that component of the proposals: it lies between any lower and upper
    bound of the proposals' values. *)
Theorem weighted_sum_in_hull (d : nat) (Pstates : vec)
        (Proposals : matrix) (j : nat) (lo hi : R) :
  Forall (fun p => 0 <= p) Pstates -> rsum Pstates = 1 ->
  shape (length Pstates) d Proposals -> (j < d)%nat ->
  Forall (fun row => lo <= nth j row 0 <= hi) Proposals ->
  lo <= nth j (weighted_sum d Pstates Proposals) 0 <= hi.
Proof.
  intros Hpos Hsum Hs Hj Hb.
  assert (Hr : (1 <= length Pstates)%nat).
  { destruct Pstates; [simpl in Hsum; lra|simpl; lia]. }
  rewrite (weighted_sum_nth (length Pstates) d) by assumption.
  destruct (convex_bounds Pstates (col j Proposals) lo hi Hpos) as [H1 H2].
  - unfold col. rewrite length_map. symmetry. apply Hs.
  - unfold col. apply Forall_map. exact Hb.
  - rewrite Hsum in H1, H2. lra.
Qed.

Lemma weighted_sum_in_hull_witness :
  Forall (fun p => 0 <= p) ex_Pstates /\ rsum ex_Pstates = 1 /\
  shape (length ex_Pstates) 1 ex_Proposals /\ (0 < 1)%nat /\
  Forall (fun row => 0 <= nth 0 row 0 <= 1) ex_Proposals /\
  0 <= nth 0 (weighted_sum 1 ex_Pstates ex_Proposals) 0 <= 1.
Proof.
  assert (H : normalise ex_LogPstates = Ok ex_Pstates).
  { apply normalise_eq_naive. discriminate. }
  destruct (normalise_facts _ _ H) as (_ & Hpos & Hsum).
  assert (Hs : shape (length ex_Pstates) 1 ex_Proposals).
  { split; [reflexivity|repeat constructor]. }
  assert (Hj : (0 < 1)%nat) by lia.
  assert (Hb : Forall (fun row => 0 <= nth 0 row 0 <= 1) ex_Proposals).
  { unfold ex_Proposals. repeat constructor; simpl; lra. }
  refine (conj Hpos (conj Hsum (conj Hs (conj Hj (conj Hb _))))).
  exact (weighted_sum_in_hull 1 ex_Pstates ex_Proposals 0 0 1
           Hpos Hsum Hs Hj Hb).
Defined.

(** X13. The matrix written to [WeightedCov[n+M]] is a [d x d] symmetric
    positive semi-definite matrix whenever the weights are non-negative and
    the proposals and the mean are [d]-vectors: [v^T W v >= 0] for every
    [v]. *)
Theorem weighted_cov_symmetric_psd (d N : nat) (Pstates mean : vec)
        (Proposals W : matrix) :
  weighted_cov d N Pstates mean Proposals = Ok W ->
  Forall (fun p => 0 <= p) Pstates -> length mean = d ->
  Forall (fun row => length row = d) Proposals ->
  shape d d W /\
  (forall a b, (a < d)%nat -> (b < d)%nat -> mget W a b = mget W b a) /\
  (forall v : vec,
     0 <= sumn (fun a => sumn (fun b => nth a v 0 * mget W a b * nth b v 0) d)
               d).
Proof.
  intros H HP Hm Hrows. unfold weighted_cov in H.
  destruct (Nat.eq_dec _ _) as [_|]; [|discriminate]. injection H as <-.
  apply weighted_outer_sum; [exact HP|].
  apply Forall_map. apply Forall_impl with (2 := Hrows).
  intros row Hrow. rewrite vsub_length; congruence.
Qed.

Lemma weighted_cov_symmetric_psd_witness :
  weighted_cov 1 1 [1 / 4; 3 / 4] [0] [[1]; [0]] = Ok [[1 / 4]] /\
  Forall (fun p => 0 <= p) [1 / 4; 3 / 4] /\ length [0] = 1%nat /\
  Forall (fun row : vec => length row = 1%nat) [[1]; [0]] /\
  shape 1 1 [[1 / 4]].
Proof.
  assert (H : weighted_cov 1 1 [1 / 4; 3 / 4] [0] [[1]; [0]]
              = Ok [[1 / 4]]).
  { unfold weighted_cov. cbn. do 3 f_equal. lra. }
  assert (HP : Forall (fun p => 0 <= p) [1 / 4; 3 / 4])
    by (repeat constructor; lra).
  assert (Hm : length [0] = 1%nat) by reflexivity.
  assert (Hr : Forall (fun row : vec => length row = 1%nat) [[1]; [0]])
    by (repeat constructor).
  refine (conj H (conj HP (conj Hm (conj Hr _)))).
  exact (proj1 (weighted_cov_symmetric_psd 1 1 [1 / 4; 3 / 4] [0] [[1]; [0]]
                  [[1 / 4]] H HP Hm Hr)).
Defined.

(** X14. [LogLikelihoods[i]] is the Gaussian log-likelihood of proposal
    [i] with noise precision [alpha], up to a constant: minus [alpha/2]
    times the sum over the observations of the squared residual
    [Obs[k] - X[k,:] . Proposals[i,:]]; it is never positive for
    [alpha >= 0]. *)
Theorem LogLikelihoods_entry (alpha : R) (n d r : nat) (X : matrix)
        (Obs : vec) (Proposals : matrix) (i : nat) :
  shape n d X -> length Obs = n -> shape r d Proposals ->
  (1 <= n)%nat -> (1 <= d)%nat -> (i < r)%nat ->
  nth i (LogLikelihoods alpha X Obs Proposals) 0
  = - (1 / 2) * alpha
    * sumn (fun k =>
              (nth k Obs 0
               - sumn (fun t => mget X k t * mget Proposals i t) d) ^ 2) n /\
  (0 <= alpha -> nth i (LogLikelihoods alpha X Obs Proposals) 0 <= 0).
Proof.
  intros HX HO HP Hn Hd Hi.
  assert (E : nth i (LogLikelihoods alpha X Obs Proposals) 0
              = - (1 / 2) * alpha
                * sumn (fun k =>
                    (nth k Obs 0
                     - sumn (fun t => mget X k t * mget Proposals i t) d) ^ 2)
                       n).
  { unfold LogLikelihoods. cbv zeta. rewrite vscal_nth. f_equal.
    set (res := map (vsub Obs) (transpose (matmul X (transpose Proposals)))).
    assert (Hres : shape r n res).
    { destruct n as [|n']; [lia|].
      apply (residual_entry (S n') d r X Obs Proposals i 0); (assumption || lia). }
    pose proof (shape_transpose r n res Hres ltac:(lia)) as Hrt.
    rewrite (diagonal_nth r) by (try apply (shape_matmul r n r); assumption).
    rewrite (mget_matmul r n r res _ i i Hres Hrt Hn Hi Hi).
    apply sumn_ext. intros k Hk.
    rewrite (mget_transpose r n res k i Hres ltac:(lia) Hk).
    unfold res.
    rewrite (proj2 (residual_entry n d r X Obs Proposals i k
                      HX HO HP Hn Hd Hi Hk)).
    simpl. lra. }
  split; [exact E|]. intros Ha. rewrite E.
  assert (Hs : 0 <= sumn (fun k =>
                 (nth k Obs 0
                  - sumn (fun t => mget X k t * mget Proposals i t) d) ^ 2) n).
  { apply sumn_nonneg. intros k _. apply pow2_ge_0. }
  nra.
Qed.

Lemma LogLikelihoods_entry_witness :
  shape 2 1 ex_X /\ length ex_Obs = 2%nat /\ shape 2 1 ex_Proposals /\
  (1 <= 2)%nat /\ (1 <= 1)%nat /\ (0 < 2)%nat /\
  nth 0 (LogLikelihoods 1 ex_X ex_Obs ex_Proposals) 0
  = - (1 / 2) * 1
    * sumn (fun k =>
              (nth k ex_Obs 0
               - sumn (fun t => mget ex_X k t * mget ex_Proposals 0 t) 1) ^ 2)
           2.
Proof.
  assert (HP : shape 2 1 ex_Proposals)
    by (split; [reflexivity|repeat constructor]).
  assert (HO : length ex_Obs = 2%nat) by reflexivity.
  assert (H2 : (1 <= 2)%nat) by lia.
  assert (H1 : (1 <= 1)%nat) by lia.
  assert (H0 : (0 < 2)%nat) by lia.
  refine (conj ex_X_shape (conj HO (conj HP (conj H2 (conj H1 (conj H0 _)))))).
  exact (proj1 (LogLikelihoods_entry 1 2 1 2 ex_X ex_Obs ex_Proposals 0
                  ex_X_shape HO HP H2 H1 H0)).
Defined.

(** X15. [LogPriors[i]] and [LogK_ni[i]] are minus one half of quadratic
    forms: of proposal [i] in the prior precision [InvG_prior], and of the
    deviation of proposal [i] from the proposal mean in the proposal
    precision divided by [StepSize^2]. *)
Theorem LogPriors_LogK_ni_entries (StepSize : R) (d r : nat)
        (InvG Inv Proposals : matrix) (mean : vec) (i : nat) :
  shape d d InvG -> shape d d Inv -> length mean = d ->
  shape r d Proposals -> (1 <= d)%nat -> (i < r)%nat ->
  nth i (LogPriors InvG Proposals) 0
  = - (1 / 2)
    * sumn (fun a => sumn (fun b =>
              mget Proposals i a * mget InvG a b * mget Proposals i b) d) d /\
  nth i (LogK_ni StepSize mean Inv Proposals) 0
  = - (1 / 2)
    * sumn (fun a => sumn (fun b =>
              (mget Proposals i a - nth a mean 0)
              * (mget Inv a b / StepSize ^ 2)
              * (mget Proposals i b - nth b mean 0)) d) d.
Proof.
  intros HG HI Hm HP Hd Hi. split.
  - unfold LogPriors. rewrite vscal_nth. f_equal.
    apply (quad_diag_nth r d); assumption.
  - unfold LogK_ni. cbv zeta. rewrite vscal_nth. f_equal.
    set (D := map (fun p => vsub p mean) Proposals).
    set (K := map (map (fun a => a / StepSize ^ 2)) Inv).
    assert (HD : shape r d D).
    { apply shape_map_rows; [exact HP|].
      intros row Hrow. rewrite vsub_length; congruence. }
    assert (HK : shape d d K).
    { apply shape_map_rows; [exact HI|].
      intros row Hrow. now rewrite length_map. }
    rewrite (quad_diag_nth r d D K i HD HK Hd Hi).
    assert (ED : forall a, (a < d)%nat ->
              mget D i a = mget Proposals i a - nth a mean 0).
    { intros a Ha. unfold mget, D.
      rewrite (nth_map_in (fun p => vsub p mean) Proposals [] [] i)
        by (destruct HP; lia).
      unfold vsub. apply nth_map2; [|lia].
      now rewrite (shape_row r d Proposals i HP Hi). }
    assert (EK : forall a b, (a < d)%nat -> (b < d)%nat ->
              mget K a b = mget Inv a b / StepSize ^ 2).
    { intros a b Ha Hb. unfold mget, K.
      rewrite (nth_map_in (map (fun x => x / StepSize ^ 2)) Inv [] [] a)
        by (destruct HI; lia).
      apply (nth_map_in (fun x => x / StepSize ^ 2)).
      now rewrite (shape_row d d Inv a HI Ha). }
    apply sumn_ext. intros a Ha. apply sumn_ext. intros b Hb.
    now rewrite (ED a Ha), (ED b Hb), (EK a b Ha Hb).
Qed.

Lemma LogPriors_LogK_ni_entries_witness :
  shape 1 1 [[1]] /\ length [0] = 1%nat /\ shape 2 1 ex_Proposals /\
  (1 <= 1)%nat /\ (0 < 2)%nat /\
  nth 0 (LogPriors [[1]] ex_Proposals) 0
  = - (1 / 2)
    * sumn (fun a => sumn (fun b =>
              mget ex_Proposals 0 a * mget [[1]] a b * mget ex_Proposals 0 b)
                          1) 1.
Proof.
  assert (HP : shape 2 1 ex_Proposals)
    by (split; [reflexivity|repeat constructor]).
  assert (Hm : length [0] = 1%nat) by reflexivity.
  assert (H1 : (1 <= 1)%nat) by lia.
  assert (H0 : (0 < 2)%nat) by lia.
  refine (conj ex_InitCov_shape (conj Hm (conj HP (conj H1 (conj H0 _))))).
  exact (proj1 (LogPriors_LogK_ni_entries 1 1 2 [[1]] [[1]] ex_Proposals [0]
                  0 ex_InitCov_shape ex_InitCov_shape Hm HP H1 H0)).
Defined.

(** ** Use of the stream (lines 92, 136) *)

(** X16. The loop leaves fewer than [N + d] rows of the stream unread, and
    it runs no iteration at all exactly when the largest multiple of [d+1]
    not above the stream length [2^PowerOfTwo - 1] is smaller than [N]. *)
Theorem stream_rows_unread (d N PowerOfTwo K : nat) :
  NumOfIter d N PowerOfTwo = Ok K ->
  (2 ^ PowerOfTwo - 1 - K * N < N + d)%nat /\
  (K = 0%nat <-> ((2 ^ PowerOfTwo - 1) / (d + 1) * (d + 1) < N)%nat).
Proof.
  unfold NumOfIter. destruct (Nat.eq_dec N 0) as [|HN]; [discriminate|].
  intros [= <-].
  set (S := (2 ^ PowerOfTwo - 1)%nat).
  set (q := (S / (d + 1))%nat).
  pose proof (Nat.div_mod_eq S (d + 1)) as E1. fold q in E1.
  pose proof (Nat.mod_upper_bound S (d + 1) ltac:(lia)) as B1.
  pose proof (Nat.div_mod_eq (q * (d + 1)) N) as E2.
  pose proof (Nat.mod_upper_bound (q * (d + 1)) N HN) as B2.
  split.
  - nia.
  - split.
    + intros H0. rewrite H0 in E2. lia.
    + intros Hlt. now apply Nat.div_small.
Qed.

Lemma stream_rows_unread_witness :
  NumOfIter 1 1 2 = Ok 2%nat /\ (2 ^ 2 - 1 - 2 * 1 < 1 + 1)%nat.
Proof.
  assert (HK : NumOfIter 1 1 2 = Ok 2%nat) by reflexivity.
  split; [exact HK|].
  exact (proj1 (stream_rows_unread 1 1 2 2 HK)).
Defined.

(** ** The convergence study ([Gauss/Convergence.py]) *)

(** X17. The two ways the study computes the squared bias agree: squaring
    the mean of the deviations from [PostMean] (the [QMC_] arrays, line
    158) gives the same trace as squaring the deviation of the mean from
    [PostMean] (the [PSR_] arrays, line 159), namely the sum over the
    components of the squared difference between the mean estimate and
    [PostMean]. *)
Theorem squared_bias_formulas_agree (NumOfSim d : nat)
        (EstimArray : list matrix) (PostMean : vec) :
  Forall (shape NumOfSim d) EstimArray -> (1 <= NumOfSim)%nat ->
  length PostMean = d ->
  QMC_EstimAverageSquareBiasTrace EstimArray PostMean
  = PSR_EstimAverageSquareBiasTrace EstimArray PostMean /\
  PSR_EstimAverageSquareBiasTrace EstimArray PostMean
  = Ok (map (fun Ep =>
               sumn (fun c =>
                       (sumn (fun j => mget Ep j c) NumOfSim / INR NumOfSim
                        - nth c PostMean 0) ^ 2) d)
            EstimArray).
Proof.
  intros Hs Hn Hp.
  rewrite (QMC_EstimAverageSquareBiasTrace_value NumOfSim d) by assumption.
  rewrite (PSR_EstimAverageSquareBiasTrace_value NumOfSim d) by assumption.
  split; reflexivity.
Qed.

Lemma squared_bias_formulas_agree_witness :
  Forall (shape 2 1) [[[1]; [3]]] /\ (1 <= 2)%nat /\ length [0] = 1%nat /\
  QMC_EstimAverageSquareBiasTrace [[[1]; [3]]] [0]
  = PSR_EstimAverageSquareBiasTrace [[[1]; [3]]] [0].
Proof.
  assert (Hs : Forall (shape 2 1) [[[1]; [3]]]).
  { constructor; [|constructor]. split; [reflexivity|repeat constructor]. }
  assert (Hn : (1 <= 2)%nat) by lia.
  assert (Hp : length [0] = 1%nat) by reflexivity.
  refine (conj Hs (conj Hn (conj Hp _))).
  exact (proj1 (squared_bias_formulas_agree 2 1 [[[1]; [3]]] [0] Hs Hn Hp)).
Defined.

(** X18. What the study reports as mean squared error, the variance trace
    plus the squared-bias trace (lines 198 and 239), is for every entry of
    [N_Array] exactly the mean over the simulations of the squared
    Euclidean distance between the estimate and [PostMean]. *)
Theorem MSE_trace_is_mean_squared_error (NumOfSim d : nat)
        (EstimArray : list matrix) (PostMean : vec) :
  Forall (shape NumOfSim d) EstimArray -> (1 <= NumOfSim)%nat ->
  length PostMean = d ->
  QMC_MSE_Trace EstimArray PostMean
  = Ok (map (fun Ep =>
               sumn (fun j =>
                       sumn (fun c => (mget Ep j c - nth c PostMean 0) ^ 2) d)
                    NumOfSim
               / INR NumOfSim)
            EstimArray) /\
  PSR_MSE_Trace EstimArray PostMean = QMC_MSE_Trace EstimArray PostMean.
Proof.
  intros Hs Hn Hp. unfold QMC_MSE_Trace, PSR_MSE_Trace.
  rewrite (EstimAverageVarTrace_value NumOfSim d) by assumption.
  rewrite (QMC_EstimAverageSquareBiasTrace_value NumOfSim d) by assumption.
  rewrite (PSR_EstimAverageSquareBiasTrace_value NumOfSim d) by assumption.
  cbn [bind]. split; [|reflexivity]. f_equal. unfold vadd.
  rewrite map2_map_same. apply map_ext. intros Ep.
  apply (slice_mse NumOfSim d PostMean Hn Ep).
Qed.

Lemma MSE_trace_is_mean_squared_error_witness :
  Forall (shape 2 1) [[[1]; [3]]] /\ (1 <= 2)%nat /\ length [0] = 1%nat /\
  QMC_MSE_Trace [[[1]; [3]]] [0]
  = Ok (map (fun Ep =>
               sumn (fun j =>
                       sumn (fun c => (mget Ep j c - nth c [0] 0) ^ 2) 1) 2
               / INR 2)
            [[[1]; [3]]]).
Proof.
  assert (Hs : Forall (shape 2 1) [[[1]; [3]]]).
  { constructor; [|constructor]. split; [reflexivity|repeat constructor]. }
  assert (Hn : (1 <= 2)%nat) by lia.
  assert (Hp : length [0] = 1%nat) by reflexivity.
  refine (conj Hs (conj Hn (conj Hp _))).
  exact (proj1 (MSE_trace_is_mean_squared_error 2 1 [[[1]; [3]]] [0]
                  Hs Hn Hp)).
Defined.

(** X19. The variance trace has one non-negative entry per entry of
    [N_Array], and the entry is zero when all simulations for that entry
    returned the same estimate. *)
Theorem variance_trace_nonneg (NumOfSim d : nat) (EstimArray : list matrix) :
  Forall (shape NumOfSim d) EstimArray -> (1 <= NumOfSim)%nat ->
  exists VarTrace,
    EstimAverageVarTrace EstimArray = Ok VarTrace /\
    length VarTrace = length EstimArray /\
    Forall (fun v => 0 <= v) VarTrace /\
    forall p,
      (p < length EstimArray)%nat ->
      (forall j c, (j < NumOfSim)%nat -> (c < d)%nat ->
                   mget (nth p EstimArray []) j c
                   = mget (nth p EstimArray []) 0 c) ->
      nth p VarTrace 0 = 0.
Proof.
  intros Hs Hn. eexists.
  split; [exact (EstimAverageVarTrace_value NumOfSim d EstimArray Hs Hn)|].
  assert (Hn0 : 0 < INR NumOfSim) by (apply lt_0_INR; lia).
  refine (conj (length_map _ _) (conj _ _)).
  - apply Forall_map, Forall_forall. intros Ep _.
    apply sumn_nonneg. intros c _. apply Rmult_le_pos.
    + apply sumn_nonneg. intros j _. apply pow2_ge_0.
    + apply Rlt_le, Rinv_0_lt_compat, Hn0.
  - intros p Hp Hsame.
    set (f := fun Ep : matrix =>
           sumn (fun c =>
                   sumn (fun j =>
                           (mget Ep j c
                            - sumn (fun j0 => mget Ep j0 c) NumOfSim
                              / INR NumOfSim) ^ 2) NumOfSim
                   / INR NumOfSim) d).
    rewrite (nth_map_in f EstimArray [] 0 p Hp). unfold f.
    set (Ep := nth p EstimArray []) in *.
    rewrite (sumn_ext _ (fun _ => 0)); [apply sumn_zero|].
    intros c Hc.
    assert (Emu : sumn (fun j0 => mget Ep j0 c) NumOfSim / INR NumOfSim
                  = mget Ep 0 c).
    { rewrite (sumn_ext _ (fun _ => mget Ep 0 c))
        by (intros j Hj; now apply Hsame).
      rewrite sumn_const. field. lra. }
    rewrite Emu.
    rewrite (sumn_ext _ (fun _ => 0)).
    + rewrite sumn_zero. unfold Rdiv. lra.
    + intros j Hj. rewrite (Hsame j c Hj Hc). ring.
Qed.

Lemma variance_trace_nonneg_witness :
  Forall (shape 2 1) [[[1]; [3]]] /\ (1 <= 2)%nat /\
  exists VarTrace,
    EstimAverageVarTrace [[[1]; [3]]] = Ok VarTrace /\
    length VarTrace = 1%nat /\ Forall (fun v => 0 <= v) VarTrace.
Proof.
  assert (Hs : Forall (shape 2 1) [[[1]; [3]]]).
  { constructor; [|constructor]. split; [reflexivity|repeat constructor]. }
  assert (Hn : (1 <= 2)%nat) by lia.
  refine (conj Hs (conj Hn _)).
  destruct (variance_trace_nonneg 2 1 [[[1]; [3]]] Hs Hn)
    as (vt & Hvt & Hlen & Hpos & _).
  exists vt. refine (conj Hvt (conj Hlen Hpos)).
Defined.

(** ** The covariance estimate and the constructor's division errors *)

Section FinalCovariance.

Variable np_linalg_inv : matrix -> result matrix.
Variable np_linalg_cholesky : matrix -> result matrix.
Variable norm_ppf : R -> R -> R -> R.
Variables (d : nat) (alpha : R) (x0 : vec) (N : nat) (StepSize : R)
          (PowerOfTwo : nat) (InitMean : vec) (InitCov : matrix)
          (WeightIn : nat).
Variables (X : matrix) (Obs : vec) (NumOfSamples : nat) (xs : matrix).

Local Abbreviation BayesianLinReg_ :=
  (BayesianLinReg np_linalg_inv np_linalg_cholesky norm_ppf d alpha x0 N
                  StepSize PowerOfTwo InitMean InitCov WeightIn X Obs
                  NumOfSamples xs).

(** X22. When the last iteration refreshed the proposal covariance (its
    index [NumOfIter - 1] exceeds [2*d/N]), [getIS_CovEstimate] asked for
    no burn-in returns exactly the [ApprPostCov] the constructor ended
    with, and leaves the object unchanged. *)
Theorem IS_cov_estimate_is_final_cov (e : engine) (k : nat) (Nq BurnIn : Z) :
  BayesianLinReg_ = Ok e -> NumOfIter d N PowerOfTwo = Ok (S k) ->
  cov_guard d N k = true -> Nq <> 0%Z -> Z.quot BurnIn Nq = 0%Z ->
  getIS_CovEstimate Nq BurnIn e = (Ok (ApprPostCov e), e).
Proof.
  intros H HK Hg HN Hq.
  destruct (BayesianLinReg_final _ _ _ _ _ _ _ _ _ _ _ _ _ _ _ _ e (S k) H HK)
    as (st & Hr & ->).
  destruct (run_upto_S _ _ _ _ _ _ _ _ _ _ _ _ _ _ _ _ k st Hr)
    as (InvG & K & st1 & _ & _ & _ & _ & Hs & _).
  destruct (step_inv _ _ _ _ _ _ _ _ _ _ _ InvG k st1 st Hs)
    as (P & wcov & Inv0 & xv & av & _ & _ & _ & _ & _ & _ & Href & _).
  rewrite Hg in Href. destruct Href as (HC & _ & _).
  destruct (run_acc_lengths _ _ _ _ _ _ _ _ _ _ _ _ _ _ _ _ (S k) (S k) st
              HK Hr) as (_ & _ & HCl).
  rewrite firstn_all2 in HC by lia.
  unfold getIS_CovEstimate, mbind, mread, mlift, int_div.
  destruct (Z.eq_dec Nq 0) as [|_]; [contradiction|].
  rewrite Hq, slice_from_0, HC. reflexivity.
Qed.


End FinalCovariance.

Lemma IS_cov_estimate_is_final_cov_witness :
  exists e,
    BayesianLinReg inv_1x1 cholesky_1x1 ppf_median 1 1 [1] 3 1 3 [0] [[1]] 0
                   ex_X ex_Obs 2 ex_xs7 = Ok e /\
    NumOfIter 1 3 3 = Ok 2%nat /\ cov_guard 1 3 1 = true /\
    1%Z <> 0%Z /\ Z.quot 0 1 = 0%Z /\
    getIS_CovEstimate 1 0 e = (Ok (ApprPostCov e), e).
Proof.
  destruct (BayesianLinReg_returns inv_1x1 cholesky_1x1 ppf_median
              1 1 [1] 3 1 3 [0] [[1]] 0 ex_X ex_Obs 2 ex_xs7
              inv_1x1_keeps_shape cholesky_1x1_keeps_shape inv_1x1_raises
              cholesky_1x1_raises (le_n 1) (le_S 1 2 (le_S 1 1 (le_n 1)))
              (le_S 1 1 (le_n 1))
              ex_X_shape eq_refl eq_refl eq_refl ex_InitCov_pos_def
              ex_xs7_shape ex_xs7_unit inv_1x1_complete
              cholesky_1x1_complete [[1]] ex_InvG_prior_eq)
    as (K & st & _ & _ & He & _).
  exists (self st).
  assert (HK : NumOfIter 1 3 3 = Ok 2%nat) by reflexivity.
  assert (Hg : cov_guard 1 3 1 = true) by reflexivity.
  assert (HN : 1%Z <> 0%Z) by discriminate.
  assert (Hq : Z.quot 0 1 = 0%Z) by reflexivity.
  refine (conj He (conj HK (conj Hg (conj HN (conj Hq _))))).
  exact (IS_cov_estimate_is_final_cov inv_1x1 cholesky_1x1 ppf_median
           1 1 [1] 3 1 3 [0] [[1]] 0 ex_X ex_Obs 2 ex_xs7 (self st) 1
           1%Z 0%Z He HK Hg HN Hq).
Defined.


(** ** The constructor over exact real arithmetic

    The three theorems of this part are about the constructor computed
    over the real numbers, on its documented arguments.  In binary64 the
    weights of an iteration can overflow to zero or sum to less than a
    draw (see C7), and the look-up of line 201 then raises [IndexError]. *)

Lemma open_unit_closed (xs : matrix) :
  Forall (fun r => Forall (fun u => 0 < u < 1) r) xs ->
  Forall (fun r => Forall (fun u => 0 <= u <= 1) r) xs.
Proof.
  apply Forall_impl. intros r. apply Forall_impl. intros u Hu. lra.
Qed.

Lemma ex_documented_arguments :
  documented_arguments 1 1 [1] 1 1 2 [0] [[1]] ex_X ex_Obs 2 ex_xs.
Proof.
  constructor; try reflexivity; try lia; try lra.
  - exact ex_X_shape.
  - exact ex_InitCov_shape.
  - exact ex_xs_shape.
  - unfold ex_xs. repeat constructor; lra.
Qed.

Lemma ex7_documented_arguments :
  documented_arguments 1 1 [1] 3 1 3 [0] [[1]] ex_X ex_Obs 2 ex_xs7.
Proof.
  constructor; try reflexivity; try lia; try lra.
  - exact ex_X_shape.
  - exact ex_InitCov_shape.
  - exact ex_xs7_shape.
  - unfold ex_xs7. repeat constructor; lra.
Qed.

Section ExactArithmetic.

Variable np_linalg_inv : matrix -> result matrix.
Variable np_linalg_cholesky : matrix -> result matrix.
Variable norm_ppf : R -> R -> R -> R.
Variables (d : nat) (alpha : R) (x0 : vec) (N : nat) (StepSize : R)
          (PowerOfTwo : nat) (InitMean : vec) (InitCov : matrix)
          (WeightIn : nat).
Variables (X : matrix) (Obs : vec) (NumOfSamples : nat) (xs : matrix).

Local Abbreviation M_ := (M N WeightIn).
Local Abbreviation run_upto_ :=
  (run_upto np_linalg_inv np_linalg_cholesky norm_ppf d alpha x0 N StepSize
            PowerOfTwo InitMean InitCov WeightIn X Obs NumOfSamples xs).
Local Abbreviation BayesianLinReg_ :=
  (BayesianLinReg np_linalg_inv np_linalg_cholesky norm_ppf d alpha x0 N
                  StepSize PowerOfTwo InitMean InitCov WeightIn X Obs
                  NumOfSamples xs).
Local Abbreviation documented_ :=
  (documented_arguments d alpha x0 N StepSize PowerOfTwo InitMean InitCov
                        X Obs NumOfSamples xs).


(** X20. Over exact real arithmetic, on the documented arguments: if the
    initial covariance is symmetric positive definite, so is the proposal
    covariance [ApprPostCov] after any number of iterations, and every slot
    of [WeightedCov] is symmetric positive semi-definite: each refresh
    averages the initial covariance with weighted sums of outer
    products. *)
Theorem proposal_covariance_stays_pos_def (k : nat) (st : loop_state) :
  documented_ -> pos_def d InitCov ->
  keeps_shape np_linalg_inv -> keeps_shape np_linalg_cholesky ->
  raises_LinAlgError_only np_linalg_inv ->
  raises_LinAlgError_only np_linalg_cholesky ->
  run_upto_ k = Ok st ->
  pos_def d (ApprPostCov (self st)) /\
  Forall (pos_semidef d) (WeightedCov (self st)).
Proof.
  intros [Hd HN Ha _ Hn HX HO Hx0 Hm HC Hxs Hopen] Hpd Hi Hc Hir Hcr H.
  destruct (run_cov_inv np_linalg_inv np_linalg_cholesky norm_ppf d alpha x0
              N StepSize PowerOfTwo InitMean InitCov WeightIn X Obs
              NumOfSamples xs Hi Hc Hir Hcr Hd HN Hn HX HO Hx0 Hm Hpd Hxs
              (open_unit_closed xs Hopen) k st H)
    as (K & _ & _ & [Hcov Hslots _]).
  split; assumption.
Qed.


End ExactArithmetic.


Lemma proposal_covariance_stays_pos_def_witness :
  documented_arguments 1 1 [1] 1 1 2 [0] [[1]] ex_X ex_Obs 2 ex_xs /\
  pos_def 1 [[1]] /\ ex_run 1 = Ok ex_st1 /\
  pos_def 1 (ApprPostCov (self ex_st1)) /\
  Forall (pos_semidef 1) (WeightedCov (self ex_st1)).
Proof.
  refine (conj ex_documented_arguments (conj ex_InitCov_pos_def
            (conj ex_run1_eq _))).
  exact (proposal_covariance_stays_pos_def inv_1x1 cholesky_1x1 ppf_median
           1 1 [1] 1 1 2 [0] [[1]] 0 ex_X ex_Obs 2 ex_xs 1 ex_st1
           ex_documented_arguments ex_InitCov_pos_def
           inv_1x1_keeps_shape cholesky_1x1_keeps_shape inv_1x1_raises
           cholesky_1x1_raises ex_run1_eq).
Defined.

